(** * LLM_SPT: the orchestration core, embedded in Rocq

    A shallow embedding of the Go sources of the subtitle-translation
    pipeline (sliding-window batcher, response validator, error
    classification, rate-limit gate, dispatcher worker and commit gate,
    SRT splitter filter, linear assembler, token estimator), followed by
    the properties proved about them.

    Conventions.
    - Go's [int], [int64] and [Index] are 64-bit two's-complement integers:
      they are modelled as [Z] and every arithmetic operation wraps
      ([goint.add], [goint.sub], ...).
    - Go strings are byte sequences: [string], one [ascii] per byte, and
      [len s] is [String.length s].
    - A Go function returning [(T, error)] returns a [result T]; a run-time
      panic (index or slice bounds out of range) is the outcome [Panic].
    - [context.Context] is observed only through polls of [ctx.Done()]: a
      context is the function giving, for the k-th poll of a call, the error
      [ctx.Err()] reports then ([None] while the context is live).
    - Collaborators behind interfaces (prompt builder, LLM client, decoder,
      assembler, pipes, clock) are oracles: functions giving the outcome of
      each of their calls.
    - [float64] is used by the rate gate only; its definitions are written
      over the float64 operations, which are those of IEEE 754 binary64. *)

From Stdlib Require Import ZArith String Ascii List Bool Lia.
From Stdlib Require Import PrimFloat Uint63.
From stdpp Require Import base option list gmap strings pretty.

Local Open Scope Z_scope.

(** ** Go integers *)

Module goint.

Definition min_int : Z := - 2 ^ 63.
Definition max_int : Z := 2 ^ 63 - 1.

(** Two's-complement wrap-around of a mathematical integer into 64 bits. *)
Definition wrap (z : Z) : Z := (z + 2 ^ 63) mod 2 ^ 64 - 2 ^ 63.

Definition add (a b : Z) : Z := wrap (a + b).
Definition sub (a b : Z) : Z := wrap (a - b).
Definition mul (a b : Z) : Z := wrap (a * b).
(** Go's [/] on integers truncates toward zero. *)
Definition quot (a b : Z) : Z := wrap (Z.quot a b).

Definition in_range (z : Z) : Prop := min_int <= z <= max_int.

(** [len] of a Go string and of a Go slice. *)
Definition len (s : string) : Z := Z.of_nat (String.length s).
Definition llen {A} (l : list A) : Z := Z.of_nat (length l).

(** [l[i]]: [None] is the run-time panic "index out of range". *)
Definition index {A} (l : list A) (i : Z) : option A :=
  if i <? 0 then None else l !! Z.to_nat i.

(** [l[lo:hi]]: [None] is the run-time panic "slice bounds out of range". *)
Definition slice {A} (l : list A) (lo hi : Z) : option (list A) :=
  if (0 <=? lo) && (lo <=? hi) && (hi <=? llen l)
  then Some (take (Z.to_nat (hi - lo)) (drop (Z.to_nat lo) l))
  else None.

End goint.

(** ** Go errors *)

Module errors.

(** The package-level error values the classifier tests for: the two
    context errors and the sentinels of package [contract]. *)
Inductive known : Type :=
| Canceled              (* context.Canceled *)
| DeadlineExceeded      (* context.DeadlineExceeded *)
| ErrRateLimited
| ErrResponseInvalid
| ErrInvalidInput
| ErrSeqInvalid
| ErrPathInvalid
| ErrBudgetExceeded
| ErrInvariantViolation.

(** What a user-defined error type may answer to the probes of [errors.Is]
    and [errors.As]: its own [Is] method, whether it is an [*os.PathError],
    whether it implements [net.Error]. *)
Record methods : Type := {
  is_method : known -> bool;
  as_path_error : bool;
  as_net_error : bool
}.

(** Error values, by what [errors.Is] and [errors.As] can observe of them. *)
#[warnings="-register-all"]
Inductive error : Type :=
| Known (w : known)
| errorString (s : string)                    (* errors.New, fmt.Errorf without %w *)
| wrapError (msg : string) (err : error)      (* fmt.Errorf with one %w *)
| joinError (errs : list error)               (* errors.Join, fmt.Errorf with several %w *)
| PathError (Op Path : string) (Err : error)  (* &fs.PathError{Op, Path, Err} *)
| OpError (Op : string) (Err : error)         (* *net.OpError: a net.Error that unwraps *)
| DNSError (Err : string)                     (* *net.DNSError *)
| upstreamError (status : Z) (msg : string)   (* llmclient upstreamError: Timeout/Temporary *)
| Custom (m : methods) (inner : list error).  (* any other type; Unwrap() []error *)

Definition New (s : string) : error := errorString s.

Definition known_eqb (a b : known) : bool :=
  match a, b with
  | Canceled, Canceled | DeadlineExceeded, DeadlineExceeded
  | ErrRateLimited, ErrRateLimited | ErrResponseInvalid, ErrResponseInvalid
  | ErrInvalidInput, ErrInvalidInput | ErrSeqInvalid, ErrSeqInvalid
  | ErrPathInvalid, ErrPathInvalid | ErrBudgetExceeded, ErrBudgetExceeded
  | ErrInvariantViolation, ErrInvariantViolation => true
  | _, _ => false
  end.

(** [errors.Is err target] for a [target] among the known values: walk the
    tree that [Unwrap] spans, depth first; at each node succeed when the node
    is the target itself or its [Is] method accepts the target. *)
Fixpoint Is (err : error) (target : known) : bool :=
  match err with
  | Known w => known_eqb w target
  | errorString _ => false
  | wrapError _ e => Is e target
  | joinError es => existsb (fun e => Is e target) es
  | PathError _ _ e => Is e target
  | OpError _ e => Is e target
  | DNSError _ => false
  | upstreamError _ _ => false
  | Custom m es => is_method m target || existsb (fun e => Is e target) es
  end.

(** [errors.As(err, &perr)] with [perr *os.PathError]: some node of the tree
    is a [*fs.PathError]. *)
Fixpoint AsPathError (err : error) : bool :=
  match err with
  | Known _ | errorString _ | DNSError _ | upstreamError _ _ => false
  | wrapError _ e => AsPathError e
  | joinError es => existsb AsPathError es
  | PathError _ _ _ => true
  | OpError _ e => AsPathError e
  | Custom m es => as_path_error m || existsb AsPathError es
  end.

(** [errors.As(err, &nerr)] with [nerr net.Error]: some node of the tree has
    the methods [Timeout() bool] and [Temporary() bool].
    [context.DeadlineExceeded] has them. *)
Fixpoint AsNetError (err : error) : bool :=
  match err with
  | Known DeadlineExceeded => true
  | Known _ | errorString _ => false
  | wrapError _ e => AsNetError e
  | joinError es => existsb AsNetError es
  | PathError _ _ e => AsNetError e
  | OpError _ _ | DNSError _ | upstreamError _ _ => true
  | Custom m es => as_net_error m || existsb AsNetError es
  end.

End errors.

(** ** Results of Go calls *)

Inductive result (A : Type) : Type :=
| Ok (a : A)
| Err (e : errors.error)
| Panic.
Arguments Ok {A} a.
Arguments Err {A} e.
Arguments Panic {A}.

#[global] Instance result_ret : MRet result := fun _ a => Ok a.
#[global] Instance result_bind : MBind result := fun _ _ f m =>
  match m with
  | Ok a => f a
  | Err e => Err e
  | Panic => Panic
  end.

(** [l[i]] inside a computation. *)
Definition at_index {A} (l : list A) (i : Z) : result A :=
  match goint.index l i with Some x => Ok x | None => Panic end.

(** ** context.Context *)

Module context.

(** The error seen by the k-th poll of [ctx.Done()] made by a call. *)
Definition Context : Type := nat -> option errors.error.

Definition Background : Context := fun _ => None.

(** A context already cancelled when the call starts. *)
Definition cancelled : Context := fun _ => Some (errors.Known errors.Canceled).

(** A context cancelled between the k-th and the (k+1)-th poll. *)
Definition cancelled_after (k : nat) : Context :=
  fun i => if (i <? k)%nat then None else Some (errors.Known errors.Canceled).

End context.

(** [ctxErr]: the non-blocking poll of both [sliding] and [srt]. *)
Definition ctxErr (ctx : context.Context) (k : nat) : option errors.error := ctx k.

(** ** Package contract: the data model *)

Module contract.

Definition FileID : Type := string.
(** [type Index int64]. *)
Definition Index : Type := Z.

(** [type Meta map[string]string], read by value: [None] is the nil map. *)
Definition Meta : Type := option (gmap string string).

(** [contract.Record] ([Record] is a keyword here). The representation [M]
    of the [Meta] field is a parameter: [Meta] where a map is only read,
    a reference into a store where its identity matters. *)
Module Rec.
Record t (M : Type) : Type := mk {
  Index : contract.Index;
  FileID : contract.FileID;
  Text : string;
  Meta : M
}.
Arguments mk {M}.
Arguments Index {M}.
Arguments FileID {M}.
Arguments Text {M}.
Arguments Meta {M}.
End Rec.

Module Batch.
Record t (M : Type) : Type := mk {
  FileID : contract.FileID;
  BatchIndex : Z;
  Records : list (Rec.t M);
  TargetFrom : contract.Index;
  TargetTo : contract.Index
}.
Arguments mk {M}.
Arguments FileID {M}.
Arguments BatchIndex {M}.
Arguments Records {M}.
Arguments TargetFrom {M}.
Arguments TargetTo {M}.
End Batch.

Module BatchLimit.
Record t : Type := mk { MaxTokens : Z }.
End BatchLimit.

Module Target.
Record t : Type := mk {
  FileID : contract.FileID;
  From : contract.Index;
  To : contract.Index
}.
End Target.

Module SpanCandidate.
Record t (M : Type) : Type := mk {
  From : contract.Index;
  To : contract.Index;
  Output : string;
  Meta : M
}.
Arguments mk {M}.
Arguments From {M}.
Arguments To {M}.
Arguments Output {M}.
Arguments Meta {M}.
End SpanCandidate.

Module SpanResult.
Record t (M : Type) : Type := mk {
  FileID : contract.FileID;
  From : contract.Index;
  To : contract.Index;
  Output : string;
  Meta : M
}.
Arguments mk {M}.
Arguments FileID {M}.
Arguments From {M}.
Arguments To {M}.
Arguments Output {M}.
Arguments Meta {M}.
End SpanResult.

End contract.

(** ** plugins/batcher/sliding *)

Module sliding.
Import goint contract.

Record Options : Type := {
  ContextRadius : Z;
  BytesPerToken : Z;
  ExtraBytesPerRecord : Z
}.

Record Batcher : Type := {
  ctxRadius : Z;
  bytesPerToken : Z;
  extraPerRec : Z
}.

(** [New(opts *Options)]; [None] is the nil pointer. *)
Definition New (opts : option Options) : Batcher :=
  match opts with
  | None => {| ctxRadius := 0; bytesPerToken := 4; extraPerRec := 0 |}
  | Some o =>
      {| ctxRadius := if ContextRadius o >? 0 then ContextRadius o else 0;
         bytesPerToken := if BytesPerToken o >? 0 then BytesPerToken o else 4;
         extraPerRec := if ExtraBytesPerRecord o >? 0 then ExtraBytesPerRecord o else 0 |}
  end.

Definition estimateTokens (b : Batcher) (s : string) : Z :=
  let bytes := len s in
  let bytes := if extraPerRec b >? 0 then add bytes (extraPerRec b) else bytes in
  if bytes =? 0 then 0
  else
    let d := bytesPerToken b in
    let d := if d <=? 0 then 4 else d in
    quot (sub (add bytes d) 1) d.

(** [sum(pref, a, b)]: the cost of records a..b from the prefix sums. *)
Definition sum (pref : list Z) (a b : Z) : result Z :=
  if a >? b then Ok 0
  else
    let a := if a <? 0 then 0 else a in
    let b := if add b 1 >=? llen pref then sub (llen pref) 2 else b in
    x ← at_index pref (add b 1);
    y ← at_index pref a;
    Ok (sub x y).

Section Make.
Context {M : Type}.
Variable b : Batcher.
Variable ctx : context.Context.

(** The validation loop [for i := 1; i < n; i++]: [prev] is
    [records[i-1].Index], [rs] is [records[i:]], [k] counts the polls of
    [ctx] so far. Returns the poll count. *)
Fixpoint validate (fid : FileID) (prev : Index) (rs : list (Rec.t M)) (k : nat)
  : result nat :=
  match rs with
  | [] => Ok k
  | r :: rs' =>
      match ctxErr ctx k with
      | Some e => Err e
      | None =>
          if negb (String.eqb (Rec.FileID r) fid)
          then Err (errors.New "batcher: records must have the same FileID")
          else if negb (Rec.Index r =? add prev 1)
          then Err (errors.New
                 "batcher: record Index must be contiguous and strictly increasing")
          else validate fid (Rec.Index r) rs' (S k)
      end
  end.

(** The prefix-sum loop: [last] is [pref[i]], the result lists
    [pref[i+1], pref[i+2], ...]. *)
Fixpoint prefixes (rs : list (Rec.t M)) (last : Z) (k : nat)
  : result (list Z * nat) :=
  match rs with
  | [] => Ok ([], k)
  | r :: rs' =>
      match ctxErr ctx k with
      | Some e => Err e
      | None =>
          let t := estimateTokens b (Rec.Text r) in
          let next := add last t in
          '(p, k') ← prefixes rs' next (S k);
          Ok (next :: p, k')
      end
  end.

Variable pref : list Z.
Variable n : Z.
Variable budget : Z.

(** The expansion loop [for r <= n] of one batch with left end [l];
    [todo] bounds the iterations left ([n + 1 - r] suffice, as [r] grows by
    one each round). Returns [bestR] and the poll count. *)
Fixpoint expand (todo : nat) (l L1 L2 r bestR : Z) (k : nat) : result (Z * nat) :=
  match todo with
  | O => Ok (bestR, k)
  | S todo' =>
      if r <=? n then
        match ctxErr ctx k with
        | Some e => Err e
        | None =>
            let R1 := r in
            let R2 := sub (add r (ctxRadius b)) 1 in
            let R2 := if R2 >=? n then sub n 1 else R2 in
            s1 ← sum pref L1 L2;
            s2 ← sum pref l (sub r 1);
            s3 ← sum pref R1 R2;
            let need := add (add s1 s2) s3 in
            if need <=? budget
            then expand todo' l L1 L2 (add r 1) (if r >? l then r else bestR) (S k)
            else Ok (bestR, S k)
        end
      else Ok (bestR, k)
  end.

Variable records : list (Rec.t M).
Variable fid : FileID.

(** The batch loop [for l < n]; [fuel] bounds the batches still to emit
    ([n - l] suffice, as every batch takes at least one target). [batches]
    is the slice built so far. *)
Fixpoint batchLoop (fuel : nat) (l batchIdx : Z) (batches : list (Batch.t M)) (k : nat)
  : result (list (Batch.t M)) :=
  match fuel with
  | O => Ok batches
  | S fuel' =>
      if l <? n then
        match ctxErr ctx k with
        | Some e => Err e
        | None =>
            let L1 := sub l (ctxRadius b) in
            let L1 := if L1 <? 0 then 0 else L1 in
            let L2 := sub l 1 in
            '(bestR, k') ← expand (Z.to_nat (n - l) + 2) l L1 L2 l l (S k);
            if bestR =? l
            then Err (errors.New
                   "batcher: single target with contexts does not fit; decrease C or split")
            else
              let R2 := sub (add bestR (ctxRadius b)) 1 in
              let R2 := if R2 >=? n then sub n 1 else R2 in
              recSlice ← (match slice records L1 (add R2 1) with
                          | Some s => Ok s | None => Panic end);
              first ← at_index records l;
              last ← at_index records (sub bestR 1);
              let batch := Batch.mk fid batchIdx recSlice (Rec.Index first) (Rec.Index last) in
              batchLoop fuel' bestR (add batchIdx 1) (batches ++ [batch]) k'
        end
      else Ok batches
  end.

End Make.

(** [Batcher.Make]. A nil slice is the empty list. *)
Definition Make {M} (b : Batcher) (ctx : context.Context)
    (records : list (Rec.t M)) (limit : BatchLimit.t) : result (list (Batch.t M)) :=
  if BatchLimit.MaxTokens limit <=? 0
  then Err (errors.New "batcher: max tokens must be > 0")
  else
    let n := llen records in
    match records with
    | [] => Ok []
    | r0 :: rest =>
        let fid := Rec.FileID r0 in
        if negb (Rec.Index r0 =? 0)
        then Err (errors.errorString
               ("batcher: first index must be 0, got " +:+ pretty (Rec.Index r0)))
        else
          k ← validate ctx fid (Rec.Index r0) rest 0%nat;
          '(p, k) ← prefixes b ctx records 0 k;
          let pref := 0 :: p in
          let budget := BatchLimit.MaxTokens limit in
          if budget <=? 0
          then Err (errors.New "batcher: effective token budget must be > 0")
          else batchLoop b ctx pref n budget records fid
                 (length records) 0 0 [] k
    end.

End sliding.

(** ** internal/diag: error classification *)

Module diag.
Import errors.

Inductive Code : Type :=
| CodeUnknown
| CodeNetwork
| CodeProtocol
| CodeInvariant
| CodeBudget
| CodeCancel
| CodeIO.

(** [Classify(err error) Code]; [None] is the nil error. *)
Definition Classify (err : option error) : Code :=
  match err with
  | None => CodeUnknown
  | Some err =>
      if Is err Canceled || Is err DeadlineExceeded then CodeCancel
      else if Is err ErrBudgetExceeded || Is err ErrRateLimited then CodeBudget
      else if Is err ErrResponseInvalid then CodeProtocol
      else if Is err ErrInvariantViolation || Is err ErrInvalidInput
              || Is err ErrSeqInvalid || Is err ErrPathInvalid then CodeInvariant
      else if AsPathError err then CodeIO
      else if AsNetError err then CodeNetwork
      else CodeUnknown
  end.

End diag.

(** ** pkg/contract: the response validators

    [Meta] is a Go map, a reference: to speak of deep copies the validators
    run against a store of allocated maps, and a [Meta] field holds [None]
    (nil) or the address of a map in the store. *)

Module validate.
Import goint contract.

(** Addresses; the allocated maps, by address (allocation appends); a
    [Meta] field. *)
Abbreviation loc := nat (only parsing).
Abbreviation store := (list (gmap string string)) (only parsing).
Abbreviation MetaRef := (option nat) (only parsing).

(** [cloneString]: copy the bytes into a fresh buffer and convert back. *)
Definition cloneString (s : string) : string :=
  if String.eqb s "" then ""
  else
    let b := list_ascii_of_string s in
    string_of_list_ascii b.

(** [cloneMeta]: nil stays nil; otherwise [make] a new map and insert a
    copy of every key and value ([map_fold] is the [range] loop). A dangling
    address, which no Go value can hold, reads as the empty map. *)
Definition cloneMeta (m : MetaRef) (h : store) : MetaRef * store :=
  match m with
  | None => (None, h)
  | Some l =>
      let src := default ∅ (h !! l) in
      let out :=
        map_fold (fun k v (out : gmap string string) =>
                    <[cloneString k := cloneString v]> out) ∅ src in
      (Some (length h), h ++ [out])
  end.

(** The loop of [ValidatePerRecord] over [cands[i:]]. *)
Fixpoint perRecordLoop (fid : FileID) (cands : list (SpanCandidate.t MetaRef))
    (expect : Index) (spans : list (SpanResult.t MetaRef)) (h : store)
  : result (list (SpanResult.t MetaRef) * Index) * store :=
  match cands with
  | [] => (Ok (spans, expect), h)
  | c :: cands' =>
      if SpanCandidate.From c >? SpanCandidate.To c
      then (Err (errors.Known errors.ErrResponseInvalid), h)
      else if negb (SpanCandidate.From c =? SpanCandidate.To c)
      then (Err (errors.Known errors.ErrResponseInvalid), h)
      else if negb (SpanCandidate.From c =? expect)
      then (Err (errors.Known errors.ErrResponseInvalid), h)
      else
        let output := cloneString (SpanCandidate.Output c) in
        let '(meta, h') := cloneMeta (SpanCandidate.Meta c) h in
        let span := SpanResult.mk fid (SpanCandidate.From c) (SpanCandidate.To c)
                      output meta in
        perRecordLoop fid cands' (add expect 1) (spans ++ [span]) h'
  end.

Definition ValidatePerRecord (tgt : Target.t) (cands : list (SpanCandidate.t MetaRef))
    (h : store) : result (list (SpanResult.t MetaRef)) * store :=
  if Target.From tgt >? Target.To tgt
  then (Err (errors.Known errors.ErrInvalidInput), h)
  else
    let need := add (sub (Target.To tgt) (Target.From tgt)) 1 in
    if negb (llen cands =? need)
    then (Err (errors.Known errors.ErrResponseInvalid), h)
    else
      match perRecordLoop (Target.FileID tgt) cands (Target.From tgt) [] h with
      | (Ok (spans, expect), h') =>
          if negb (expect =? add (Target.To tgt) 1)
          then (Err (errors.Known errors.ErrResponseInvalid), h')
          else (Ok spans, h')
      | (Err e, h') => (Err e, h')
      | (Panic, h') => (Panic, h')
      end.

Definition ValidateWhole (tgt : Target.t) (cands : list (SpanCandidate.t MetaRef))
    (h : store) : result (list (SpanResult.t MetaRef)) * store :=
  if Target.From tgt >? Target.To tgt
  then (Err (errors.Known errors.ErrInvalidInput), h)
  else
    match cands with
    | [c] =>
        if negb (SpanCandidate.From c =? Target.From tgt)
           || negb (SpanCandidate.To c =? Target.To tgt)
        then (Err (errors.Known errors.ErrResponseInvalid), h)
        else
          let output := cloneString (SpanCandidate.Output c) in
          let '(meta, h') := cloneMeta (SpanCandidate.Meta c) h in
          (Ok [SpanResult.mk (Target.FileID tgt) (SpanCandidate.From c)
                 (SpanCandidate.To c) output meta], h')
    | _ => (Err (errors.Known errors.ErrResponseInvalid), h)
    end.

End validate.

(** ** plugins/splitter/srt: the extension filter of the SRT splitter *)

Module srt.
Import contract.

(** [path.Ext]: scan from the last byte down to the last slash and return
    the suffix that starts at the first dot met; [c] is [path[i]], [acc] is
    [path[i+1:]]. *)
Fixpoint ext_scan (rev_prefix : list ascii) (acc : list ascii) : string :=
  match rev_prefix with
  | [] => ""
  | c :: more =>
      if Ascii.eqb c "/" then ""
      else if Ascii.eqb c "." then string_of_list_ascii (c :: acc)
      else ext_scan more (c :: acc)
  end.

Definition Ext (path : string) : string :=
  ext_scan (rev (list_ascii_of_string path)) [].

Record Options : Type := {
  MaxFragmentBytes : Z;
  (** [None] is the nil slice, [Some []] an explicitly empty one. *)
  AllowExts : option (list string)
}.

Record Splitter : Type := {
  maxBytes : Z;
  (** The allowed extensions, lower-cased; [None] is the nil map: no
      restriction. *)
  allow : option (gset string)
}.

Section Split.
(** [strings.ToLower], from the Go library. *)
Variable ToLower : string -> string.
(** The input stream, and the block parser that [Split] runs on it once the
    file has passed the filter (the rest of [Split]'s body): it returns the
    records or an error, and the stream as it leaves it. *)
Variable Reader : Type.
Variable parseBlocks :
  Splitter -> context.Context -> FileID -> Reader ->
  result (list (Rec.t Meta)) * Reader.

Definition New (opts : option Options) : Splitter :=
  let mb :=
    match opts with
    | Some o => if MaxFragmentBytes o >? 0 then MaxFragmentBytes o else 0
    | None => 0
    end in
  let allow :=
    match opts with
    | None => Some {[ ".srt" ]}
    | Some o =>
        match AllowExts o with
        | None => Some {[ ".srt" ]}
        | Some exts =>
            if (0 <? length exts)%nat
            then Some (foldl (fun (allow : gset string) e =>
                                if String.eqb e "" then allow
                                else {[ ToLower e ]} ∪ allow) ∅ exts)
            else None
        end
    end in
  {| maxBytes := mb; allow := allow |}.

Definition Split (s : Splitter) (ctx : context.Context) (fileID : FileID) (r : Reader)
  : result (list (Rec.t Meta)) * Reader :=
  match allow s with
  | Some allowed =>
      let ext := ToLower (Ext fileID) in
      if decide (ext ∈ allowed) then parseBlocks s ctx fileID r
      else (Ok [], r)
  | None => parseBlocks s ctx fileID r
  end.

End Split.

End srt.

(** ** internal/pipeline: the dispatcher

    The collaborators (prompt builder, gate, LLM client, decoder, assembler,
    JSON encoder over the sidecar pipe, primary pipe) are interfaces whose
    implementations may keep state and observe the context: each is taken
    as an oracle giving the outcome of every call, indexed by the attempt
    (worker) or by the number of pipe operations so far (commit gate). *)

Module pipeline.
Import goint contract.

Abbreviation Span := (SpanResult.t Meta).
Abbreviation Record_ := (Rec.t Meta).
Abbreviation Batch_ := (Batch.t Meta).

Record Settings : Type := {
  Concurrency : Z;
  MaxTokens : Z;
  BytesPerToken : Z;
  MaxRetries : Z
}.

(** [contract.Prompt] is [any]; the dispatcher tells three kinds apart. *)
Record Message : Type := { Role : string; Content : string }.
Inductive Prompt : Type :=
| TextPrompt (s : string)
| ChatPrompt (ms : list Message)
| OtherPrompt.

Record Raw : Type := { Text : string }.

(** [rate.Ask]. *)
Record Ask : Type := { Requests : Z; Tokens : Z }.

(** [approxPromptTokens]. *)
Definition approxPromptTokens (p : Prompt) (bpt : Z) : Z :=
  let bpt := if bpt <=? 0 then 4 else bpt in
  let estimate total :=
    if total <=? 0 then 0 else quot (sub (add total bpt) 1) bpt in
  match p with
  | TextPrompt v => estimate (len v)
  | ChatPrompt v =>
      estimate (foldl (fun total m =>
                         if String.eqb (Content m) "" then total
                         else add total (len (Content m))) 0 v)
  | OtherPrompt => 0
  end.

Definition shouldRetryInvoke (err : option errors.error) : bool :=
  match err with
  | None => false
  | Some _ =>
      match diag.Classify err with
      | diag.CodeCancel => false
      | diag.CodeBudget | diag.CodeNetwork => true
      | _ => false
      end
  end.

Definition shouldRetryDecode (err : option errors.error) : bool :=
  match err with
  | None => false
  | Some _ =>
      match diag.Classify err with
      | diag.CodeProtocol => true
      | _ => false
      end
  end.

(** [sleepWithCtx(ctx, d)]: [fired] is what [ctx.Done()] delivers before the
    timer does, [Some (ctx.Err())] when the context is cancelled first. *)
Definition sleepWithCtx (fired : option errors.error) (d : Z) : option errors.error :=
  if d <=? 0 then None
  else match fired with
       | Some e => Some e
       | None => None
       end.

(** The result a worker sends on [outCh]. *)
Record res : Type := { idx : Z; spans : list Span; err : option errors.error }.

(** The Index -> Meta view handed to a [DecoderWithMeta]: a copy of each
    record's Meta with the source text under ["_src_text"]. *)
Definition idxMetaOf (records : list Record_) : gmap Z (gmap string string) :=
  foldl (fun (idxMeta : gmap Z (gmap string string)) r =>
           let mm := default ∅ (Rec.Meta r) in
           let mm := <[ "_src_text"%string := Rec.Text r ]> mm in
           <[ Rec.Index r := mm ]> idxMeta) ∅ records.

(** *** One job of a worker *)

(** The decoder: plain, or implementing [DecoderWithMeta]. The first
    argument of each oracle is the attempt. *)
Inductive Decoder : Type :=
| Plain (decode : Z -> Target.t -> Raw -> errors.error + list Span)
| WithMeta (decode : Z -> Target.t -> Raw -> gmap Z (gmap string string) ->
            errors.error + list Span).

Record Env : Type := {
  Build : Batch_ -> errors.error + Prompt;
  (** [set.Gate]: [None] when no gate is configured. *)
  GateWait : option (Z -> Ask -> option errors.error);
  Invoke : Z -> Batch_ -> Prompt -> errors.error + Raw;
  Decode : Decoder;
  (** What [ctx.Done()] delivers during the sleep after the attempt. *)
  DoneDuringSleep : Z -> option errors.error
}.

(** What a worker does, in order. *)
Inductive event : Type :=
| EvBuild
| EvWait (attempt : Z) (a : Ask)
| EvInvoke (attempt : Z)
| EvDecode (attempt : Z)
| EvSleep (attempt : Z) (ms : Z) (result : option errors.error).

Section worker.
Variable set : Settings.
Variable env : Env.
Variable b : Batch_.
Variable p : Prompt.
Variable tokens : Z.

Definition tgt : Target.t :=
  Target.mk (Batch.FileID b) (Batch.TargetFrom b) (Batch.TargetTo b).

Definition failed (lastErr : option errors.error) : res :=
  {| idx := Batch.BatchIndex b; spans := []; err := lastErr |}.

(** The retry loop [for attempt := 0; attempt < attempts; attempt++];
    [left] bounds the rounds left ([attempts - attempt] of them). The
    result is what the worker sends on [outCh]. *)
Fixpoint attemptLoop (left : nat) (attempt attempts : Z)
    (lastErr : option errors.error) (tr : list event) : res * list event :=
  match left with
  | O => (failed lastErr, tr)
  | S left' =>
      if attempt <? attempts then
        let waited :=
          match GateWait env with
          | Some wait =>
              let a := {| Requests := 1; Tokens := tokens |} in
              (wait attempt a, tr ++ [EvWait attempt a])
          | None => (None, tr)
          end in
        match waited with
        | (Some e, tr) => (failed (Some e), tr)
        | (None, tr) =>
            let tr := tr ++ [EvInvoke attempt] in
            match Invoke env attempt b p with
            | inl e =>
                if (add attempt 1 <? attempts) && shouldRetryInvoke (Some e) then
                  let slept := sleepWithCtx (DoneDuringSleep env attempt) 200 in
                  attemptLoop left' (add attempt 1) attempts (Some e)
                    (tr ++ [EvSleep attempt 200 slept])
                else (failed (Some e), tr)
            | inr raw =>
                let tr := tr ++ [EvDecode attempt] in
                let decoded :=
                  match Decode env with
                  | WithMeta dm => dm attempt tgt raw (idxMetaOf (Batch.Records b))
                  | Plain d => d attempt tgt raw
                  end in
                match decoded with
                | inl e =>
                    if (add attempt 1 <? attempts) && shouldRetryDecode (Some e) then
                      let slept := sleepWithCtx (DoneDuringSleep env attempt) 200 in
                      attemptLoop left' (add attempt 1) attempts (Some e)
                        (tr ++ [EvSleep attempt 200 slept])
                    else (failed (Some e), tr)
                | inr sp =>
                    ({| idx := Batch.BatchIndex b; spans := sp; err := None |}, tr)
                end
            end
        end
      else (failed lastErr, tr)
  end.

End worker.

(** The body of the worker's [for j := range inCh] for one job. *)
Definition workerJob (set : Settings) (env : Env) (b : Batch_) : res * list event :=
  match Build env b with
  | inl e => ({| idx := Batch.BatchIndex b; spans := []; err := Some e |}, [EvBuild])
  | inr p =>
      let tokens :=
        if MaxTokens set >? 0 then
          let bpt := BytesPerToken set in
          let bpt := if bpt <=? 0 then 4 else bpt in
          approxPromptTokens p bpt
        else 0 in
      let attempts := add (MaxRetries set) 1 in
      attemptLoop env b p tokens (Z.to_nat attempts) 0 attempts None [EvBuild]
  end.

(** *** The commit gate *)

(** One line of the JSONL sidecar, before serialization. *)
Record Row : Type := {
  row_FileID : string;
  row_From : Z;
  row_To : Z;
  row_Src : string;
  row_Dst : string;
  row_Meta : Meta
}.

(** What reaches the two pipes, and the assembler, in order of time. *)
Inductive output : Type :=
| SidecarLine (batch : Z) (row : Row)        (* enc.Encode(&row) *)
| Assembled (batch : Z) (spans : list Span)  (* comp.Assembler.Assemble *)
| PrimaryBytes (batch : Z) (bytes : string). (* io.Copy(pw, rd) *)

Record Pipes : Type := {
  (** The error of the t-th pipe operation when it is an [Encode]. *)
  EncodeErr : nat -> option errors.error;
  (** The t-th pipe operation when it is an [Assemble]: its error, or the
      bytes its reader yields. *)
  Assemble : nat -> FileID -> list Span -> errors.error + string;
  (** The t-th pipe operation when it is the [io.Copy] of these bytes: the
      bytes that got through, and its error. *)
  Copy : nat -> string -> string * option errors.error
}.

Record gate : Type := {
  expect : Z;
  buf : gmap Z (list Span);
  firstErr : option errors.error;
  (** [cancel()] has been called. *)
  cancelled : bool;
  doneCount : Z;
  errCount : Z;
  out : list output;
  (** Pipe operations so far. *)
  ticks : nat
}.

Definition gate0 : gate :=
  {| expect := 0; buf := ∅; firstErr := None; cancelled := false;
     doneCount := 0; errCount := 0; out := []; ticks := 0 |}.

(** A pipe operation that went through, and one that did not. *)
Definition emit (o : output) (g : gate) : gate :=
  {| expect := expect g; buf := buf g; firstErr := firstErr g;
     cancelled := cancelled g; doneCount := doneCount g; errCount := errCount g;
     out := out g ++ [o]; ticks := S (ticks g) |}.
Definition tick (g : gate) : gate :=
  {| expect := expect g; buf := buf g; firstErr := firstErr g;
     cancelled := cancelled g; doneCount := doneCount g; errCount := errCount g;
     out := out g; ticks := S (ticks g) |}.

(** [firstErr = e; cancel()]. *)
Definition fail (e : errors.error) (g : gate) : gate :=
  {| expect := expect g; buf := buf g; firstErr := Some e; cancelled := true;
     doneCount := doneCount g; errCount := errCount g; out := out g;
     ticks := ticks g |}.

(** [buf[i] = spans]. *)
Definition store (i : Z) (sps : list Span) (g : gate) : gate :=
  {| expect := expect g; buf := <[ i := sps ]> (buf g); firstErr := firstErr g;
     cancelled := cancelled g; doneCount := doneCount g; errCount := errCount g;
     out := out g; ticks := ticks g |}.

(** [delete(buf, expect); expect++]. *)
Definition advance (g : gate) : gate :=
  {| expect := add (expect g) 1; buf := delete (expect g) (buf g);
     firstErr := firstErr g; cancelled := cancelled g; doneCount := doneCount g;
     errCount := errCount g; out := out g; ticks := ticks g |}.

(** [doneCount++; if r.err != nil { errCount++ }]. *)
Definition count (failed : bool) (g : gate) : gate :=
  {| expect := expect g; buf := buf g; firstErr := firstErr g;
     cancelled := cancelled g; doneCount := add (doneCount g) 1;
     errCount := if failed then add (errCount g) 1 else errCount g;
     out := out g; ticks := ticks g |}.

Section commit.
(** [strings.TrimSpace], from the Go library. *)
Variable TrimSpace : string -> string.
Variable pipes : Pipes.
Variable fileID : FileID.
Variable batches : list Batch_.

(** [for pos < len(recs) && recs[pos].Index < from { pos++ }], as the
    number of records skipped from [recs[pos:]]. *)
Fixpoint skipBelow (from : Z) (rs : list Record_) : nat :=
  match rs with
  | r :: rs' => if Rec.Index r <? from then S (skipBelow from rs') else O
  | [] => O
  end.

(** The texts of [recs[j:]] while [recs[j].Index <= to]. *)
Fixpoint textsUpTo (to : Z) (rs : list Record_) : list string :=
  match rs with
  | r :: rs' => if Rec.Index r <=? to then Rec.Text r :: textsUpTo to rs' else []
  | [] => []
  end.

(** [sb]: the texts joined with a newline byte. *)
Fixpoint joinLines (ts : list string) : string :=
  match ts with
  | [] => ""
  | [t] => t
  | t :: ts' => t +:+ String "010" (joinLines ts')
  end.

Definition rowOf (recs : list Record_) (pos : nat) (sp : Span) : Row :=
  let src := joinLines (textsUpTo (SpanResult.To sp) (drop pos recs)) in
  let dst :=
    match SpanResult.Meta sp with
    | Some m =>
        let v := default ""%string (m !! "dst_text"%string) in
        if negb (String.eqb (TrimSpace v) "") then v else SpanResult.Output sp
    | None => SpanResult.Output sp
    end in
  {| row_FileID := fileID; row_From := SpanResult.From sp; row_To := SpanResult.To sp;
     row_Src := src; row_Dst := dst; row_Meta := SpanResult.Meta sp |}.

(** The sidecar loop [for _, sp := range spans] of one flush. *)
Fixpoint sidecar (recs : list Record_) (pos : nat) (sps : list Span) (g : gate) : gate :=
  match sps with
  | [] => g
  | sp :: sps' =>
      let pos := (pos + skipBelow (SpanResult.From sp) (drop pos recs))%nat in
      let row := rowOf recs pos sp in
      match EncodeErr pipes (ticks g), firstErr g with
      | Some e, None => fail e (tick g)
      | Some _, Some _ => sidecar recs pos sps' (tick g)
      | None, _ => sidecar recs pos sps' (emit (SidecarLine (expect g) row) g)
      end
  end.

(** The flush loop [for { spans, ok := buf[expect]; if !ok { break } ... }];
    [fuel] bounds the rounds ([size buf + 1] suffice: a round that does not
    break deletes an entry). [None] is the panic of [batches[expect]]. *)
Fixpoint flush (fuel : nat) (g : gate) : option gate :=
  match fuel with
  | O => Some g
  | S fuel' =>
      match buf g !! expect g with
      | None => Some g
      | Some sps =>
          match index batches (expect g) with
          | None => None
          | Some batch =>
              let recs := Batch.Records batch in
              let pos :=
                match sps with
                | sp0 :: _ => skipBelow (SpanResult.From sp0) recs
                | [] => O
                end in
              let g := sidecar recs pos sps g in
              match Assemble pipes (ticks g) fileID sps with
              | inl aerr => Some (fail aerr (emit (Assembled (expect g) sps) g))
              | inr bytes =>
                  let g := emit (Assembled (expect g) sps) g in
                  let '(written, cerr) := Copy pipes (ticks g) bytes in
                  let g := emit (PrimaryBytes (expect g) written) g in
                  match cerr, firstErr g with
                  | Some e, None => Some (fail e g)
                  | _, _ => flush fuel' (advance g)
                  end
              end
          end
      end
  end.

(** The body of [for r := range outCh] for one result. *)
Definition receive (r : res) (g : gate) : option gate :=
  match err r with
  | Some e =>
      let g := count true g in
      Some (match firstErr g with
            | None => fail e g
            | Some _ => g
            end)
  | None =>
      let g := store (idx r) (spans r) (count false g) in
      flush (S (size (buf g))) g
  end.

(** The commit gate over the results in their order of arrival. *)
Fixpoint drain (rs : list res) (g : gate) : option gate :=
  match rs with
  | [] => Some g
  | r :: rs' =>
      match receive r g with
      | Some g' => drain rs' g'
      | None => None
      end
  end.

(** *** The goroutines of one file

    The producer, the job channel, the workers, the result channel and the
    commit gate, as a transition system: an action is one communication of
    one goroutine. *)

Record sys : Type := {
  (** The batches the producer has not sent yet. *)
  todo : list Batch_;
  (** The producer has returned: [close(inCh)]. *)
  closed : bool;
  inCh : list Batch_;
  (** Each worker: idle, or busy with a job. *)
  workers : list (option Batch_);
  outCh : list res;
  latch : gate
}.

Inductive action : Type :=
| Produce                        (* producer: inCh <- job{b} *)
| Close                          (* producer returns (all sent, or ctx done) *)
| Take (w : nat)                 (* worker w: j := <-inCh *)
| Finish (w : nat) (env : Env)   (* worker w ends its job and sends: outCh <- res *)
| Receive.                       (* commit gate: r := <-outCh, and its loop body *)

Variable set : Settings.

(** [make(chan job, set.Concurrency*2)]: the channels are modelled as
    buffered ones, which they are when [Concurrency >= 1]. *)
Definition capacity : Z := mul (Concurrency set) 2.

Definition nWorkers : Z := if Concurrency set <? 1 then 1 else Concurrency set.

Definition start : sys :=
  {| todo := batches; closed := false; inCh := [];
     workers := replicate (Z.to_nat nWorkers) None; outCh := []; latch := gate0 |}.

(** One action; [None] when the action is not enabled (a send on a full
    channel, a receive on an empty one, ...) or the gate panics. *)
Definition step (a : action) (s : sys) : option sys :=
  match a with
  | Produce =>
      match todo s with
      | b :: rest =>
          if negb (closed s) && (llen (inCh s) <? capacity)
          then Some {| todo := rest; closed := closed s; inCh := inCh s ++ [b];
                       workers := workers s; outCh := outCh s; latch := latch s |}
          else None
      | [] => None
      end
  | Close =>
      if closed s then None
      else Some {| todo := todo s; closed := true; inCh := inCh s;
                   workers := workers s; outCh := outCh s; latch := latch s |}
  | Take w =>
      match workers s !! w, inCh s with
      | Some None, b :: rest =>
          Some {| todo := todo s; closed := closed s; inCh := rest;
                  workers := <[ w := Some b ]> (workers s); outCh := outCh s;
                  latch := latch s |}
      | _, _ => None
      end
  | Finish w env =>
      match workers s !! w with
      | Some (Some b) =>
          if llen (outCh s) <? capacity
          then Some {| todo := todo s; closed := closed s; inCh := inCh s;
                       workers := <[ w := None ]> (workers s);
                       outCh := outCh s ++ [fst (workerJob set env b)];
                       latch := latch s |}
          else None
      | _ => None
      end
  | Receive =>
      match outCh s with
      | r :: rest =>
          match receive r (latch s) with
          | Some g' =>
              Some {| todo := todo s; closed := closed s; inCh := inCh s;
                      workers := workers s; outCh := rest; latch := g' |}
          | None => None
          end
      | [] => None
      end
  end.

(** A schedule: the actions in the order they happen. *)
Fixpoint run (acts : list action) (s : sys) : option sys :=
  match acts with
  | [] => Some s
  | a :: acts' =>
      match step a s with
      | Some s' => run acts' s'
      | None => None
      end
  end.

End commit.

End pipeline.
(** ** internal/rate: the token-bucket gate

    Instants and durations are integers, in nanoseconds ([time.Duration] is
    an int64). The clock [clk] of the gate is the environment's: [clk k] is
    what the k-th call of [g.clk()] returns. The gate computes levels in
    float64: the definitions are written over the float64 operations they
    use, and [binary64] gives these their IEEE 754 meaning, which is Go's. *)

Module rate.
Import goint.

Class Float64 (F : Type) : Type := {
  ofInt : Z -> F;         (* float64(n) *)
  fadd : F -> F -> F;
  fsub : F -> F -> F;
  fmul : F -> F -> F;
  fdiv : F -> F -> F;
  fle : F -> F -> bool;   (* x <= y *)
  flt : F -> F -> bool    (* x < y *)
}.

(** [float64(n)] for an int64 [n], rounded to nearest. *)
Definition float_of_int (z : Z) : PrimFloat.float :=
  if z =? min_int then
    PrimFloat.opp (PrimFloat.mul (PrimFloat.of_uint63 (Uint63.of_Z (2 ^ 62)))
                                 (PrimFloat.of_uint63 (Uint63.of_Z 2)))
  else if z <? 0 then PrimFloat.opp (PrimFloat.of_uint63 (Uint63.of_Z (- z)))
  else PrimFloat.of_uint63 (Uint63.of_Z z).

#[global] Instance binary64 : Float64 PrimFloat.float := {
  ofInt := float_of_int;
  fadd := PrimFloat.add;
  fsub := PrimFloat.sub;
  fmul := PrimFloat.mul;
  fdiv := PrimFloat.div;
  fle := PrimFloat.leb;
  flt := PrimFloat.ltb
}.

(** [time.Second], [t.Sub(u)] (which saturates) and [d.Seconds()]. *)
Definition Second : Z := 1000000000.

Definition Sub (t u : Z) : Z := Z.max min_int (Z.min max_int (t - u)).

Definition Seconds {F} `{Float64 F} (d : Z) : F :=
  fadd (ofInt (Z.quot d Second)) (fdiv (ofInt (Z.rem d Second)) (ofInt 1000000000)).

Definition LimitKey : Type := string.

Record Limits : Type := {
  RPM : Z;
  TPM : Z;
  MaxTokensPerReq : Z
}.

Record Ask : Type := {
  Key : LimitKey;
  Requests : Z;
  Tokens : Z
}.

Record bucket (F : Type) : Type := {
  cap : Z;
  level : F;
  rate : F;
  last : Z
}.
Arguments Build_bucket {F}.
Arguments cap {F}.
Arguments level {F}.
Arguments rate {F}.
Arguments last {F}.

Record entry (F : Type) : Type := {
  lim : Limits;
  req : bucket F;
  tok : bucket F
}.
Arguments Build_entry {F}.
Arguments lim {F}.
Arguments req {F}.
Arguments tok {F}.

(** [gate]: the entries, and how many times the clock has been read. *)
Record gate (F : Type) : Type := {
  m : gmap LimitKey (entry F);
  reads : nat
}.
Arguments Build_gate {F}.
Arguments m {F}.
Arguments reads {F}.

Section gate.
Context {F : Type} `{Float64 F}.

(** [bucket{}]. *)
Definition noBucket : bucket F :=
  {| cap := 0; level := ofInt 0; rate := ofInt 0; last := 0 |}.

Definition newBucket (capacity : Z) (now : Z) : bucket F :=
  if capacity <=? 0 then noBucket
  else {| cap := capacity; level := ofInt capacity;
          rate := fdiv (ofInt capacity) (ofInt 60); last := now |}.

Definition newEntry (lim : Limits) (now : Z) : entry F :=
  {| lim := lim;
     req := if RPM lim >? 0 then newBucket (RPM lim) now else noBucket;
     tok := if TPM lim >? 0 then newBucket (TPM lim) now else noBucket |}.

Definition enabled (b : bucket F) : bool := cap b >? 0.

Definition refill (b : bucket F) (now : Z) : bucket F :=
  if negb (enabled b) then b
  else if now <? last b then b
  else
    let dt : F := Seconds (Sub now (last b)) in
    if fle dt (ofInt 0) then b
    else
      let level := fadd (level b) (fmul dt (rate b)) in
      let level := if flt (ofInt (cap b)) level then ofInt (cap b) else level in
      {| cap := cap b; level := level; rate := rate b; last := now |}.

Definition canTake (b : bucket F) (n : Z) : bool :=
  if negb (enabled b) then true
  else if n <=? 0 then true
  else fle (ofInt n) (level b).

Definition take (b : bucket F) (n : Z) : bucket F :=
  if negb (enabled b) || (n <=? 0) then b
  else
    let level := fsub (level b) (ofInt n) in
    let level := if flt level (ofInt 0) then ofInt 0 else level in
    {| cap := cap b; level := level; rate := rate b; last := last b |}.

Definition waitSecFor (b : bucket F) (n : Z) : F :=
  if negb (enabled b) || (n <=? 0) then ofInt 0
  else
    let deficit := fsub (ofInt n) (level b) in
    if fle deficit (ofInt 0) then ofInt 0
    else fdiv deficit (rate b).

(** What [Try] and each round of [Wait] do under [e.mu]: refill both
    buckets, and take from both when both can give. *)
Definition attempt (e : entry F) (now : Z) (a : Ask) : entry F * bool :=
  let req := refill (req e) now in
  let tok := refill (tok e) now in
  if canTake req (Requests a) && canTake tok (Tokens a)
  then ({| lim := lim e; req := take req (Requests a); tok := take tok (Tokens a) |}, true)
  else ({| lim := lim e; req := req; tok := tok |}, false).

Variable clk : nat -> Z.

Definition NewGate (cfg : gmap LimitKey Limits) : gate F :=
  let now := clk 0 in
  {| m := (fun lim => newEntry lim now) <$> cfg; reads := 1 |}.

Definition get (g : gate F) (key : LimitKey) : entry F * gate F :=
  match m g !! key with
  | Some e => (e, g)
  | None =>
      let e := newEntry {| RPM := 0; TPM := 0; MaxTokensPerReq := 0 |} (clk (reads g)) in
      (e, {| m := <[ key := e ]> (m g); reads := S (reads g) |})
  end.

Definition Try (g : gate F) (a : Ask) : bool * gate F :=
  if (Requests a <=? 0) || (Tokens a <? 0) then (false, g)
  else
    let '(e, g) := get g (Key a) in
    if (MaxTokensPerReq (lim e) >? 0) && (Tokens a >? MaxTokensPerReq (lim e))
    then (false, g)
    else
      let now := clk (reads g) in
      let '(e, ok) := attempt e now a in
      (ok, {| m := <[ Key a := e ]> (m g); reads := S (reads g) |}).

Section Wait.
(** The context of one call: [ctx k] is what the poll at the top of round
    [k] sees, [asleep k w] the context's error when it is cancelled during
    the sleep that ends round [k], whose length is computed from the
    seconds [w] to wait (at least 10 ms). *)
Variable ctx : context.Context.
Variable asleep : nat -> F -> option errors.error.

(** The loop of [Wait]; [None] when it is still waiting after [fuel]
    rounds (it waits for ever for more than a bucket can hold). *)
Fixpoint waitLoop (fuel : nat) (round : nat) (a : Ask) (e : entry F) (g : gate F)
  : option (option errors.error * gate F) :=
  match fuel with
  | O => None
  | S fuel' =>
      match ctxErr ctx round with
      | Some err => Some (Some err, g)
      | None =>
          let now := clk (reads g) in
          let '(e, ok) := attempt e now a in
          let g := {| m := <[ Key a := e ]> (m g); reads := S (reads g) |} in
          if ok then Some (None, g)
          else
            let wr := waitSecFor (req e) (Requests a) in
            let wt := waitSecFor (tok e) (Tokens a) in
            let waitSec := if flt wr wt then wt else wr in
            match asleep round waitSec with
            | Some err => Some (Some err, g)
            | None => waitLoop fuel' (S round) a e g
            end
      end
  end.

Definition Wait (fuel : nat) (g : gate F) (a : Ask)
  : option (option errors.error * gate F) :=
  if (Requests a <=? 0) || (Tokens a <? 0)
  then Some (Some (errors.Known errors.ErrInvalidInput), g)
  else
    let '(e, g) := get g (Key a) in
    if (MaxTokensPerReq (lim e) >? 0) && (Tokens a >? MaxTokensPerReq (lim e))
    then Some (Some (errors.Known errors.ErrInvalidInput), g)
    else waitLoop fuel 0 a e g.

End Wait.

End gate.

End rate.

(** ** plugins/assembler/linear *)

Module linear.
Import goint contract.

Section Assemble.
Context {M : Type}.

(** The loop [for i := 1; i < len(spans); i++] over [spans[i:]]: [false]
    is the return of [ErrSeqInvalid]. *)
Fixpoint ascending (fileID : FileID) (prevTo : Index) (rest : list (SpanResult.t M))
  : bool :=
  match rest with
  | [] => true
  | s :: rest' =>
      if negb (String.eqb (SpanResult.FileID s) fileID)
         || (SpanResult.From s >? SpanResult.To s)
      then false
      else if negb (SpanResult.From s >? prevTo) then false
      else ascending fileID (SpanResult.To s) rest'
  end.

(** [io.MultiReader] over a [strings.NewReader] per span, as the bytes it
    yields when it is read to the end. *)
Definition joined (spans : list (SpanResult.t M)) : string :=
  foldr (fun s acc => SpanResult.Output s +:+ acc) "" spans.

(** [Assemble]; the value returned stands for the reader: the bytes it
    yields. *)
Definition Assemble (ctx : context.Context) (fileID : FileID)
    (spans : list (SpanResult.t M)) : result string :=
  match ctxErr ctx 0 with
  | Some e => Err e
  | None =>
      match spans with
      | [] => Ok ""
      | s0 :: rest =>
          let prevTo := SpanResult.To s0 in
          if negb (String.eqb (SpanResult.FileID s0) fileID)
             || (SpanResult.From s0 >? prevTo)
          then Err (errors.Known errors.ErrSeqInvalid)
          else if ascending fileID prevTo rest then Ok (joined spans)
          else Err (errors.Known errors.ErrSeqInvalid)
      end
  end.

End Assemble.

End linear.

(** ** internal/prompt: the token estimator *)

Module prompt.
Import goint.

(** [MakeEstimator]: the closure it returns. *)
Definition MakeEstimator (bytesPerToken : Z) : string -> Z :=
  let bpt := bytesPerToken in
  let bpt := if bpt <=? 0 then 4 else bpt in
  fun s =>
    let n := len s in
    if n =? 0 then 0
    else quot (sub (add n bpt) 1) bpt.

End prompt.

(** * Specification vocabulary

    The notions the claims are stated with: they are not part of the program. *)

Module spec.
Import goint contract.

(** Consecutive non-empty target ranges: the first starts at [from], each
    next one starts right after the previous one ends, the last ends at
    [to - 1]. *)
Fixpoint tiles {M} (from : Z) (bs : list (Batch.t M)) (to : Z) : Prop :=
  match bs with
  | [] => from = to
  | b :: bs' =>
      Batch.TargetFrom b = from /\ from <= Batch.TargetTo b /\
      tiles (Batch.TargetTo b + 1) bs' to
  end.

(** Index [i] lies in the target range of batch [b]. *)
Definition in_target {M} (b : Batch.t M) (i : Z) : Prop :=
  Batch.TargetFrom b <= i <= Batch.TargetTo b.

(** The records are those of one file, numbered 0, 1, 2, ... *)
Definition well_numbered {M} (fid : FileID) (records : list (Rec.t M)) : Prop :=
  forall i r, records !! i = Some r ->
    Rec.Index r = Z.of_nat i /\ Rec.FileID r = fid.

(** A context that is never cancelled during the call. *)
Definition live (ctx : context.Context) : Prop := forall k, ctx k = None.

(** [x], computed under [ctx], is what the never-cancelled run [y] gives,
    unless one of its polls received the context's error. *)
Definition or_cancelled {A} (ctx : context.Context) (x y : result A) : Prop :=
  x = y \/ exists k e, ctx k = Some e /\ x = Err e.

End spec.

Module batchspec.
Import goint contract sliding.

(** The ceiling of [x / d] for [d > 0]. *)
Definition ceil_div (x d : Z) : Z := - ((- x) / d).

(** The estimated token cost of a record text:
    [ceil((byte length + extraPerRec) / bytesPerToken)]. *)
Definition cost (b : Batcher) (s : string) : Z :=
  ceil_div (len s + extraPerRec b) (bytesPerToken b).

(** The estimated cost of a run of records. *)
Definition window_cost {M} (b : Batcher) (rs : list (Rec.t M)) : Z :=
  foldr (fun r acc => cost b (Rec.Text r) + acc) 0 rs.

(** No 64-bit overflow on this input: the window bounds, the byte counts
    and the total estimated cost are representable. *)
Definition fits {M} (b : Batcher) (records : list (Rec.t M)) : Prop :=
  llen records + ctxRadius b <= max_int /\
  Forall (fun r => len (Rec.Text r) + extraPerRec b + bytesPerToken b <= max_int)
    records /\
  window_cost b records <= max_int.

(** Elements [a], [a+1], ..., [b] of a list. *)
Definition segment {A} (l : list A) (a b : Z) : list A :=
  take (Z.to_nat (b + 1 - a)) (drop (Z.to_nat a) l).

(** The window of a batch: [radius] records before its first target, its
    targets, [radius] records after its last target, clipped to the file. *)
Definition window {M} (radius : Z) (records : list (Rec.t M)) (from to : Z)
  : list (Rec.t M) :=
  segment records (Z.max 0 (from - radius)) (Z.min (llen records - 1) (to + radius)).

(** The batcher's fields as [New] leaves them. *)
Definition normal (b : Batcher) : Prop :=
  0 <= ctxRadius b /\ 0 < bytesPerToken b /\ 0 <= extraPerRec b.

(** The cost the expansion loop computes at [r] for a batch starting at [l]:
    left context, targets [l..r-1], right context [r..r+radius-1]. *)
Definition need {M} (b : Batcher) (records : list (Rec.t M)) (l r : Z) : Z :=
  window_cost b (window (ctxRadius b) records l (r - 1)).

(** Record [i] fits the budget together with its context. *)
Definition fits_alone {M} (b : Batcher) (records : list (Rec.t M)) (budget i : Z) : Prop :=
  window_cost b (window (ctxRadius b) records i i) <= budget.

(** The messages of [Make]'s errors. *)
Definition msg_max_tokens : string := "batcher: max tokens must be > 0".
Definition msg_file_id : string := "batcher: records must have the same FileID".
Definition msg_index : string :=
  "batcher: record Index must be contiguous and strictly increasing".
Definition msg_no_fit : string :=
  "batcher: single target with contexts does not fit; decrease C or split".

(** [pref[i]] is the cost of the first [i] records. *)
Definition pref_ok {M} (b : Batcher) (pref : list Z) (records : list (Rec.t M)) : Prop :=
  length pref = S (length records) /\
  forall i, (i <= length records)%nat ->
    pref !! i = Some (window_cost b (take i records)).

(** What the budget claim says of one batch: its records are its window,
    and the window costs at most the budget. *)
Definition within_budget {M} (b : Batcher) (records : list (Rec.t M)) (budget : Z)
    (x : Batch.t M) : Prop :=
  Batch.Records x =
    window (ctxRadius b) records (Batch.TargetFrom x) (Batch.TargetTo x) /\
  window_cost b (Batch.Records x) <= budget.

End batchspec.

Module validspec.
Import goint contract validate.

(** The candidates are exactly the single points [i,i] for
    [i = from, from+1, ..., to], in ascending order. *)
Definition exact_points {M} (from to : Z) (cands : list (SpanCandidate.t M)) : Prop :=
  map (fun c => (SpanCandidate.From c, SpanCandidate.To c)) cands
  = map (fun i => (i, i)) (seqZ from (to - from + 1)).

(** Span [s], returned for candidate [c] by a call that took the store from
    [h] to [h']: same range and text, bound to [fid], and a [Meta] that is nil
    when the candidate's is, and otherwise the address of a map allocated
    by the call (not an address of [h]) that holds what the candidate's map
    holds. *)
Definition copy_of (fid : FileID) (h h' : store)
    (c : SpanCandidate.t MetaRef) (s : SpanResult.t MetaRef) : Prop :=
  SpanResult.FileID s = fid /\
  SpanResult.From s = SpanCandidate.From c /\
  SpanResult.To s = SpanCandidate.To c /\
  SpanResult.Output s = SpanCandidate.Output c /\
  match SpanCandidate.Meta c with
  | None => SpanResult.Meta s = None
  | Some l =>
      exists l', SpanResult.Meta s = Some l' /\ (length h <= l')%nat /\
        h' !! l' = Some (default ∅ (h !! l))
  end.

(** The value of [expect] when the loop has taken [n] candidates. *)
Definition final_expect (expect : Z) (n : Z) : Z :=
  if n =? 0 then expect else add (expect + n - 1) 1.

(** No candidate holds a dangling address. *)
Definition allocated (h : store) (cands : list (SpanCandidate.t MetaRef)) : Prop :=
  Forall (fun c => match SpanCandidate.Meta c with
                   | None => True
                   | Some l => (l < length h)%nat
                   end) cands.

End validspec.

Module errspec.
Import errors diag.

(** [x] is a node of the tree that [Unwrap] spans below [e]. *)
Inductive node_of : error -> error -> Prop :=
| node_here e : node_of e e
| node_wrap msg e x : node_of e x -> node_of (wrapError msg e) x
| node_join es e x : e ∈ es -> node_of e x -> node_of (joinError es) x
| node_path op p e x : node_of e x -> node_of (PathError op p e) x
| node_op op e x : node_of e x -> node_of (OpError op e) x
| node_custom m es e x : e ∈ es -> node_of e x -> node_of (Custom m es) x.

(** Node [x] is the known value [w], or has an [Is] method accepting it. *)
Definition is_known (w : known) (x : error) : Prop :=
  x = Known w \/ exists m es, x = Custom m es /\ is_method m w = true.

(** Node [x] is an [*os.PathError]. *)
Definition is_path_error (x : error) : Prop :=
  (exists op p e, x = PathError op p e) \/
  (exists m es, x = Custom m es /\ as_path_error m = true).

(** Node [x] has the capability [net.Error]. *)
Definition is_net_error (x : error) : Prop :=
  x = Known DeadlineExceeded \/ (exists op e, x = OpError op e) \/
  (exists s, x = DNSError s) \/ (exists st msg, x = upstreamError st msg) \/
  (exists m es, x = Custom m es /\ as_net_error m = true).

(** Some node of [e] satisfies [P]: the match survives wrapping. *)
Definition somewhere (P : error -> Prop) (e : error) : Prop :=
  exists x, node_of e x /\ P x.

Definition cancel_like (e : error) : Prop :=
  somewhere (is_known Canceled) e \/ somewhere (is_known DeadlineExceeded) e.
Definition budget_like (e : error) : Prop :=
  somewhere (is_known ErrBudgetExceeded) e \/ somewhere (is_known ErrRateLimited) e.
Definition protocol_like (e : error) : Prop :=
  somewhere (is_known ErrResponseInvalid) e.
Definition invariant_like (e : error) : Prop :=
  somewhere (is_known ErrInvariantViolation) e \/ somewhere (is_known ErrInvalidInput) e \/
  somewhere (is_known ErrSeqInvalid) e \/ somewhere (is_known ErrPathInvalid) e.
Definition io_like (e : error) : Prop := somewhere is_path_error e.
Definition network_like (e : error) : Prop := somewhere is_net_error e.

(** The code the claim gives each known value. *)
Definition code_of (w : known) : Code :=
  match w with
  | Canceled | DeadlineExceeded => CodeCancel
  | ErrBudgetExceeded | ErrRateLimited => CodeBudget
  | ErrResponseInvalid => CodeProtocol
  | ErrInvariantViolation | ErrInvalidInput | ErrSeqInvalid | ErrPathInvalid =>
      CodeInvariant
  end.

(** [fmt.Errorf("...: %w", e)], once per message. *)
Definition wraps (msgs : list string) (e : error) : error :=
  foldr wrapError e msgs.

End errspec.

Module workerspec.
Import goint contract pipeline.

(** Attempt [k] was made: the worker waited at the gate or invoked the
    model in round [k]. *)
Definition made (tr : list event) (k : Z) : Prop :=
  EvInvoke k ∈ tr \/ exists a, EvWait k a ∈ tr.

(** The first thing the worker does in round [k]. *)
Definition opens (k : Z) (ev : event) : Prop :=
  ev = EvInvoke k \/ exists a, ev = EvWait k a.

Definition is_invoke (ev : event) : bool :=
  match ev with EvInvoke _ => true | _ => false end.

(** What the decoder answers in round [k]. *)
Definition decoded (env : Env) (b : Batch_) (k : Z) (raw : Raw)
  : errors.error + list Span :=
  match Decode env with
  | WithMeta dm => dm k (tgt b) raw (idxMetaOf (Batch.Records b))
  | Plain d => d k (tgt b) raw
  end.

(** How one round ends. *)
Inductive outcome : Type :=
| Stop (r : res)
| Retry (e : errors.error).

(** One round of the retry loop: what the worker does in it, and how it
    ends. *)
Definition round (env : Env) (b : Batch_) (p : Prompt) (tokens attempts k : Z)
  : list event * outcome :=
  let a := {| Requests := 1; Tokens := tokens |} in
  let '(waited, evs) :=
    match GateWait env with
    | Some wait => (wait k a, [EvWait k a])
    | None => (None, [])
    end in
  match waited with
  | Some e => (evs, Stop (failed b (Some e)))
  | None =>
      match Invoke env k b p with
      | inl e =>
          (evs ++ [EvInvoke k],
           if (add k 1 <? attempts) && shouldRetryInvoke (Some e)
           then Retry e else Stop (failed b (Some e)))
      | inr raw =>
          (evs ++ [EvInvoke k; EvDecode k],
           match decoded env b k raw with
           | inl e =>
               if (add k 1 <? attempts) && shouldRetryDecode (Some e)
               then Retry e else Stop (failed b (Some e))
           | inr sp => Stop {| idx := Batch.BatchIndex b; spans := sp; err := None |}
           end)
      end
  end.

(** The rounds of the retry loop from round [k] on, as the events they
    leave: the loop is over, or round [k] ends the job, or it ends in a
    retry, the worker sleeps 200 ms and goes on with round [k+1]. *)
Inductive rounds (env : Env) (b : Batch_) (p : Prompt) (tokens attempts : Z)
  : Z -> list event -> Prop :=
| rounds_over k : attempts <= k -> rounds env b p tokens attempts k []
| rounds_stop k evs r :
    k < attempts -> round env b p tokens attempts k = (evs, Stop r) ->
    rounds env b p tokens attempts k evs
| rounds_retry k evs e tail :
    k < attempts -> round env b p tokens attempts k = (evs, Retry e) ->
    rounds env b p tokens attempts (k + 1) tail ->
    rounds env b p tokens attempts k
      (evs ++ EvSleep k 200 (sleepWithCtx (DoneDuringSleep env k) 200) :: tail).

(** The same collaborators, with other cancellations during the sleeps. *)
Definition with_sleeps (env : Env) (fired : Z -> option errors.error) : Env :=
  {| Build := Build env; GateWait := GateWait env; Invoke := Invoke env;
     Decode := Decode env; DoneDuringSleep := fired |}.

(** Everything the worker does but sleep. *)
Definition awake (ev : event) : bool :=
  match ev with EvSleep _ _ _ => false | _ => true end.

End workerspec.

Module commitspec.
Import goint contract pipeline.

(** No pipe operation fails: the encoder writes every row, the assembler
    yields bytes, the copy reports no error. *)
Definition pipes_ok (pipes : Pipes) (fileID : FileID) : Prop :=
  (forall t, EncodeErr pipes t = None) /\
  (forall t sps, exists bytes, Assemble pipes t fileID sps = inr bytes) /\
  (forall t bytes, (Copy pipes t bytes).2 = None).

(** [o] is the sidecar line of span [sp], written while batch [k] is
    committed. *)
Definition line_for (k : Z) (sp : Span) (o : output) : Prop :=
  exists row, o = SidecarLine k row /\
    row_From row = SpanResult.From sp /\ row_To row = SpanResult.To sp /\
    row_Meta row = SpanResult.Meta sp.

(** What the commit of batch [k] with spans [sps] sends: one sidecar line
    per span, in span order, then the spans to the assembler, then the
    assembled bytes to the primary pipe. *)
Definition commit_of (k : Z) (sps : list Span) (blk : list output) : Prop :=
  exists lines bytes,
    Forall2 (line_for k) sps lines /\
    blk = lines ++ [Assembled k sps; PrimaryBytes k bytes].

(** A worker delivered spans [sps] for batch [k]. *)
Definition delivered (rs : list res) (k : Z) (sps : list Span) : Prop :=
  exists r, r ∈ rs /\ idx r = k /\ err r = None /\ spans r = sps.

Definition is_block (rs : list res) (k : Z) (blk : list output) : Prop :=
  exists sps, delivered rs k sps /\ commit_of k sps blk.

(** The batch an output belongs to. *)
Definition batch_of (o : output) : Z :=
  match o with
  | SidecarLine k _ | Assembled k _ | PrimaryBytes k _ => k
  end.

(** After [prev], each index of [ks] is the one before it or its
    successor. *)
Fixpoint climbs (prev : Z) (ks : list Z) : Prop :=
  match ks with
  | [] => True
  | k :: ks' => (k = prev \/ k = prev + 1) /\ climbs k ks'
  end.

(** The indices start at 0, never go back and skip nothing. *)
Definition never_back (ks : list Z) : Prop :=
  match ks with
  | [] => True
  | k :: ks' => k = 0 /\ climbs 0 ks'
  end.

(** The outputs so far never went back, and the last of them belongs to
    batch [expect] or to the one before. *)
Definition trail (g : gate) : Prop :=
  never_back (batch_of <$> out g) /\
  match last (batch_of <$> out g) with
  | Some k => k = expect g \/ k = expect g - 1
  | None => expect g = 0
  end.

(** The commit gate in any run, [rs] being the results received so far:
    the buffer holds delivered spans, every delivered batch from [expect]
    on is in it, and the outputs never went back. *)
Definition gate_safe (batches : list Batch_) (rs : list res) (g : gate) : Prop :=
  0 <= expect g /\
  (forall k sps, buf g !! k = Some sps -> delivered rs k sps /\ k < llen batches) /\
  (forall r, r ∈ rs -> err r = None -> expect g <= idx r -> is_Some (buf g !! idx r)) /\
  trail g.

(** The batches carry their position as [BatchIndex]. *)
Definition numbered (batches : list Batch_) : Prop :=
  forall i b, batches !! i = Some b -> Batch.BatchIndex b = Z.of_nat i.

(** The batch indices on their way to the commit gate: not yet sent by the
    producer, in the job channel, with a worker, or in the result channel. *)
Definition pending (s : sys) : list Z :=
  (Batch.BatchIndex <$> todo s ++ inCh s ++ omap id (workers s)) ++
  (idx <$> outCh s).

(** The output so far is the commits of batches 0, 1, ..., [expect - 1],
    one after the other. *)
Definition committed (rs : list res) (g : gate) : Prop :=
  exists blocks,
    out g = concat blocks /\ Forall2 (is_block rs) (seqZ 0 (expect g)) blocks.

(** The commit gate between two results, [rs] being the results received
    so far: the buffer holds delivered spans, every delivered batch not
    yet committed is in it, and the expected batch is not. *)
Definition gate_inv (batches : list Batch_) (rs : list res) (g : gate) : Prop :=
  0 <= expect g /\
  (forall k sps, buf g !! k = Some sps -> delivered rs k sps /\ k < llen batches) /\
  (forall r, r ∈ rs -> err r = None -> expect g <= idx r -> is_Some (buf g !! idx r)) /\
  buf g !! expect g = None /\
  committed rs g.

(** The goroutines of one file at any time: each batch index is on its way
    at most once, what is on its way is neither committed nor buffered, and
    what is buffered is not committed. *)
Definition sys_inv (batches : list Batch_) (s : sys) : Prop :=
  NoDup (pending s) /\
  0 <= expect (latch s) <= llen batches /\
  (forall i, i ∈ pending s ->
     expect (latch s) <= i < llen batches /\ buf (latch s) !! i = None) /\
  (forall k, is_Some (buf (latch s) !! k) -> expect (latch s) <= k < llen batches).

End commitspec.

Module ratespec.
Import goint rate.

(** One call of [Wait]: its ask, its context, and the number of rounds
    after which the caller is considered blocked. *)
Record call (F : Type) : Type := {
  ask : Ask;
  ctx : context.Context;
  asleep : nat -> F -> option errors.error;
  fuel : nat
}.
Arguments ask {F}.
Arguments ctx {F}.
Arguments asleep {F}.
Arguments fuel {F}.

(** Calls of [Wait] made one after the other: the asks of those that
    return nil, each with its admission time, the instant read by its last
    round. A call that blocks for ever is the last one. *)
Fixpoint serve {F} `{Float64 F} (clk : nat -> Z) (calls : list (call F)) (g : gate F)
  : list (Z * Ask) :=
  match calls with
  | [] => []
  | c :: cs =>
      match Wait clk (ctx c) (asleep c) (fuel c) g (ask c) with
      | Some (None, g') => (clk (reads g' - 1)%nat, ask c) :: serve clk cs g'
      | Some (Some _, g') => serve clk cs g'
      | None => []
      end
  end.

(** The admissions on [key]. *)
Definition on_key (key : LimitKey) (log : list (Z * Ask)) : list (Z * Ask) :=
  filter (fun x => Key x.2 = key) log.

(** The total of [f] over the admissions made at an instant of
    [[t, t + W]]. *)
Definition in_window (t W : Z) (x : Z * Ask) : bool :=
  (t <=? x.1) && (x.1 <=? t + W).
Definition window_sum (f : Ask -> Z) (t W : Z) (log : list (Z * Ask)) : Z :=
  foldr (fun x acc => if in_window t W x then f x.2 + acc else acc) 0 log.

End ratespec.

Module linearspec.
Import goint contract.

(** Spans of one file in strictly ascending, non-overlapping order: each
    is bound to [fid], none is empty ([From <= To]), and each starts after
    the one before it ends. *)
Fixpoint in_order {M} (fid : FileID) (spans : list (SpanResult.t M)) : Prop :=
  match spans with
  | [] => True
  | s :: rest =>
      SpanResult.FileID s = fid /\ SpanResult.From s <= SpanResult.To s /\
      match rest with
      | [] => True
      | s' :: _ => SpanResult.To s < SpanResult.From s'
      end /\
      in_order fid rest
  end.

End linearspec.

(** * Concrete inputs used by the examples below *)

Module examples.
Import contract.
Local Open Scope string_scope.

Definition rec (i : Z) (text : string) : Rec.t Meta := Rec.mk i "f" text None.

(** Five one-byte records of one file. *)
Definition five : list (Rec.t Meta) :=
  [rec 0 "a"; rec 1 "b"; rec 2 "c"; rec 3 "d"; rec 4 "e"].

(** Radius 1, one byte per token. *)
Definition opts1 : sliding.Options :=
  {| sliding.ContextRadius := 1; sliding.BytesPerToken := 1;
     sliding.ExtraBytesPerRecord := 0 |}.
Definition batcher1 : sliding.Batcher := sliding.New (Some opts1).

(** The inputs of the package's tests: a gap in the numbering, and two
    three-byte records under a budget of 4 with one record of context. *)
Definition gap : list (Rec.t Meta) := [rec 0 "a"; rec 2 "b"].
Definition large : list (Rec.t Meta) := [rec 0 "aaa"; rec 1 "bbb"].

(** A target of three records, their single-point candidates (the second
    with a Meta map, stored at address 0), and the store holding that map. *)
Definition target35 : Target.t := Target.mk "f" 3 5.
Definition cands35 : list (SpanCandidate.t (option nat)) :=
  [SpanCandidate.mk 3 3 "x" None; SpanCandidate.mk 4 4 "y" (Some 0%nat);
   SpanCandidate.mk 5 5 "z" None].
Definition store1 : list (gmap string string) := [{[ "seq" := "7" ]}].

(** [strings.ToLower] on ASCII text. *)
Definition lower_ascii (c : ascii) : ascii :=
  let n := nat_of_ascii c in
  if (65 <=? n)%nat && (n <=? 90)%nat then ascii_of_nat (n + 32) else c.
Fixpoint ascii_ToLower (s : string) : string :=
  match s with
  | EmptyString => EmptyString
  | String c s' => String (lower_ascii c) (ascii_ToLower s')
  end.

(** [strings.TrimSpace] on ASCII text. *)
Definition is_space (c : ascii) : bool :=
  let n := nat_of_ascii c in
  ((9 <=? n)%nat && (n <=? 13)%nat) || (n =? 32)%nat.
Fixpoint trim_left (s : string) : string :=
  match s with
  | String c s' => if is_space c then trim_left s' else s
  | EmptyString => EmptyString
  end.
Fixpoint trim_right (s : string) : string :=
  match s with
  | EmptyString => EmptyString
  | String c s' =>
      match trim_right s' with
      | EmptyString => if is_space c then EmptyString else String c EmptyString
      | t => String c t
      end
  end.
Definition ascii_TrimSpace (s : string) : string := trim_right (trim_left s).

(** A block parser that reads its whole input and rejects it. *)
Definition parse_consumes (s : srt.Splitter) (ctx : context.Context) (fid : FileID)
    (r : string) : result (list (Rec.t Meta)) * string :=
  (Err (errors.New "srt format error: invalid sequence line"), "").

(** A dispatcher with one retry and no gate, a batch of the five records,
    and collaborators for it: the model answers the first call with a rate
    limit error and the second with text, the decoder accepts, and the
    context is cancelled during the sleep between the two. *)
Definition retry_once : pipeline.Settings :=
  {| pipeline.Concurrency := 1; pipeline.MaxTokens := 0;
     pipeline.BytesPerToken := 4; pipeline.MaxRetries := 1 |}.
Definition batch0 : Batch.t Meta := Batch.mk "f" 0 five 0 4.
Definition cancelled_asleep : pipeline.Env :=
  {| pipeline.Build := fun _ => inr (pipeline.TextPrompt "p");
     pipeline.GateWait := None;
     pipeline.Invoke := fun k _ _ =>
       if (k =? 0)%Z then inl (errors.Known errors.ErrRateLimited)
       else inr {| pipeline.Text := "[]" |};
     pipeline.Decode := pipeline.Plain (fun _ _ _ => inr []);
     pipeline.DoneDuringSleep := fun k =>
       if (k =? 0)%Z then Some (errors.Known errors.Canceled) else None |}.

(** Collaborators that never fail: the decoder answers one span for the
    batch's target. *)
Definition obliging : pipeline.Env :=
  {| pipeline.Build := fun _ => inr (pipeline.TextPrompt "p");
     pipeline.GateWait := None;
     pipeline.Invoke := fun _ _ _ => inr {| pipeline.Text := "[]" |};
     pipeline.Decode :=
       pipeline.Plain (fun _ tgt _ =>
         inr [SpanResult.mk (Target.FileID tgt) (Target.From tgt) (Target.To tgt) "x" None]);
     pipeline.DoneDuringSleep := fun _ => None |}.

(** Pipes that never fail: the assembler joins the outputs of the spans. *)
Definition sound_pipes : pipeline.Pipes :=
  {| pipeline.EncodeErr := fun _ => None;
     pipeline.Assemble := fun _ _ sps =>
       inr (foldr (fun sp acc => SpanResult.Output sp +:+ acc) "" sps);
     pipeline.Copy := fun _ bytes => (bytes, None) |}.

(** Pipes whose assembler always fails. *)
Definition broken_assembler : pipeline.Pipes :=
  {| pipeline.EncodeErr := fun _ => None;
     pipeline.Assemble := fun _ _ _ => inl (errors.New "assemble");
     pipeline.Copy := fun _ bytes => (bytes, None) |}.

(** Four batches of one record each, and a dispatcher of concurrency 2. *)
Definition four : list (Batch.t Meta) :=
  [Batch.mk "f" 0 [rec 0 "a"] 0 0; Batch.mk "f" 1 [rec 1 "b"] 1 1;
   Batch.mk "f" 2 [rec 2 "c"] 2 2; Batch.mk "f" 3 [rec 3 "d"] 3 3].
Definition two_workers : pipeline.Settings :=
  {| pipeline.Concurrency := 2; pipeline.MaxTokens := 0;
     pipeline.BytesPerToken := 4; pipeline.MaxRetries := 0 |}.

(** A schedule in which the first worker stays on batch 0 while the second
    delivers batches 1, 2 and 3. *)
Definition slow_first : list pipeline.action :=
  [pipeline.Produce; pipeline.Produce; pipeline.Produce; pipeline.Produce;
   pipeline.Close; pipeline.Take 0; pipeline.Take 1;
   pipeline.Finish 1 obliging; pipeline.Receive;
   pipeline.Take 1; pipeline.Finish 1 obliging; pipeline.Receive;
   pipeline.Take 1; pipeline.Finish 1 obliging; pipeline.Receive].

(** Results of batches 0 .. 3 arriving in the order 2, 0, 3, 1. *)
Definition span_of (i : Z) : SpanResult.t Meta := SpanResult.mk "f" i i "x" None.
Definition shuffled : list pipeline.res :=
  [ {| pipeline.idx := 2; pipeline.spans := [span_of 2]; pipeline.err := None |};
    {| pipeline.idx := 0; pipeline.spans := [span_of 0]; pipeline.err := None |};
    {| pipeline.idx := 3; pipeline.spans := [span_of 3]; pipeline.err := None |};
    {| pipeline.idx := 1; pipeline.spans := [span_of 1]; pipeline.err := None |} ].

(** The pipes of a run whose context is cancelled: the shipped assembler
    polls the context first; the encoder and the copy do not fail. *)
Definition cancelled_pipes : pipeline.Pipes :=
  {| pipeline.EncodeErr := fun _ => None;
     pipeline.Assemble := fun _ fid sps =>
       match linear.Assemble context.cancelled fid sps with
       | Ok bytes => inr bytes
       | Err e => inl e
       | Panic => inr ""%string
       end;
     pipeline.Copy := fun _ bytes => (bytes, None) |}.

(** The result of batch 2 fails and arrives first; those of batches 0 and
    1 follow. *)
Definition failed_first : list pipeline.res :=
  [ {| pipeline.idx := 2; pipeline.spans := [];
       pipeline.err := Some (errors.Known errors.ErrRateLimited) |};
    {| pipeline.idx := 0; pipeline.spans := [span_of 0]; pipeline.err := None |};
    {| pipeline.idx := 1; pipeline.spans := [span_of 1]; pipeline.err := None |} ].

(** A gate with one key limited to 60 requests and 60 tokens per minute,
    a clock that reads 0 when the gate is built and at the first call and
    30 s at the second, and two calls of [Wait] under a context that is
    never cancelled: 60 requests, then 30. *)
Definition per_minute : gmap rate.LimitKey rate.Limits :=
  {[ "k" := {| rate.RPM := 60; rate.TPM := 60; rate.MaxTokensPerReq := 0 |} ]}.
Definition clock (k : nat) : Z :=
  match k with
  | O | S O => 0
  | _ => 30 * rate.Second
  end.
Definition ask60 : rate.Ask := {| rate.Key := "k"; rate.Requests := 60; rate.Tokens := 60 |}.
Definition ask30 : rate.Ask := {| rate.Key := "k"; rate.Requests := 30; rate.Tokens := 30 |}.
Definition waits {F : Type} : list (ratespec.call F) :=
  [ {| ratespec.ask := ask60; ratespec.ctx := context.Background;
       ratespec.asleep := fun _ _ => None; ratespec.fuel := 1 |};
    {| ratespec.ask := ask30; ratespec.ctx := context.Background;
       ratespec.asleep := fun _ _ => None; ratespec.fuel := 1 |} ].

End examples.

(** * Properties *)

(** ** Go integers *)

Section goint_facts.
Import goint.

Lemma wrap_id z : in_range z -> wrap z = z.
Proof.
  unfold in_range, min_int, max_int, wrap. intros H.
  rewrite Z.mod_small; lia.
Qed.

Lemma add_id a b : in_range (a + b) -> add a b = a + b.
Proof. apply wrap_id. Qed.

Lemma sub_id a b : in_range (a - b) -> sub a b = a - b.
Proof. apply wrap_id. Qed.

Lemma wrap_in_range z : in_range (wrap z).
Proof.
  unfold in_range, min_int, max_int, wrap.
  pose proof (Z.mod_pos_bound (z + 2 ^ 63) (2 ^ 64)). lia.
Qed.

Lemma index_Some {A} (l : list A) (i : Z) x :
  index l i = Some x <-> 0 <= i /\ l !! Z.to_nat i = Some x.
Proof.
  unfold index. destruct (Z.ltb_spec i 0).
  - split; [discriminate | lia].
  - split; [auto | tauto].
Qed.

Lemma at_index_Ok {A} (l : list A) (i : Z) x :
  at_index l i = Ok x <-> 0 <= i /\ l !! Z.to_nat i = Some x.
Proof.
  unfold at_index. rewrite <- index_Some.
  destruct (index l i); split; intros; congruence.
Qed.

End goint_facts.

(** ** Computations *)

Lemma bind_Ok_inv {A B} (m : result A) (f : A -> result B) (y : B) :
  m ≫= f = Ok y -> exists x, m = Ok x /\ f x = Ok y.
Proof. destruct m; simpl; intros H; try discriminate. eauto. Qed.

Lemma bind_Ok {A B} (m : result A) (f : A -> result B) (x : A) :
  m = Ok x -> m ≫= f = f x.
Proof. intros ->. reflexivity. Qed.

(** Invert a successful bind in hypothesis [H]. *)
Ltac inv_bind H x Hx :=
  apply bind_Ok_inv in H as (x & Hx & H).

(** ** The sliding batcher *)

Section sliding_facts.
Import goint contract sliding spec.
Context {M : Type}.
Implicit Types (records rs : list (Rec.t M)) (bs batches : list (Batch.t M)).

Lemma validate_numbered ctx fid prev rs k k' :
  validate ctx fid prev rs k = Ok k' ->
  min_int <= prev -> prev + llen rs <= max_int ->
  forall i r, rs !! i = Some r ->
    Rec.Index r = prev + 1 + Z.of_nat i /\ Rec.FileID r = fid.
Proof.
  revert prev k. induction rs as [|r0 rs IH]; intros prev k Hv Hlo Hhi i r Hi.
  - discriminate.
  - simpl in Hv. destruct (ctxErr ctx k); [discriminate|].
    destruct (String.eqb_spec (Rec.FileID r0) fid) as [Hf|]; [|discriminate].
    simpl in Hv.
    unfold llen in Hhi. simpl length in Hhi.
    rewrite add_id in Hv by (unfold in_range; lia).
    destruct (Z.eqb_spec (Rec.Index r0) (prev + 1)) as [Hx|]; [|discriminate].
    simpl in Hv. destruct i as [|i]; simpl in Hi.
    + inversion Hi; subst r. split; [lia|done].
    + destruct (IH _ _ Hv) with (i := i) (r := r) as [H1 H2];
        unfold llen; try lia; auto.
      split; [lia|done].
Qed.

(** [bestR] stays between [l] and [n], whatever the costs are. *)
Lemma expand_bounds b ctx pref n budget todo l L1 L2 r bestR k bestR' k' :
  expand b ctx pref n budget todo l L1 L2 r bestR k = Ok (bestR', k') ->
  l <= bestR <= n -> l <= bestR' <= n.
Proof.
  revert r bestR k. induction todo as [|todo IH]; intros r bestR k He Hb; simpl in He.
  - inversion He; subst; done.
  - destruct (Z.leb_spec r n); [|inversion He; subst; done].
    destruct (ctxErr ctx k); [discriminate|].
    destruct (sum pref L1 L2); simpl in He; try discriminate.
    destruct (sum pref l (sub r 1)); simpl in He; try discriminate.
    destruct (sum pref r _); simpl in He; try discriminate.
    match type of He with (if ?c then _ else _) = _ => destruct c end.
    + apply IH in He; [done|].
      destruct (Z.gtb_spec r l); lia.
    + inversion He; subst; done.
Qed.

Lemma tiles_snoc bs from mid (x : Batch.t M) :
  tiles from bs mid ->
  Batch.TargetFrom x = mid -> mid <= Batch.TargetTo x ->
  tiles from (bs ++ [x]) (Batch.TargetTo x + 1).
Proof.
  revert from. induction bs as [|y bs IH]; simpl; intros from Ht Hf Hle.
  - subst; auto.
  - destruct Ht as (H1 & H2 & H3). auto.
Qed.

Lemma batchLoop_tiles b ctx pref budget records fid fuel l batchIdx bs k out :
  well_numbered fid records ->
  llen records <= max_int ->
  batchLoop b ctx pref (llen records) budget records fid fuel l batchIdx bs k = Ok out ->
  0 <= l <= llen records ->
  llen records - l <= Z.of_nat fuel ->
  tiles 0 bs l ->
  batchIdx = llen bs ->
  (forall j x, bs !! j = Some x -> Batch.BatchIndex x = Z.of_nat j) ->
  llen bs <= l ->
  tiles 0 out (llen records) /\
  (forall j x, out !! j = Some x -> Batch.BatchIndex x = Z.of_nat j).
Proof.
  intros Hnum Hmax. revert l batchIdx bs k.
  induction fuel as [|fuel IH]; intros l batchIdx bs k Hrun Hl Hfuel Ht Hidx Hbi Hcnt;
    simpl in Hrun.
  - inversion Hrun; subst out. replace (llen records) with l by lia. done.
  - destruct (Z.ltb_spec l (llen records)) as [Hlt|Hge];
      [|inversion Hrun; subst out; replace (llen records) with l by lia; done].
    destruct (ctxErr ctx k); [discriminate|].
    match type of Hrun with context [expand ?a ?b ?c ?d ?e ?f ?g ?h ?i ?j ?k ?l] =>
      destruct (expand a b c d e f g h i j k l) as [[bestR k']| |] eqn:He end;
      simpl in Hrun; try discriminate.
    apply expand_bounds in He; [|lia].
    destruct (Z.eqb_spec bestR l) as [|Hne]; [discriminate|].
    match type of Hrun with context [slice ?a ?b ?c] =>
      destruct (slice a b c) as [recSlice|] end; simpl in Hrun; try discriminate.
    destruct (at_index records l) as [first| |] eqn:Hfirst; simpl in Hrun; try discriminate.
    destruct (at_index records (sub bestR 1)) as [last| |] eqn:Hlast;
      simpl in Hrun; try discriminate.
    unfold max_int in Hmax.
    rewrite sub_id in Hlast by (unfold in_range, min_int, max_int; lia).
    apply at_index_Ok in Hfirst as [_ Hfirst], Hlast as [_ Hlast].
    apply Hnum in Hfirst as [Hfi _], Hlast as [Hla _].
    rewrite Z2Nat.id in Hfi, Hla by lia.
    apply IH in Hrun; auto; try lia.
    + replace bestR with (Rec.Index last + 1) by lia.
      apply (tiles_snoc bs 0 l
               (Batch.mk fid batchIdx recSlice (Rec.Index first) (Rec.Index last)));
        simpl; auto; lia.
    + unfold llen in *. rewrite length_app. simpl length.
      rewrite add_id; unfold in_range, min_int, max_int; lia.
    + intros j x Hj. apply lookup_app_Some in Hj as [Hj|[Hge Hj]]; [auto|].
      apply list_lookup_singleton_Some in Hj as [Hj <-]. simpl.
      unfold llen in Hidx. lia.
    + unfold llen in *. rewrite length_app. simpl length. lia.
Qed.

End sliding_facts.


Section sliding_claims.
Import goint contract sliding spec.
Context {M : Type}.
Implicit Types (records rs : list (Rec.t M)) (bs batches : list (Batch.t M)).

(** What [Make] has checked of its input once it goes on to batch it. *)
Lemma Make_Ok_inv b ctx records limit batches :
  llen records <= max_int ->
  Make b ctx records limit = Ok batches ->
  0 < BatchLimit.MaxTokens limit /\
  (records = [] /\ batches = [] \/
   exists fid p k k',
     well_numbered fid records /\
     prefixes b ctx records 0 k = Ok (p, k') /\
     batchLoop b ctx (0 :: p) (llen records) (BatchLimit.MaxTokens limit)
       records fid (length records) 0 0 [] k' = Ok batches).
Proof.
  intros Hmax Hrun. unfold Make in Hrun.
  destruct (Z.leb_spec (BatchLimit.MaxTokens limit) 0); [discriminate|].
  split; [lia|].
  destruct records as [|r0 rest]; [left; inversion Hrun; done|right].
  destruct (Z.eqb_spec (Rec.Index r0) 0) as [H0|]; [|discriminate].
  cbn [negb] in Hrun.
  inv_bind Hrun k Hv. inv_bind Hrun pk Hp. destruct pk as [p k'].
  exists (Rec.FileID r0), p, k, k'. split; [|done].
  intros i r Hi. destruct i as [|i]; simpl in Hi.
  - inversion Hi; subst; done.
  - unfold llen in Hmax. simpl length in Hmax.
    destruct (validate_numbered _ _ _ _ _ _ Hv) with (i := i) (r := r) as [H1 H2];
      unfold llen, min_int, max_int in *; try lia; auto.
    split; [lia|done].
Qed.

Lemma tiles_range bs from to :
  tiles from bs to -> from <= to.
Proof.
  revert from. induction bs as [|x bs IH]; simpl; intros from H.
  - lia.
  - destruct H as (_ & H1 & H2). apply IH in H2. lia.
Qed.

Lemma tiles_bounds bs from to j x :
  tiles from bs to -> bs !! j = Some x ->
  from <= Batch.TargetFrom x /\ Batch.TargetFrom x <= Batch.TargetTo x /\ Batch.TargetTo x < to.
Proof.
  revert from j. induction bs as [|y bs IH]; intros from j Ht Hj; [discriminate|].
  simpl in Ht. destruct Ht as (Hf & Hle & Ht).
  destruct j as [|j]; simpl in Hj.
  - inversion Hj; subst y. apply tiles_range in Ht. lia.
  - specialize (IH _ _ Ht Hj). lia.
Qed.

(** In a tiling every index of the range is a target of exactly one batch. *)
Lemma tiles_unique bs from to i :
  tiles from bs to -> from <= i < to ->
  exists j x, bs !! j = Some x /\ in_target x i /\
    forall j' x', bs !! j' = Some x' -> in_target x' i -> j' = j.
Proof.
  revert from. induction bs as [|y bs IH]; simpl; intros from Ht Hi.
  - lia.
  - destruct Ht as (Hf & Hle & Ht).
    destruct (Z.le_gt_cases i (Batch.TargetTo y)) as [Hin|Hout].
    + exists 0%nat, y. split; [done|]. split; [unfold in_target; lia|].
      intros [|j'] x' Hj' Hx'; [done|]. simpl in Hj'.
      pose proof (tiles_bounds _ _ _ _ _ Ht Hj'). unfold in_target in Hx'. lia.
    + destruct (IH _ Ht) as (j & x & Hj & Hx & Hu); [lia|].
      exists (S j), x. split; [done|]. split; [done|].
      intros [|j'] x' Hj' Hx'; simpl in Hj'.
      * inversion Hj'; subst. unfold in_target in Hx'. lia.
      * f_equal. eauto.
Qed.
End sliding_claims.

Section sliding_partition.
Import goint contract sliding spec.
Context {M : Type}.
Implicit Types (records rs : list (Rec.t M)) (bs batches : list (Batch.t M)).

(** C1. Whenever [Make] returns a batch list, the target ranges of the
    batches, in emission order, tile [0, N-1] for [N = len(records)]: the
    first starts at 0, each next one starts right after the previous one
    ends, the last ends at [N-1]; so every index of [0, N-1] is a target of
    exactly one batch (no gap, no overlap), and the j-th batch emitted has
    [BatchIndex] j. The claim's assumptions on the records (non-empty, one
    FileID, Index 0..N-1, MaxTokens > 0) are what [Make] itself checks
    before it returns batches, so they are not needed as hypotheses. *)
Theorem Make_targets_partition b ctx records limit batches :
  llen records <= max_int ->
  Make b ctx records limit = Ok batches ->
  tiles 0 batches (llen records) /\
  (forall i, 0 <= i < llen records ->
     exists j x, batches !! j = Some x /\ in_target x i /\
       forall j' x', batches !! j' = Some x' -> in_target x' i -> j' = j) /\
  (forall j x, batches !! j = Some x -> Batch.BatchIndex x = Z.of_nat j).
Proof.
  intros Hmax Hrun.
  assert (Ht : tiles 0 batches (llen records) /\
    (forall j x, batches !! j = Some x -> Batch.BatchIndex x = Z.of_nat j)).
  { destruct (Make_Ok_inv _ _ _ _ _ Hmax Hrun)
      as [_ [[-> ->]|(fid & p & k & k' & Hnum & _ & Hloop)]].
    - split; [reflexivity|]. intros j x Hj. discriminate.
    - eapply batchLoop_tiles in Hloop; eauto; unfold llen in *; simpl; try lia.
      intros j x Hj. discriminate. }
  destruct Ht as [Ht Hidx]. split; [done|]. split; [|done].
  intros i Hi. eapply tiles_unique; eauto.
Qed.

End sliding_partition.

Lemma Make_targets_partition_witness :
  exists batches,
    sliding.Make examples.batcher1 context.Background examples.five
      (contract.BatchLimit.mk 3) = Ok batches /\
    length batches = 3%nat /\
    spec.tiles 0 batches 5.
Proof.
  eexists. split; [vm_compute; reflexivity|]. split; [reflexivity|].
  refine (proj1 (Make_targets_partition examples.batcher1 context.Background
           examples.five (contract.BatchLimit.mk 3) _ _ _)).
  - vm_compute. discriminate.
  - vm_compute. reflexivity.
Defined.

Section sliding_cost.
Import goint contract sliding spec batchspec.
Context {M : Type}.
Implicit Types (records rs : list (Rec.t M)) (bs batches : list (Batch.t M)).

Lemma New_normal opts : normal (New opts).
Proof.
  unfold normal. destruct opts as [o|]; simpl; [|lia].
  destruct (Z.gtb_spec (ContextRadius o) 0), (Z.gtb_spec (BytesPerToken o) 0),
    (Z.gtb_spec (ExtraBytesPerRecord o) 0); lia.
Qed.

Lemma ceil_div_spec x d : 0 < d -> 0 <= x -> ceil_div x d = (x + d - 1) / d.
Proof.
  intros Hd Hx. unfold ceil_div.
  pose proof (Z.div_mod (- x) d ltac:(lia)) as H1.
  pose proof (Z.mod_pos_bound (- x) d Hd) as H2.
  apply Z.div_unique with (r := d - 1 - (- x) mod d); lia.
Qed.

Lemma ceil_div_nonneg x d : 0 < d -> 0 <= x -> 0 <= ceil_div x d.
Proof.
  intros Hd Hx. rewrite ceil_div_spec by done. apply Z.div_pos; lia.
Qed.

Lemma ceil_div_le x d : 0 < d -> 0 <= x -> ceil_div x d <= x.
Proof.
  intros Hd Hx. rewrite ceil_div_spec by done.
  destruct (Z.eq_dec x 0) as [->|Hne].
  - rewrite Z.div_small; lia.
  - apply Z.div_le_upper_bound; [lia|]. nia.
Qed.

Variable b : Batcher.
Hypothesis Hb : normal b.

Lemma estimateTokens_cost s :
  len s + extraPerRec b + bytesPerToken b <= max_int ->
  estimateTokens b s = cost b s.
Proof.
  destruct Hb as (_ & Hd & He). intros Hfit.
  assert (Hlen : 0 <= len s) by (unfold len; lia).
  unfold estimateTokens, cost. unfold max_int in Hfit.
  assert (Hbytes : (if extraPerRec b >? 0 then add (len s) (extraPerRec b) else len s)
                   = len s + extraPerRec b).
  { destruct (Z.gtb_spec (extraPerRec b) 0).
    - apply add_id. unfold in_range, min_int, max_int. lia.
    - lia. }
  rewrite Hbytes.
  destruct (Z.eqb_spec (len s + extraPerRec b) 0) as [->|Hne].
  - unfold ceil_div. simpl. rewrite Z.div_0_l; lia.
  - destruct (Z.leb_spec (bytesPerToken b) 0); [lia|].
    rewrite add_id by (unfold in_range, min_int, max_int; lia).
    rewrite sub_id by (unfold in_range, min_int, max_int; lia).
    rewrite ceil_div_spec by lia.
    unfold quot. rewrite Z.quot_div_nonneg by lia.
    apply wrap_id. unfold in_range, min_int, max_int.
    split.
    + pose proof (Z.div_pos (len s + extraPerRec b + bytesPerToken b - 1) (bytesPerToken b)). lia.
    + assert ((len s + extraPerRec b + bytesPerToken b - 1) / bytesPerToken b
              <= len s + extraPerRec b + bytesPerToken b - 1); [|lia].
      apply Z.div_le_upper_bound; [lia|]. nia.
Qed.

Lemma cost_nonneg s : 0 <= cost b s.
Proof.
  destruct Hb as (_ & Hd & He). unfold cost. apply ceil_div_nonneg; unfold len; lia.
Qed.

Lemma window_cost_nonneg rs : 0 <= window_cost b rs.
Proof.
  induction rs as [|r rs IH]; simpl; [lia|]. pose proof (cost_nonneg (Rec.Text r)). lia.
Qed.

Lemma window_cost_app rs1 rs2 :
  window_cost b (rs1 ++ rs2) = window_cost b rs1 + window_cost b rs2.
Proof. induction rs1 as [|r rs1 IH]; simpl; lia. Qed.

Lemma window_cost_take rs i : window_cost b (take i rs) <= window_cost b rs.
Proof.
  rewrite <- (take_drop i rs) at 2. rewrite window_cost_app.
  pose proof (window_cost_nonneg (drop i rs)). lia.
Qed.


Lemma prefixes_spec ctx rs last k p k' :
  prefixes b ctx rs last k = Ok (p, k') ->
  (forall r, r ∈ rs -> len (Rec.Text r) + extraPerRec b + bytesPerToken b <= max_int) ->
  0 <= last -> last + window_cost b rs <= max_int ->
  length p = length rs /\
  forall i, (i < length rs)%nat ->
    p !! i = Some (last + window_cost b (take (S i) rs)).
Proof.
  revert last k p. induction rs as [|r rs IH]; intros last k p Hp Hfit Hlast Htot;
    simpl in Hp.
  - inversion Hp; subst. split; [done|]. simpl. lia.
  - destruct (ctxErr ctx k); [discriminate|].
    simpl in Htot. pose proof (cost_nonneg (Rec.Text r)) as Hc.
    pose proof (window_cost_nonneg rs) as Hw.
    rewrite estimateTokens_cost in Hp by (apply Hfit; left).
    rewrite add_id in Hp by (unfold in_range, min_int, max_int in *; lia).
    inv_bind Hp pk Hrec. destruct pk as [p0 k0]. inversion Hp; subst p k'. clear Hp.
    apply IH in Hrec as [Hlen Hlk]; try lia.
    + split; [simpl; lia|]. intros [|i] Hi; simpl.
      * f_equal. lia.
      * simpl in Hi. rewrite Hlk by lia. f_equal. simpl. lia.
    + intros r' Hr'. apply Hfit. by right.
Qed.


Lemma prefixes_pref_ok ctx records k p k' :
  prefixes b ctx records 0 k = Ok (p, k') ->
  fits b records ->
  pref_ok b (0 :: p) records.
Proof.
  intros Hp (_ & Hfit & Htot). rewrite Forall_forall in Hfit.
  apply prefixes_spec in Hp as [Hlen Hlk]; auto; try lia.
  split; [simpl; lia|]. intros [|i] Hi; simpl; [done|].
  rewrite Hlk by lia. f_equal.
Qed.

Lemma segment_cost records a c :
  0 <= a -> a <= c + 1 -> c < llen records ->
  window_cost b (take (Z.to_nat (c + 1)) records) =
  window_cost b (take (Z.to_nat a) records) + window_cost b (segment records a c).
Proof.
  intros Ha Hac Hc. unfold segment. rewrite <- window_cost_app.
  rewrite take_take_drop. f_equal. f_equal. lia.
Qed.

Lemma segment_app records a m c :
  0 <= a -> a <= m + 1 -> m <= c ->
  segment records a m ++ segment records (m + 1) c = segment records a c.
Proof.
  intros Ha Hm Hc. unfold segment.
  replace (Z.to_nat (m + 1)) with (Z.to_nat a + Z.to_nat (m + 1 - a))%nat by lia.
  rewrite <- drop_drop. rewrite take_take_drop. f_equal. lia.
Qed.

Lemma sum_spec pref records a c :
  pref_ok b pref records ->
  window_cost b records <= max_int ->
  llen records < max_int ->
  0 <= a -> a <= c + 1 -> c < llen records ->
  sum pref a c = Ok (window_cost b (segment records a c)).
Proof.
  intros [Hlen Hlk] Htot Hn Ha Hac Hc. unfold sum.
  destruct (Z.gtb_spec a c).
  - unfold segment. replace (c + 1 - a) with 0 by lia. done.
  - destruct (Z.ltb_spec a 0); [lia|].
    unfold llen in *. unfold max_int in *.
    rewrite (add_id c 1) by (unfold in_range, min_int, max_int; lia).
    destruct (Z.geb_spec (c + 1) (Z.of_nat (length pref))); [lia|].
    rewrite (add_id c 1) by (unfold in_range, min_int, max_int; lia).
    unfold at_index, index.
    destruct (Z.ltb_spec (c + 1) 0); [lia|]. destruct (Z.ltb_spec a 0); [lia|].
    rewrite !Hlk by lia. simpl.
    pose proof (window_cost_nonneg (take (Z.to_nat (c + 1)) records)).
    pose proof (window_cost_nonneg (take (Z.to_nat a) records)).
    pose proof (window_cost_take records (Z.to_nat (c + 1))).
    pose proof (window_cost_take records (Z.to_nat a)).
    rewrite sub_id by (unfold in_range, min_int, max_int; lia).
    f_equal. rewrite (segment_cost records a c); unfold llen; lia.
Qed.


Lemma window_cost_segment_le records a c :
  window_cost b (segment records a c) <= window_cost b records.
Proof.
  unfold segment. etransitivity; [apply window_cost_take|].
  rewrite <- (take_drop (Z.to_nat a) records) at 2. rewrite window_cost_app.
  pose proof (window_cost_nonneg (take (Z.to_nat a) records)). lia.
Qed.

(** The right end of the window the loop costs at [r]. *)
Lemma right_end records r :
  fits b records -> 0 <= r <= llen records ->
  (if sub (add r (ctxRadius b)) 1 >=? llen records
   then sub (llen records) 1 else sub (add r (ctxRadius b)) 1)
  = Z.min (llen records - 1) (r - 1 + ctxRadius b).
Proof.
  intros (Hrad & _) Hr. destruct Hb as (HC & _). unfold max_int in Hrad.
  rewrite add_id by (unfold in_range, min_int, max_int; lia).
  rewrite !sub_id by (unfold in_range, min_int, max_int; lia).
  destruct (Z.geb_spec (r + ctxRadius b - 1) (llen records)); lia.
Qed.

Lemma expand_need ctx pref records budget todo l r bestR k bestR' k' :
  pref_ok b pref records -> fits b records -> llen records < max_int ->
  0 <= l -> l <= r ->
  expand b ctx pref (llen records) budget todo l (Z.max 0 (l - ctxRadius b)) (l - 1)
    r bestR k = Ok (bestR', k') ->
  (bestR = l \/ window_cost b (window (ctxRadius b) records l (bestR - 1)) <= budget) ->
  (bestR' = l \/ window_cost b (window (ctxRadius b) records l (bestR' - 1)) <= budget).
Proof.
  intros Hpref Hfits Hn Hl. pose proof Hfits as (Hrad & _ & Htot).
  destruct Hb as (HC & _).
  revert r bestR k. induction todo as [|todo IH]; intros r bestR k Hlr He Hinv;
    simpl in He.
  - inversion He; subst; done.
  - destruct (Z.leb_spec r (llen records)) as [Hrn|]; [|inversion He; subst; done].
    destruct (ctxErr ctx k); [discriminate|].
    rewrite right_end in He by (auto; lia).
    unfold max_int in *.
    rewrite (sub_id r 1) in He by (unfold in_range, min_int, max_int; lia).
    rewrite !(sum_spec pref records) in He by (auto; unfold max_int; lia).
    cbn [mbind result_bind] in He.
    set (s1 := window_cost b (segment records (Z.max 0 (l - ctxRadius b)) (l - 1))) in *.
    set (s2 := window_cost b (segment records l (r - 1))) in *.
    set (R2 := Z.min (llen records - 1) (r - 1 + ctxRadius b)) in *.
    set (s3 := window_cost b (segment records r R2)) in *.
    assert (Hsum : s1 + s2 + s3 =
              window_cost b (segment records (Z.max 0 (l - ctxRadius b)) R2)).
    { unfold s1, s2, s3. rewrite <- !window_cost_app.
      replace r with (r - 1 + 1) at 2 by lia.
      replace l with (l - 1 + 1) at 3 by lia.
      rewrite segment_app by lia. rewrite segment_app by lia. done. }
    pose proof (window_cost_segment_le records (Z.max 0 (l - ctxRadius b)) R2) as Hle.
    pose proof (window_cost_nonneg (segment records (Z.max 0 (l - ctxRadius b)) (l - 1))).
    pose proof (window_cost_nonneg (segment records l (r - 1))).
    pose proof (window_cost_nonneg (segment records r R2)).
    rewrite (add_id s1 s2) in He by (unfold in_range, min_int, max_int; lia).
    rewrite (add_id (s1 + s2) s3) in He by (unfold in_range, min_int, max_int; lia).
    destruct (Z.leb_spec (s1 + s2 + s3) budget) as [Hfit|]; [|inversion He; subst; done].
    rewrite (add_id r 1) in He by (unfold in_range, min_int, max_int; lia).
    apply IH in He; [done|lia|].
    destruct (Z.gtb_spec r l); [|done]. right.
    unfold window. fold R2. lia.
Qed.



Lemma batchLoop_budget ctx pref records fid budget fuel l batchIdx bs k out :
  pref_ok b pref records -> fits b records -> llen records < max_int ->
  well_numbered fid records ->
  batchLoop b ctx pref (llen records) budget records fid fuel l batchIdx bs k = Ok out ->
  0 <= l <= llen records ->
  Forall (within_budget b records budget) bs ->
  Forall (within_budget b records budget) out.
Proof.
  intros Hpref Hfits Hn Hnum. pose proof Hfits as (Hrad & _ & Htot).
  destruct Hb as (HC & _).
  revert l batchIdx bs k. induction fuel as [|fuel IH]; intros l batchIdx bs k Hrun Hl Hbs;
    simpl in Hrun.
  - inversion Hrun; subst; done.
  - destruct (Z.ltb_spec l (llen records)) as [Hlt|]; [|inversion Hrun; subst; done].
    destruct (ctxErr ctx k); [discriminate|].
    unfold max_int in *.
    rewrite (sub_id l (ctxRadius b)) in Hrun by (unfold in_range, min_int, max_int; lia).
    rewrite (sub_id l 1) in Hrun by (unfold in_range, min_int, max_int; lia).
    replace (if l - ctxRadius b <? 0 then 0 else l - ctxRadius b)
      with (Z.max 0 (l - ctxRadius b)) in Hrun
      by (destruct (Z.ltb_spec (l - ctxRadius b) 0); lia).
    inv_bind Hrun bk He. destruct bk as [bestR k'].
    pose proof (expand_bounds _ _ _ _ _ _ _ _ _ _ _ _ _ _ He ltac:(lia)) as Hb'.
    apply expand_need with (records := records) in He;
      auto; try (unfold max_int; lia).
    destruct (Z.eqb_spec bestR l) as [|Hne]; [discriminate|].
    destruct He as [|Hcost]; [done|].
    replace (sub (add bestR (ctxRadius b)) 1) with (bestR - 1 + ctxRadius b) in Hrun.
    2:{ rewrite add_id by (unfold in_range, min_int, max_int; lia).
        rewrite sub_id by (unfold in_range, min_int, max_int; lia). lia. }
    rewrite (sub_id (llen records) 1) in Hrun by (unfold in_range, min_int, max_int; lia).
    replace (if bestR - 1 + ctxRadius b >=? llen records then llen records - 1
             else bestR - 1 + ctxRadius b)
      with (Z.min (llen records - 1) (bestR - 1 + ctxRadius b)) in Hrun
      by (destruct (Z.geb_spec (bestR - 1 + ctxRadius b) (llen records)); lia).
    set (R2 := Z.min (llen records - 1) (bestR - 1 + ctxRadius b)) in *.
    rewrite (add_id R2 1) in Hrun by (unfold in_range, min_int, max_int; lia).
    inv_bind Hrun recSlice Hs. inv_bind Hrun r1 Hfirst. inv_bind Hrun r2 Hlast.
    rewrite sub_id in Hlast by (unfold in_range, min_int, max_int; lia).
    apply at_index_Ok in Hfirst as [_ Hfirst], Hlast as [_ Hlast].
    apply Hnum in Hfirst as [Hfi _], Hlast as [Hla _].
    rewrite Z2Nat.id in Hfi, Hla by lia.
    apply IH in Hrun; [done|lia|].
    apply Forall_app. split; [done|]. apply Forall_singleton.
    unfold slice in Hs.
    destruct (_ && _); [|discriminate]. inversion Hs; subst recSlice. clear Hs.
    unfold within_budget. simpl. rewrite Hfi, Hla.
    unfold window in *. fold R2 in Hcost |- *. unfold segment in *. done.
Qed.

End sliding_cost.

Section sliding_budget.
Import goint contract sliding spec batchspec.
Context {M : Type}.

(** C6. For a batcher built by [New], on an input whose sizes and costs are
    representable in 64 bits, every batch [Make] emits carries as [Records]
    exactly its window (radius records of left context, its target range,
    radius records of right context, clipped to the file), and the
    estimated cost of that window, each record costed
    [ceil((len(Text) + extraPerRec) / bytesPerToken)], is at most
    [limit.MaxTokens]. *)
Theorem Make_within_budget opts ctx (records : list (Rec.t M)) limit batches :
  llen records < max_int ->
  fits (New opts) records ->
  Make (New opts) ctx records limit = Ok batches ->
  forall x, x ∈ batches ->
    Batch.Records x =
      window (ctxRadius (New opts)) records (Batch.TargetFrom x) (Batch.TargetTo x) /\
    window_cost (New opts) (Batch.Records x) <= BatchLimit.MaxTokens limit.
Proof.
  intros Hn Hfits Hrun.
  assert (Hle : llen records <= max_int) by lia.
  destruct (Make_Ok_inv _ _ _ _ _ Hle Hrun)
    as [_ [[-> ->]|(fid & p & k & k' & Hnum & Hp & Hloop)]].
  - intros x Hx. by apply elem_of_nil in Hx.
  - apply (batchLoop_budget (New opts) (New_normal opts)) in Hloop; auto.
    + intros x Hx. by apply (proj1 (Forall_forall _ _) Hloop).
    + eapply prefixes_pref_ok; eauto. apply New_normal.
    + unfold llen. lia.
Qed.

End sliding_budget.


Lemma Make_within_budget_witness :
  exists batches,
    sliding.Make examples.batcher1 context.Background examples.five
      (contract.BatchLimit.mk 3) = Ok batches /\
    forall x, x ∈ batches ->
      contract.Batch.Records x =
        batchspec.window 1 examples.five
          (contract.Batch.TargetFrom x) (contract.Batch.TargetTo x) /\
      batchspec.window_cost examples.batcher1 (contract.Batch.Records x) <= 3.
Proof.
  eexists. split; [vm_compute; reflexivity|].
  apply (Make_within_budget (Some examples.opts1) context.Background examples.five
           (contract.BatchLimit.mk 3)).
  - vm_compute. reflexivity.
  - split; [vm_compute; discriminate|]. split; [|vm_compute; discriminate].
    repeat constructor; vm_compute; discriminate.
  - vm_compute. reflexivity.
Defined.


Section sliding_live.
Import goint contract sliding spec batchspec.
Context {M : Type}.
Implicit Types (records rs : list (Rec.t M)) (bs batches : list (Batch.t M)).
Variable b : Batcher.
Hypothesis Hb : normal b.
Variable ctx : context.Context.
Hypothesis Hlive : live ctx.

Lemma validate_live fid prev rs k :
  validate ctx fid prev rs k = Ok (k + length rs)%nat \/
  validate ctx fid prev rs k = Err (errors.New msg_file_id) \/
  validate ctx fid prev rs k = Err (errors.New msg_index).
Proof.
  revert prev k. induction rs as [|r rs IH]; intros prev k; simpl.
  - left. f_equal. lia.
  - unfold ctxErr. rewrite Hlive.
    destruct (String.eqb (Rec.FileID r) fid); simpl; [|by right; left].
    destruct (Rec.Index r =? add prev 1); simpl; [|by right; right].
    replace (k + S (length rs))%nat with (S k + length rs)%nat by lia. apply IH.
Qed.

Lemma prefixes_live rs last k :
  exists p, prefixes b ctx rs last k = Ok (p, (k + length rs)%nat).
Proof.
  revert last k. induction rs as [|r rs IH]; intros last k; simpl.
  - eexists. do 2 f_equal. lia.
  - unfold ctxErr. rewrite Hlive.
    destruct (IH (add last (estimateTokens b (Rec.Text r))) (S k)) as [p ->].
    simpl. eexists. do 2 f_equal. lia.
Qed.

Variable records : list (Rec.t M).
Variable pref : list Z.
Variable budget : Z.
Hypothesis Hpref : pref_ok b pref records.
Hypothesis Hfits : fits b records.
Hypothesis Hn : llen records < max_int.

(** One round of the expansion loop, in closed form. *)
Lemma expand_step todo l r bestR k :
  0 <= l -> l <= r -> r <= llen records ->
  expand b ctx pref (llen records) budget (S todo) l (Z.max 0 (l - ctxRadius b)) (l - 1)
    r bestR k =
  if need b records l r <=? budget
  then expand b ctx pref (llen records) budget todo l (Z.max 0 (l - ctxRadius b)) (l - 1)
         (r + 1) (if r >? l then r else bestR) (S k)
  else Ok (bestR, S k).
Proof.
  intros Hl Hlr Hrn. pose proof Hfits as (Hrad & _ & Htot). destruct Hb as (HC & _).
  simpl. destruct (Z.leb_spec r (llen records)); [|lia].
  unfold ctxErr. rewrite Hlive.
  rewrite right_end by (auto; lia).
  unfold max_int in *.
  rewrite (sub_id r 1) by (unfold in_range, min_int, max_int; lia).
  rewrite !(sum_spec b Hb pref records) by (auto; unfold max_int; lia).
  cbn [mbind result_bind].
  set (s1 := window_cost b (segment records (Z.max 0 (l - ctxRadius b)) (l - 1))) in *.
  set (s2 := window_cost b (segment records l (r - 1))) in *.
  set (R2 := Z.min (llen records - 1) (r - 1 + ctxRadius b)) in *.
  set (s3 := window_cost b (segment records r R2)) in *.
  assert (Hsum : s1 + s2 + s3 = need b records l r).
  { unfold s1, s2, s3, need, window. fold R2. rewrite <- !window_cost_app.
    replace r with (r - 1 + 1) at 2 by lia.
    replace l with (l - 1 + 1) at 3 by lia.
    rewrite segment_app by lia. rewrite segment_app by lia. done. }
  pose proof (window_cost_segment_le b Hb records (Z.max 0 (l - ctxRadius b)) R2) as Hle.
  pose proof (window_cost_nonneg b Hb (segment records (Z.max 0 (l - ctxRadius b)) (l - 1))).
  pose proof (window_cost_nonneg b Hb (segment records l (r - 1))).
  pose proof (window_cost_nonneg b Hb (segment records r R2)).
  unfold need, window in Hsum. fold R2 in Hsum.
  rewrite (add_id s1 s2) by (unfold in_range, min_int, max_int; lia).
  rewrite (add_id (s1 + s2) s3) by (unfold in_range, min_int, max_int; lia).
  rewrite (add_id r 1) by (unfold in_range, min_int, max_int; lia).
  unfold need, window. fold R2. rewrite <- Hsum. done.
Qed.

Lemma expand_live todo l r bestR k :
  0 <= l -> l <= r ->
  exists bestR' k',
    expand b ctx pref (llen records) budget todo l (Z.max 0 (l - ctxRadius b)) (l - 1)
      r bestR k = Ok (bestR', k').
Proof.
  intros Hl. revert r bestR k. induction todo as [|todo IH]; intros r bestR k Hlr.
  - simpl. eauto.
  - destruct (Z.le_gt_cases r (llen records)) as [Hrn|Hrn].
    + rewrite expand_step by done. destruct (_ <=? budget); [|eauto].
      apply IH. lia.
    + simpl. destruct (Z.leb_spec r (llen records)); [lia|]. eauto.
Qed.

Lemma expand_mono todo l r bestR k bestR' k' :
  0 <= l -> l <= r -> bestR <= r ->
  expand b ctx pref (llen records) budget todo l (Z.max 0 (l - ctxRadius b)) (l - 1)
    r bestR k = Ok (bestR', k') ->
  bestR <= bestR'.
Proof.
  intros Hl. revert r bestR k. induction todo as [|todo IH]; intros r bestR k Hlr Hbr He.
  - simpl in He. inversion He; lia.
  - destruct (Z.le_gt_cases r (llen records)) as [Hrn|Hrn].
    + rewrite expand_step in He by done. destruct (_ <=? budget); [|inversion He; lia].
      apply IH in He; try lia; destruct (Z.gtb_spec r l); lia.
    + simpl in He. destruct (Z.leb_spec r (llen records)); [lia|]. inversion He; lia.
Qed.


Lemma need_mono l r r' :
  0 <= l -> l <= r -> r <= r' -> need b records l r <= need b records l r'.
Proof.
  intros Hl Hlr Hrr. destruct Hb as (HC & _). unfold need, window.
  set (a := Z.max 0 (l - ctxRadius b)).
  set (c := Z.min (llen records - 1) (r - 1 + ctxRadius b)).
  set (c' := Z.min (llen records - 1) (r' - 1 + ctxRadius b)).
  destruct (Z.le_gt_cases a (c + 1)).
  - rewrite <- (segment_app records a c c') by lia. rewrite window_cost_app.
    pose proof (window_cost_nonneg b Hb (segment records (c + 1) c')). lia.
  - unfold segment at 1. replace (Z.to_nat (c + 1 - a)) with 0%nat by lia.
    rewrite take_0. simpl. apply window_cost_nonneg, Hb.
Qed.

Lemma expand_reaches todo l r t bestR k bestR' k' :
  0 <= l -> l <= r -> r <= t -> t <= llen records -> l < t ->
  t - r < Z.of_nat todo -> bestR <= r ->
  need b records l t <= budget ->
  expand b ctx pref (llen records) budget todo l (Z.max 0 (l - ctxRadius b)) (l - 1)
    r bestR k = Ok (bestR', k') ->
  t <= bestR'.
Proof.
  intros Hl. revert r bestR k.
  induction todo as [|todo IH]; intros r bestR k Hlr Hrt Htn Hlt Htodo Hbr Hneed He.
  - lia.
  - rewrite expand_step in He by (done || lia).
    pose proof (need_mono l r t Hl Hlr Hrt).
    destruct (Z.leb_spec (need b records l r) budget); [|lia].
    destruct (Z.eq_dec r t) as [->|Hne].
    + destruct (Z.gtb_spec t l); [|lia].
      apply expand_mono in He; lia.
    + apply IH in He; try lia. destruct (Z.gtb_spec r l); lia.
Qed.

(** One round of the batch loop, in closed form. *)
Lemma batchLoop_step fid fuel l batchIdx bs k bestR k' :
  0 <= l < llen records ->
  expand b ctx pref (llen records) budget (Z.to_nat (llen records - l) + 2) l
    (Z.max 0 (l - ctxRadius b)) (l - 1) l l (S k) = Ok (bestR, k') ->
  l < bestR ->
  exists r1 r2,
    records !! Z.to_nat l = Some r1 /\ records !! Z.to_nat (bestR - 1) = Some r2 /\
    batchLoop b ctx pref (llen records) budget records fid (S fuel) l batchIdx bs k =
    batchLoop b ctx pref (llen records) budget records fid fuel bestR (add batchIdx 1)
      (bs ++ [Batch.mk fid batchIdx (window (ctxRadius b) records l (bestR - 1))
                (Rec.Index r1) (Rec.Index r2)]) k'.
Proof.
  intros Hl He Hlt. pose proof Hfits as (Hrad & _ & Htot). destruct Hb as (HC & _).
  pose proof (expand_bounds _ _ _ _ _ _ _ _ _ _ _ _ _ _ He ltac:(lia)) as Hb'.
  destruct (lookup_lt_is_Some_2 records (Z.to_nat l)) as [r1 Hr1]; [unfold llen in *; lia|].
  destruct (lookup_lt_is_Some_2 records (Z.to_nat (bestR - 1))) as [r2 Hr2];
    [unfold llen in *; lia|].
  exists r1, r2. split; [done|]. split; [done|].
  simpl. destruct (Z.ltb_spec l (llen records)); [|lia].
  unfold ctxErr. rewrite Hlive. unfold max_int in *.
  rewrite (sub_id l (ctxRadius b)) by (unfold in_range, min_int, max_int; lia).
  rewrite (sub_id l 1) by (unfold in_range, min_int, max_int; lia).
  replace (if l - ctxRadius b <? 0 then 0 else l - ctxRadius b)
    with (Z.max 0 (l - ctxRadius b))
    by (destruct (Z.ltb_spec (l - ctxRadius b) 0); lia).
  rewrite He. cbn [mbind result_bind].
  destruct (Z.eqb_spec bestR l); [lia|].
  rewrite right_end by (auto; lia).
  set (R2 := Z.min (llen records - 1) (bestR - 1 + ctxRadius b)) in *.
  rewrite (add_id R2 1) by (unfold in_range, min_int, max_int; lia).
  rewrite (sub_id bestR 1) by (unfold in_range, min_int, max_int; lia).
  unfold slice.
  destruct (Z.leb_spec 0 (Z.max 0 (l - ctxRadius b))); [|lia].
  destruct (Z.leb_spec (Z.max 0 (l - ctxRadius b)) (R2 + 1)); [|lia].
  destruct (Z.leb_spec (R2 + 1) (llen records)); [|lia].
  cbn [andb mbind result_bind]. unfold at_index, index.
  destruct (Z.ltb_spec l 0); [lia|]. destruct (Z.ltb_spec (bestR - 1) 0); [lia|].
  rewrite Hr1, Hr2. cbn [mbind result_bind]. unfold window, segment. fold R2. done.
Qed.

Lemma batchLoop_live fid fuel l batchIdx bs k :
  0 <= l <= llen records ->
  ((exists out, batchLoop b ctx pref (llen records) budget records fid fuel l batchIdx bs k
                = Ok out) \/
   batchLoop b ctx pref (llen records) budget records fid fuel l batchIdx bs k
     = Err (errors.New msg_no_fit)) /\
  ((forall i, l <= i < llen records -> fits_alone b records budget i) ->
   exists out, batchLoop b ctx pref (llen records) budget records fid fuel l batchIdx bs k
               = Ok out).
Proof.
  revert l batchIdx bs k. induction fuel as [|fuel IH]; intros l batchIdx bs k Hl.
  - simpl. eauto.
  - destruct (Z.lt_ge_cases l (llen records)) as [Hlt|Hge].
    2:{ simpl. destruct (Z.ltb_spec l (llen records)); [lia|]. eauto. }
    destruct (expand_live (Z.to_nat (llen records - l) + 2) l l l (S k))
      as (bestR & k' & He); [lia..|].
    pose proof (expand_bounds _ _ _ _ _ _ _ _ _ _ _ _ _ _ He ltac:(lia)) as Hb'.
    destruct (Z.eq_dec bestR l) as [->|Hne].
    + (* no target fits *)
      assert (Hfail : batchLoop b ctx pref (llen records) budget records fid
                        (S fuel) l batchIdx bs k = Err (errors.New msg_no_fit)).
      { simpl. destruct (Z.ltb_spec l (llen records)); [|lia].
        unfold ctxErr. rewrite Hlive. destruct Hb as (HC & _).
        pose proof Hfits as (Hrad & _). unfold max_int in *.
        rewrite (sub_id l (ctxRadius b)) by (unfold in_range, min_int, max_int; lia).
        rewrite (sub_id l 1) by (unfold in_range, min_int, max_int; lia).
        replace (if l - ctxRadius b <? 0 then 0 else l - ctxRadius b)
          with (Z.max 0 (l - ctxRadius b))
          by (destruct (Z.ltb_spec (l - ctxRadius b) 0); lia).
        rewrite He. cbn [mbind result_bind]. rewrite Z.eqb_refl. done. }
      rewrite Hfail. split; [by right|].
      intros Hall. exfalso.
      apply expand_reaches with (t := l + 1) in He; try lia.
      unfold need. replace (l + 1 - 1) with l by lia. apply Hall. lia.
    + destruct (batchLoop_step fid fuel l batchIdx bs k bestR k')
        as (r1 & r2 & _ & _ & ->); [lia|done|lia|].
      destruct (IH bestR (add batchIdx 1)
                  (bs ++ [Batch.mk fid batchIdx (window (ctxRadius b) records l (bestR - 1))
                            (Rec.Index r1) (Rec.Index r2)]) k') as [H1 H2]; [lia|].
      split; [done|]. intros Hall. apply H2. intros i Hi. apply Hall. lia.
Qed.

End sliding_live.


Section sliding_errors.
Import goint contract sliding spec batchspec.
Context {M : Type}.
Implicit Types (records rs : list (Rec.t M)) (bs batches : list (Batch.t M)).

Lemma validate_complete ctx fid prev rs k :
  live ctx ->
  min_int <= prev -> prev + llen rs <= max_int ->
  (forall i r, rs !! i = Some r ->
     Rec.Index r = prev + 1 + Z.of_nat i /\ Rec.FileID r = fid) ->
  validate ctx fid prev rs k = Ok (k + length rs)%nat.
Proof.
  intros Hlive. revert prev k. induction rs as [|r rs IH]; intros prev k Hlo Hhi Hnum; simpl.
  - f_equal. lia.
  - unfold ctxErr. rewrite Hlive.
    destruct (Hnum 0%nat r eq_refl) as [Hi Hf].
    unfold llen in Hhi. simpl length in Hhi.
    rewrite add_id by (unfold in_range; lia).
    rewrite Hf, String.eqb_refl. simpl.
    destruct (Z.eqb_spec (Rec.Index r) (prev + 1)); [|lia]. simpl.
    replace (k + S (length rs))%nat with (S k + length rs)%nat by lia.
    apply IH; unfold llen; try lia.
    intros i r' Hr'. destruct (Hnum (S i) r' Hr'). split; [lia|done].
Qed.

Lemma segment_mono b records a c a' c' :
  normal b -> 0 <= a' -> a' <= a -> a <= c + 1 -> c <= c' ->
  window_cost b (segment records a c) <= window_cost b (segment records a' c').
Proof.
  intros Hb Ha' Ha Hac Hc.
  rewrite <- (segment_app records a' (a - 1) c') by lia.
  replace (a - 1 + 1) with a by lia.
  rewrite <- (segment_app records a c c') by lia.
  rewrite !window_cost_app.
  pose proof (window_cost_nonneg b Hb (segment records a' (a - 1))).
  pose proof (window_cost_nonneg b Hb (segment records (c + 1) c')). lia.
Qed.

Lemma Is_New msg w : errors.Is (errors.New msg) w = false.
Proof. reflexivity. Qed.

Lemma Classify_New msg : diag.Classify (Some (errors.New msg)) = diag.CodeUnknown.
Proof. reflexivity. Qed.

(** [Make] on a non-empty input, with a live context and representable
    sizes: it fails exactly when the records are not those of one file
    numbered from 0, or some record does not fit the budget with its
    context. *)
Lemma Make_live opts ctx r0 rest limit :
  let b := New opts in
  let records := r0 :: rest in
  0 < BatchLimit.MaxTokens limit ->
  live ctx -> llen records < max_int -> fits b records ->
  (~ well_numbered (Rec.FileID r0) records ->
     exists msg, Make b ctx records limit = Err (errors.New msg)) /\
  (well_numbered (Rec.FileID r0) records ->
     (exists i, 0 <= i < llen records /\
        ~ fits_alone b records (BatchLimit.MaxTokens limit) i) ->
     Make b ctx records limit = Err (errors.New msg_no_fit)) /\
  (well_numbered (Rec.FileID r0) records ->
     (forall i, 0 <= i < llen records ->
        fits_alone b records (BatchLimit.MaxTokens limit) i) ->
     exists batches, Make b ctx records limit = Ok batches).
Proof.
  intros b records Hmax Hlive Hn Hfits.
  pose proof (New_normal opts) as Hb. fold b in Hb.
  assert (Hmk : Make b ctx records limit =
    if negb (Rec.Index r0 =? 0)
    then Err (errors.errorString
           ("batcher: first index must be 0, got " +:+ pretty (Rec.Index r0)))
    else
      k ← validate ctx (Rec.FileID r0) (Rec.Index r0) rest 0%nat;
      '(p, k) ← prefixes b ctx records 0 k;
      batchLoop b ctx (0 :: p) (llen records) (BatchLimit.MaxTokens limit) records
        (Rec.FileID r0) (length records) 0 0 [] k).
  { unfold Make. destruct (Z.leb_spec (BatchLimit.MaxTokens limit) 0); [lia|]. done. }
  assert (Hwn : well_numbered (Rec.FileID r0) records ->
    exists p k, pref_ok b (0 :: p) records /\
      Make b ctx records limit =
      batchLoop b ctx (0 :: p) (llen records) (BatchLimit.MaxTokens limit) records
        (Rec.FileID r0) (length records) 0 0 [] k).
  { intros Hnum. destruct (Hnum 0%nat r0 eq_refl) as [H0 _]. simpl in H0.
    change (Z.of_nat 0) with 0 in H0.
    rewrite Hmk, H0. simpl negb. cbv iota.
    unfold llen in Hn. simpl length in Hn. unfold max_int in Hn.
    assert (Hv : validate ctx (Rec.FileID r0) 0 rest 0 = Ok (0 + length rest)%nat).
    { apply validate_complete; auto; unfold min_int, max_int, llen; try lia.
      intros i r Hr. destruct (Hnum (S i) r Hr). split; [lia|done]. }
    rewrite Hv.
    cbn [mbind result_bind].
    destruct (prefixes_live b ctx Hlive records 0 (0 + length rest)) as [p Hp].
    rewrite Hp. cbn [mbind result_bind]. exists p. eexists. split; [|done].
    eapply prefixes_pref_ok; eauto. }
  split; [|split].
  - intros Hbad. rewrite Hmk.
    destruct (Z.eqb_spec (Rec.Index r0) 0) as [H0|]; simpl negb; cbv iota; [|eauto].
    destruct (validate_live ctx Hlive (Rec.FileID r0) (Rec.Index r0) rest 0)
      as [Hv|[Hv|Hv]]; rewrite Hv; cbn [mbind result_bind]; eauto.
    exfalso. apply Hbad. intros [|i] r Hr; simpl in Hr.
    + inversion Hr; subst. done.
    + unfold llen in Hn. simpl length in Hn. unfold max_int in Hn.
      destruct (validate_numbered _ _ _ _ _ _ Hv) with (i := i) (r := r);
        unfold min_int, max_int, llen; try lia; auto.
      split; [lia|done].
  - intros Hnum (i & Hi & Hno). destruct (Hwn Hnum) as (p & k & Hpref & ->).
    destruct (batchLoop_live b Hb ctx Hlive records (0 :: p) (BatchLimit.MaxTokens limit)
                Hpref Hfits Hn (Rec.FileID r0) (length records) 0 0 [] k)
      as [[[out Hout]|Herr] _]; [lia| |done].
    exfalso. apply Hno.
    pose proof Hout as Hbud.
    apply batchLoop_tiles in Hout as [Ht _]; auto; try (unfold llen in *; simpl; lia);
      [|lia|intros j x Hj; discriminate].
    apply (batchLoop_budget b Hb) in Hbud; auto; [|lia].
    destruct (tiles_unique _ _ _ i Ht Hi) as (j & x & Hj & [Hx1 Hx2] & _).
    pose proof (tiles_bounds _ _ _ _ _ Ht Hj) as (Hb1 & Hb2 & Hb3).
    apply list_elem_of_lookup_2 in Hj. rewrite Forall_forall in Hbud.
    destruct (Hbud x Hj) as [Hrec Hcost]. rewrite Hrec in Hcost.
    unfold fits_alone. etransitivity; [|exact Hcost].
    pose proof Hb as (HC & _). unfold window, in_target in *.
    apply segment_mono; auto; lia.
  - intros Hnum Hall. destruct (Hwn Hnum) as (p & k & Hpref & ->).
    destruct (batchLoop_live b Hb ctx Hlive records (0 :: p) (BatchLimit.MaxTokens limit)
                Hpref Hfits Hn (Rec.FileID r0) (length records) 0 0 [] k)
      as [_ Hok]; [unfold llen; lia|].
    apply Hok. intros i Hi. apply Hall. lia.
Qed.

(** C5 (amended). [Make] of a batcher built by [New]:
    - fails, whatever the records, when [MaxTokens <= 0];
    - returns an empty batch list and no error on empty records when
      [MaxTokens > 0];
    - on non-empty records, with a context that is not cancelled and sizes
      representable in 64 bits: fails when the records are not those of one
      file numbered 0, 1, 2, ...; fails with the "does not fit" error when
      they are but some record exceeds the budget together with its context
      window; and returns batches otherwise;
    - every error it builds itself is a plain [errors.New] value: none is
      (or wraps) [ErrInvalidInput] or [ErrBudgetExceeded], and [Classify]
      maps each to [unknown]. *)
Theorem Make_failures opts ctx records limit :
  let b := New opts in
  (BatchLimit.MaxTokens limit <= 0 ->
     Make b ctx records limit = Err (errors.New msg_max_tokens)) /\
  (0 < BatchLimit.MaxTokens limit -> records = [] ->
     Make b ctx records limit = Ok []) /\
  (0 < BatchLimit.MaxTokens limit -> live ctx ->
   llen records < max_int -> fits b records ->
   forall r0 rest, records = r0 :: rest ->
     (~ well_numbered (Rec.FileID r0) records ->
        exists msg, Make b ctx records limit = Err (errors.New msg)) /\
     (well_numbered (Rec.FileID r0) records ->
        (exists i, 0 <= i < llen records /\
           ~ fits_alone b records (BatchLimit.MaxTokens limit) i) ->
        Make b ctx records limit = Err (errors.New msg_no_fit)) /\
     (well_numbered (Rec.FileID r0) records ->
        (forall i, 0 <= i < llen records ->
           fits_alone b records (BatchLimit.MaxTokens limit) i) ->
        exists batches, Make b ctx records limit = Ok batches)) /\
  (forall msg,
     diag.Classify (Some (errors.New msg)) = diag.CodeUnknown /\
     forall w, errors.Is (errors.New msg) w = false).
Proof.
  intros b. split; [|split; [|split]].
  - intros Hle. unfold Make. destruct (Z.leb_spec (BatchLimit.MaxTokens limit) 0); [done|lia].
  - intros Hlt ->. unfold Make.
    destruct (Z.leb_spec (BatchLimit.MaxTokens limit) 0); [lia|done].
  - intros Hlt Hlive Hn Hfits r0 rest ->. by apply Make_live.
  - intros msg. split; [apply Classify_New|apply Is_New].
Qed.

End sliding_errors.

(** C5, as stated, fails: on empty records (with a positive budget) [Make]
    returns no error at all; and the errors it returns for records that are
    not contiguous, or for a target that does not fit, are not the
    [InvalidInput] and [BudgetExceeded] sentinels. *)
Lemma Make_claimed_errors_counterexample :
  sliding.Make (sliding.New None) context.Background
    (@nil (contract.Rec.t contract.Meta)) (contract.BatchLimit.mk 10) = Ok [] /\
  (exists e,
     sliding.Make (sliding.New None) context.Background examples.gap
       (contract.BatchLimit.mk 10) = Err e /\
     errors.Is e errors.ErrInvalidInput = false /\
     diag.Classify (Some e) = diag.CodeUnknown) /\
  (exists e,
     sliding.Make examples.batcher1 context.Background examples.large
       (contract.BatchLimit.mk 4) = Err e /\
     errors.Is e errors.ErrBudgetExceeded = false /\
     diag.Classify (Some e) = diag.CodeUnknown).
Proof.
  split; [reflexivity|]. split; eexists; (split; [vm_compute; reflexivity|]);
    split; reflexivity.
Qed.

Lemma Make_failures_witness :
  sliding.Make examples.batcher1 context.Background examples.large
    (contract.BatchLimit.mk 4) = Err (errors.New batchspec.msg_no_fit).
Proof.
  refine (proj1 (proj2 (proj1 (proj2 (proj2
    (Make_failures (Some examples.opts1) context.Background examples.large
       (contract.BatchLimit.mk 4)))) _ _ _ _ _ _ eq_refl)) _ _).
  - reflexivity.
  - intros k. reflexivity.
  - vm_compute. reflexivity.
  - split; [vm_compute; discriminate|]. split; [|vm_compute; discriminate].
    repeat constructor; vm_compute; discriminate.
  - intros [|[|[|i]]] r Hr; vm_compute in Hr; inversion Hr; subst; split; reflexivity.
  - exists 0. split; [split; [lia|reflexivity]|]. vm_compute. intros H. by apply H.
Defined.



(** ** The response validator *)

Section validate_facts.
Import goint contract validate validspec.
Implicit Types (cands : list (SpanCandidate.t MetaRef)) (spans : list (SpanResult.t MetaRef))
  (h : store).

Lemma cloneString_id s : cloneString s = s.
Proof.
  unfold cloneString. destruct (String.eqb_spec s ""); [done|].
  apply string_of_list_ascii_of_string.
Qed.

Lemma cloneMeta_spec m h m' h' :
  cloneMeta m h = (m', h') ->
  h `prefix_of` h' /\
  match m with
  | None => m' = None /\ h' = h
  | Some l => m' = Some (length h) /\ h' !! length h = Some (default ∅ (h !! l))
  end.
Proof.
  unfold cloneMeta. destruct m as [l|]; intros H; inversion H; subst; clear H.
  - split; [by apply prefix_app_r|]. split; [done|].
    rewrite lookup_app_r by lia. rewrite Nat.sub_diag. simpl. f_equal.
    apply (map_fold_weak_ind (fun r (m : gmap string string) => r = m)); [done|].
    intros k v m r Hk ->. by rewrite !cloneString_id.
  - done.
Qed.

Lemma perRecordLoop_Ok_inv fid cands expect spans h0 h spans' e' h' :
  perRecordLoop fid cands expect spans h = (Ok (spans', e'), h') ->
  in_range expect -> expect + llen cands - 1 <= max_int ->
  h0 `prefix_of` h -> allocated h0 cands ->
  map (fun c => (SpanCandidate.From c, SpanCandidate.To c)) cands
    = map (fun i => (i, i)) (seqZ expect (llen cands)) /\
  h `prefix_of` h' /\
  exists new, spans' = spans ++ new /\ Forall2 (copy_of fid h0 h') cands new.
Proof.
  revert expect spans h. induction cands as [|c cands IH];
    intros expect spans h Hrun He Hmax Hh0 Hal.
  - simpl in Hrun. inversion Hrun; subst. split; [done|]. split; [done|].
    exists []. by rewrite app_nil_r.
  - simpl in Hrun.
    destruct (Z.gtb_spec (SpanCandidate.From c) (SpanCandidate.To c)); [discriminate|].
    destruct (Z.eqb_spec (SpanCandidate.From c) (SpanCandidate.To c)) as [Hft|];
      [|discriminate].
    destruct (Z.eqb_spec (SpanCandidate.From c) expect) as [Hfe|]; [|discriminate].
    simpl in Hrun.
    destruct (cloneMeta (SpanCandidate.Meta c) h) as [meta h1] eqn:Hcl.
    apply cloneMeta_spec in Hcl as [Hpre Hcl].
    apply Forall_cons in Hal as [Halc Hal].
    unfold llen in Hmax |- *. simpl length in Hmax |- *.
    apply IH in Hrun as (Hmap & Hpre' & new & -> & Hnew); auto.
    2:{ apply wrap_in_range. }
    2:{ destruct cands as [|c' cands'].
        - pose proof (wrap_in_range (expect + 1)) as [_ ?]. unfold llen, add. simpl. lia.
        - unfold llen in *. simpl length in *. rewrite add_id; [lia|].
          unfold in_range, min_int, max_int in *. lia. }
    2:{ by etransitivity. }
    split; [|split].
    + replace (Z.of_nat (S (length cands))) with (Z.succ (Z.of_nat (length cands))) by lia.
      rewrite seqZ_cons by lia. simpl. rewrite <- Hft, Hfe. f_equal.
      rewrite Hmap. unfold llen. rewrite Z.pred_succ.
      destruct cands as [|c' cands']; [done|].
      simpl length in *. rewrite add_id; [done|].
      unfold in_range, min_int, max_int in *. lia.
    + by etransitivity.
    + eexists. split; [by rewrite <- app_assoc|].
      constructor; [|done].
      repeat split; simpl; try done; [apply cloneString_id|].
      destruct (SpanCandidate.Meta c) as [l|].
      * destruct Hcl as [-> Hlk]. exists (length h). split; [done|].
        split; [by apply prefix_length|].
        destruct Hpre' as [k ->]. rewrite lookup_app_l by (by apply lookup_lt_Some in Hlk).
        rewrite Hlk. do 2 f_equal.
        destruct Hh0 as [k0 ->]. by rewrite lookup_app_l.
      * by destruct Hcl as [-> _].
Qed.

Lemma perRecordLoop_complete fid cands expect spans h :
  in_range expect -> expect + llen cands - 1 <= max_int ->
  map (fun c => (SpanCandidate.From c, SpanCandidate.To c)) cands
    = map (fun i => (i, i)) (seqZ expect (llen cands)) ->
  exists spans' h',
    perRecordLoop fid cands expect spans h
    = (Ok (spans', final_expect expect (llen cands)), h').
Proof.
  revert expect spans h. induction cands as [|c cands IH]; intros expect spans h He Hmax Hmap.
  - simpl. eauto.
  - unfold llen in *. simpl length in *.
    replace (Z.of_nat (S (length cands))) with (Z.succ (Z.of_nat (length cands))) in Hmap
      by lia.
    rewrite seqZ_cons in Hmap by lia. simpl in Hmap. injection Hmap as Hf Ht Hrest.
    cbn [perRecordLoop]. rewrite Hf, Ht.
    destruct (Z.gtb_spec expect expect); [lia|]. rewrite Z.eqb_refl. cbn [negb].
    destruct (cloneMeta (SpanCandidate.Meta c) h) as [meta h1].
    rewrite Z.pred_succ in Hrest.
    destruct cands as [|c' cands'].
    + cbn [perRecordLoop]. unfold final_expect. simpl.
      replace (expect + Z.of_nat 1 - 1) with expect by lia. eauto.
    + simpl length in *.
      assert (Hadd : add expect 1 = expect + 1).
      { apply add_id. unfold in_range, min_int, max_int in *. lia. }
      destruct (IH (add expect 1)
                  (spans ++ [SpanResult.mk fid expect expect
                               (cloneString (SpanCandidate.Output c)) meta]) h1)
        as (spans' & h' & Hrun).
      * apply wrap_in_range.
      * rewrite Hadd. unfold llen. simpl length. lia.
      * rewrite Hadd. exact Hrest.
      * rewrite Hrun. do 2 eexists. do 3 f_equal. unfold final_expect, llen.
        simpl length. rewrite Hadd.
        destruct (Z.eqb_spec (Z.of_nat (S (length cands'))) 0); [lia|].
        destruct (Z.eqb_spec (Z.of_nat (S (S (length cands')))) 0); [lia|].
        f_equal. lia.
Qed.


Lemma exact_points_length {M} from to (cands : list (SpanCandidate.t M)) :
  from <= to -> exact_points from to cands -> llen cands = to - from + 1.
Proof.
  intros Hle H. apply (f_equal length) in H. rewrite !length_map, length_seqZ in H.
  unfold llen. lia.
Qed.

(** C8. For a target whose indices are record positions ([0 <= From],
    [To] a 64-bit value) and a candidate slice of a representable length:
    [ValidatePerRecord] returns spans without error iff [From <= To] and the
    candidates are exactly the single points [i,i] for [i = From .. To] in
    ascending order; it returns [ErrInvalidInput] when [From > To]; and on
    success the i-th span is bound to the target's FileID, has the i-th
    candidate's range and Output, and its Meta is nil when the candidate's
    is, otherwise a map newly allocated by the call with the candidate's
    contents, every map that existed before being left as it was. *)
Theorem ValidatePerRecord_spec tgt cands h :
  0 <= Target.From tgt -> Target.To tgt <= max_int ->
  llen cands <= max_int -> allocated h cands ->
  ((exists spans h', ValidatePerRecord tgt cands h = (Ok spans, h')) <->
   Target.From tgt <= Target.To tgt /\
   exact_points (Target.From tgt) (Target.To tgt) cands) /\
  (Target.From tgt > Target.To tgt ->
   ValidatePerRecord tgt cands h = (Err (errors.Known errors.ErrInvalidInput), h)) /\
  (forall spans h', ValidatePerRecord tgt cands h = (Ok spans, h') ->
   Forall2 (copy_of (Target.FileID tgt) h h') cands spans /\ h `prefix_of` h').
Proof.
  intros Hfrom Hto Hlen Hal. unfold ValidatePerRecord.
  destruct (Z.gtb_spec (Target.From tgt) (Target.To tgt)) as [Hgt|Hle].
  { split; [|split]; [|done|intros ?? [=]].
    split; [intros (? & ? & [=])|lia]. }
  unfold max_int in *.
  rewrite (sub_id (Target.To tgt) (Target.From tgt))
    by (unfold in_range, min_int, max_int; lia).
  destruct (Z.eq_dec (Target.To tgt - Target.From tgt) (2 ^ 63 - 1)) as [Hbig|Hsmall].
  { (* the length overflows: no slice is that long *)
    pose proof (wrap_in_range (Target.To tgt - Target.From tgt + 1)) as Hw.
    assert (Hne : llen cands <> add (Target.To tgt - Target.From tgt) 1).
    { unfold add. rewrite Hbig.
      replace (wrap (2 ^ 63 - 1 + 1)) with (- 2 ^ 63) by (vm_compute; reflexivity).
      unfold llen. lia. }
    destruct (Z.eqb_spec (llen cands) (add (Target.To tgt - Target.From tgt) 1));
      [done|]. simpl.
    split; [|split]; [|lia|intros ?? [=]].
    split; [intros (? & ? & [=])|].
    intros [_ Hex]. apply exact_points_length in Hex; lia. }
  rewrite add_id by (unfold in_range, min_int, max_int; lia).
  destruct (Z.eqb_spec (llen cands) (Target.To tgt - Target.From tgt + 1)) as [Hn|Hn];
    simpl.
  2:{ split; [|split]; [|lia|intros ?? [=]].
      split; [intros (? & ? & [=])|].
      intros [_ Hex]. apply exact_points_length in Hex; lia. }
  destruct (perRecordLoop (Target.FileID tgt) cands (Target.From tgt) [] h)
    as [[[spans e']|e|] h1] eqn:Hrun.
  - destruct (perRecordLoop_Ok_inv _ _ _ _ h _ _ _ _ Hrun) as (Hmap & Hpre & new & -> & Hnew);
      auto; try (unfold in_range, min_int, max_int; lia).
    rewrite Hn in Hmap.
    destruct (perRecordLoop_complete (Target.FileID tgt) cands (Target.From tgt) [] h)
      as (spans2 & h2 & Hrun2); try (unfold in_range, min_int, max_int; lia).
    { by rewrite Hn. }
    rewrite Hrun in Hrun2. injection Hrun2 as _ He' _.
    assert (He : e' = add (Target.To tgt) 1).
    { rewrite He'. unfold final_expect. rewrite Hn.
      destruct (Z.eqb_spec (Target.To tgt - Target.From tgt + 1) 0); [lia|].
      f_equal. lia. }
    rewrite He, Z.eqb_refl. simpl.
    split; [|split]; [|lia|].
    + split; [done|]. eauto.
    + intros ?? [= <- <-]. done.
  - split; [|split]; [|lia|intros ?? [=]].
    split; [intros (? & ? & [=])|]. intros [_ Hex].
    destruct (perRecordLoop_complete (Target.FileID tgt) cands (Target.From tgt) [] h)
      as (spans2 & h2 & Hrun2); try (unfold in_range, min_int, max_int; lia).
    { rewrite Hn. exact Hex. }
    congruence.
  - split; [|split]; [|lia|intros ?? [=]].
    split; [intros (? & ? & [=])|]. intros [_ Hex].
    destruct (perRecordLoop_complete (Target.FileID tgt) cands (Target.From tgt) [] h)
      as (spans2 & h2 & Hrun2); try (unfold in_range, min_int, max_int; lia).
    { rewrite Hn. exact Hex. }
    congruence.
Qed.

End validate_facts.

Lemma ValidatePerRecord_spec_witness :
  exists spans h',
    validate.ValidatePerRecord examples.target35 examples.cands35 examples.store1
    = (Ok spans, h').
Proof.
  refine (proj2 (proj1 (ValidatePerRecord_spec examples.target35 examples.cands35
                           examples.store1 _ _ _ _)) _).
  - vm_compute. discriminate.
  - vm_compute. discriminate.
  - vm_compute. discriminate.
  - repeat constructor.
  - split; [vm_compute; discriminate|reflexivity].
Defined.

(** Outside the index domain the length computation can wrap: for the target
    [MinInt64, MaxInt64] it yields 0 and the empty candidate list passes.
    Record positions are never negative, which the hypothesis [0 <= From]
    of [ValidatePerRecord_spec] records. *)
Example ValidatePerRecord_wraps_outside_the_index_domain :
  validate.ValidatePerRecord
    (contract.Target.mk "f" goint.min_int goint.max_int) [] []
  = (Ok [], []).
Proof. vm_compute. reflexivity. Qed.


(** ** Error classification *)

Section classify_facts.
Import errors diag errspec.

(** Induction over error values, through the lists of wrapped errors. *)
Lemma error_tree_ind (P : error -> Prop) :
  (forall w, P (Known w)) ->
  (forall s, P (errorString s)) ->
  (forall msg e, P e -> P (wrapError msg e)) ->
  (forall es, Forall P es -> P (joinError es)) ->
  (forall op p e, P e -> P (PathError op p e)) ->
  (forall op e, P e -> P (OpError op e)) ->
  (forall s, P (DNSError s)) ->
  (forall st msg, P (upstreamError st msg)) ->
  (forall m es, Forall P es -> P (Custom m es)) ->
  forall e, P e.
Proof.
  intros Hk Hs Hw Hj Hp Ho Hd Hu Hc. fix IH 1. intros [w|s|msg e|es|op p e|op e|s|st msg|m es].
  - apply Hk.
  - apply Hs.
  - apply Hw, IH.
  - apply Hj. induction es as [|e es IHes]; constructor; [apply IH|apply IHes].
  - apply Hp, IH.
  - apply Ho, IH.
  - apply Hd.
  - apply Hu.
  - apply Hc. induction es as [|e es IHes]; constructor; [apply IH|apply IHes].
Qed.

Lemma known_eqb_eq a b : known_eqb a b = true <-> a = b.
Proof. destruct a, b; simpl; split; intros; congruence. Qed.

Lemma existsb_somewhere (f : error -> bool) (P : error -> Prop) es :
  Forall (fun e => f e = true <-> somewhere P e) es ->
  existsb f es = true <-> exists e, e ∈ es /\ somewhere P e.
Proof.
  intros HF. rewrite existsb_exists. split.
  - intros (e & Hin & He). exists e. apply list_elem_of_In in Hin. split; [done|].
    rewrite Forall_forall in HF. by apply HF.
  - intros (e & Hin & He). exists e. split; [by apply list_elem_of_In|].
    rewrite Forall_forall in HF. by apply HF.
Qed.

Lemma Is_somewhere e w : Is e w = true <-> somewhere (is_known w) e.
Proof.
  induction e as [w'|s|msg e IH|es IH|op p e IH|op e IH|s|st msg|m es IH]
    using error_tree_ind; simpl.
  - rewrite known_eqb_eq. split.
    + intros ->. exists (Known w). split; [constructor|by left].
    + intros (x & Hn & Hx). inversion Hn; subst.
      destruct Hx as [[=]|(? & ? & [=] & _)]. done.
  - split; [done|]. intros (x & Hn & Hx). inversion Hn; subst.
    by destruct Hx as [[=]|(? & ? & [=] & _)].
  - rewrite IH. split.
    + intros (x & Hn & Hx). exists x. split; [by constructor|done].
    + intros (x & Hn & Hx). inversion Hn; subst.
      * by destruct Hx as [[=]|(? & ? & [=] & _)].
      * by exists x.
  - rewrite (existsb_somewhere _ _ _ IH). split.
    + intros (e & Hin & x & Hn & Hx). exists x. split; [by econstructor|done].
    + intros (x & Hn & Hx). inversion Hn; subst.
      * by destruct Hx as [[=]|(? & ? & [=] & _)].
      * exists e. split; [done|]. by exists x.
  - rewrite IH. split.
    + intros (x & Hn & Hx). exists x. split; [by constructor|done].
    + intros (x & Hn & Hx). inversion Hn; subst.
      * by destruct Hx as [[=]|(? & ? & [=] & _)].
      * by exists x.
  - rewrite IH. split.
    + intros (x & Hn & Hx). exists x. split; [by constructor|done].
    + intros (x & Hn & Hx). inversion Hn; subst.
      * by destruct Hx as [[=]|(? & ? & [=] & _)].
      * by exists x.
  - split; [done|]. intros (x & Hn & Hx). inversion Hn; subst.
    by destruct Hx as [[=]|(? & ? & [=] & _)].
  - split; [done|]. intros (x & Hn & Hx). inversion Hn; subst.
    by destruct Hx as [[=]|(? & ? & [=] & _)].
  - rewrite orb_true_iff, (existsb_somewhere _ _ _ IH). split.
    + intros [Hm|(e & Hin & x & Hn & Hx)].
      * exists (Custom m es). split; [constructor|]. right. eauto.
      * exists x. split; [by econstructor|done].
    + intros (x & Hn & Hx). inversion Hn; subst.
      * destruct Hx as [[=]|(? & ? & [= <- <-] & Hm)]. by left.
      * right. exists e. split; [done|]. by exists x.
Qed.


(** A node test that fails at the root of [e] passes somewhere in [e] only
    below the root. *)
Ltac below_root Hn Hx tac :=
  inversion Hn; subst;
  [exfalso; tac Hx
  | first [ eexists; split; eassumption
          | eexists; split; [eassumption|]; eexists; split; eassumption ] ].

Ltac no_path_error Hx :=
  destruct Hx as [(? & ? & ? & [=])|(? & ? & [=] & _)].
Ltac no_net_error Hx :=
  destruct Hx as [[=]|[(? & ? & [=])|[(? & [=])|[(? & ? & [=])|(? & ? & [=] & _)]]]].

Lemma AsPathError_somewhere e : AsPathError e = true <-> io_like e.
Proof.
  unfold io_like.
  induction e as [w'|s|msg e IH|es IH|op p e IH|op e IH|s|st msg|m es IH]
    using error_tree_ind; simpl.
  - split; [done|]. intros (x & Hn & Hx). inversion Hn; subst. no_path_error Hx.
  - split; [done|]. intros (x & Hn & Hx). inversion Hn; subst. no_path_error Hx.
  - rewrite IH. split.
    + intros (x & Hn & Hx). exists x. split; [by constructor|done].
    + intros (x & Hn & Hx). below_root Hn Hx no_path_error.
  - rewrite (existsb_somewhere _ _ _ IH). split.
    + intros (e & Hin & x & Hn & Hx). exists x. split; [by econstructor|done].
    + intros (x & Hn & Hx). below_root Hn Hx no_path_error.
  - split; [|done]. intros _. exists (PathError op p e). split; [constructor|].
    left. eauto.
  - rewrite IH. split.
    + intros (x & Hn & Hx). exists x. split; [by constructor|done].
    + intros (x & Hn & Hx). below_root Hn Hx no_path_error.
  - split; [done|]. intros (x & Hn & Hx). inversion Hn; subst. no_path_error Hx.
  - split; [done|]. intros (x & Hn & Hx). inversion Hn; subst. no_path_error Hx.
  - rewrite orb_true_iff, (existsb_somewhere _ _ _ IH). split.
    + intros [Hm|(e & Hin & x & Hn & Hx)].
      * exists (Custom m es). split; [constructor|]. right. eauto.
      * exists x. split; [by econstructor|done].
    + intros (x & Hn & Hx). inversion Hn; subst.
      * destruct Hx as [(? & ? & ? & [=])|(? & ? & [= <- <-] & Hm)]. by left.
      * right. eexists. split; [eassumption|]. eexists. split; eassumption.
Qed.

Lemma AsNetError_somewhere e : AsNetError e = true <-> network_like e.
Proof.
  unfold network_like.
  induction e as [w'|s|msg e IH|es IH|op p e IH|op e IH|s|st msg|m es IH]
    using error_tree_ind; simpl.
  - assert (Hd : somewhere is_net_error (Known DeadlineExceeded)).
    { exists (Known DeadlineExceeded). split; [constructor|by left]. }
    destruct w'; (split; [done || (intros _; exact Hd)|]);
      try (intros _; reflexivity);
      intros (x & Hn & Hx); inversion Hn; subst; no_net_error Hx.
  - split; [done|]. intros (x & Hn & Hx). inversion Hn; subst. no_net_error Hx.
  - rewrite IH. split.
    + intros (x & Hn & Hx). exists x. split; [by constructor|done].
    + intros (x & Hn & Hx). below_root Hn Hx no_net_error.
  - rewrite (existsb_somewhere _ _ _ IH). split.
    + intros (e & Hin & x & Hn & Hx). exists x. split; [by econstructor|done].
    + intros (x & Hn & Hx). below_root Hn Hx no_net_error.
  - rewrite IH. split.
    + intros (x & Hn & Hx). exists x. split; [by constructor|done].
    + intros (x & Hn & Hx). below_root Hn Hx no_net_error.
  - split; [|done]. intros _. exists (OpError op e). split; [constructor|].
    right. left. eauto.
  - split; [|done]. intros _. exists (DNSError s). split; [constructor|].
    right. right. left. eauto.
  - split; [|done]. intros _. exists (upstreamError st msg). split; [constructor|].
    right. right. right. left. eauto.
  - rewrite orb_true_iff, (existsb_somewhere _ _ _ IH). split.
    + intros [Hm|(e & Hin & x & Hn & Hx)].
      * exists (Custom m es). split; [constructor|]. do 4 right. eauto.
      * exists x. split; [by econstructor|done].
    + intros (x & Hn & Hx). inversion Hn; subst.
      * destruct Hx as [[=]|[(? & ? & [=])|[(? & [=])|[(? & ? & [=])
                        |(? & ? & [= <- <-] & Hm)]]]]. by left.
      * right. eexists. split; [eassumption|]. eexists. split; eassumption.
Qed.


Lemma Is_wraps msgs e w : Is (wraps msgs e) w = Is e w.
Proof. induction msgs as [|m msgs IH]; simpl; auto. Qed.

Lemma AsPathError_wraps msgs e : AsPathError (wraps msgs e) = AsPathError e.
Proof. induction msgs as [|m msgs IH]; simpl; auto. Qed.

Lemma AsNetError_wraps msgs e : AsNetError (wraps msgs e) = AsNetError e.
Proof. induction msgs as [|m msgs IH]; simpl; auto. Qed.

Lemma orb_prop_iff (a b : bool) (A B : Prop) :
  (a = true <-> A) -> (b = true <-> B) -> (a || b = true <-> A \/ B).
Proof. rewrite orb_true_iff. tauto. Qed.

Lemma Classify_cases e :
  let c := Classify (Some e) in
  (cancel_like e -> c = CodeCancel) /\
  (~ cancel_like e -> budget_like e -> c = CodeBudget) /\
  (~ cancel_like e -> ~ budget_like e -> protocol_like e -> c = CodeProtocol) /\
  (~ cancel_like e -> ~ budget_like e -> ~ protocol_like e -> invariant_like e ->
     c = CodeInvariant) /\
  (~ cancel_like e -> ~ budget_like e -> ~ protocol_like e -> ~ invariant_like e ->
     io_like e -> c = CodeIO) /\
  (~ cancel_like e -> ~ budget_like e -> ~ protocol_like e -> ~ invariant_like e ->
     ~ io_like e -> network_like e -> c = CodeNetwork) /\
  (~ cancel_like e -> ~ budget_like e -> ~ protocol_like e -> ~ invariant_like e ->
     ~ io_like e -> ~ network_like e -> c = CodeUnknown).
Proof.
  assert (Hc : Is e Canceled || Is e DeadlineExceeded = true <-> cancel_like e)
    by (apply orb_prop_iff; apply Is_somewhere).
  assert (Hb : Is e ErrBudgetExceeded || Is e ErrRateLimited = true <-> budget_like e)
    by (apply orb_prop_iff; apply Is_somewhere).
  assert (Hp : Is e ErrResponseInvalid = true <-> protocol_like e)
    by apply Is_somewhere.
  assert (Hi : Is e ErrInvariantViolation || Is e ErrInvalidInput
               || Is e ErrSeqInvalid || Is e ErrPathInvalid = true <-> invariant_like e).
  { unfold invariant_like. rewrite !orb_true_iff, !Is_somewhere. tauto. }
  pose proof (AsPathError_somewhere e) as Ho.
  pose proof (AsNetError_somewhere e) as Hn.
  unfold Classify.
  destruct (Is e Canceled || Is e DeadlineExceeded);
    [repeat split; intros; try done; exfalso; tauto|].
  destruct (Is e ErrBudgetExceeded || Is e ErrRateLimited);
    [repeat split; intros; try done; exfalso; intuition congruence|].
  destruct (Is e ErrResponseInvalid);
    [repeat split; intros; try done; exfalso; intuition congruence|].
  destruct (Is e ErrInvariantViolation || Is e ErrInvalidInput
            || Is e ErrSeqInvalid || Is e ErrPathInvalid);
    [repeat split; intros; try done; exfalso; intuition congruence|].
  destruct (AsPathError e);
    [repeat split; intros; try done; exfalso; intuition congruence|].
  destruct (AsNetError e);
    repeat split; intros; try done; exfalso; intuition congruence.
Qed.

(** C9. [Classify] maps the nil error to [unknown] and every other error to
    the code of the first of these that matches some node of the tree its
    [Unwrap] methods span: context cancellation or deadline (before
    anything else), the budget and rate-limit sentinels, the
    response-invalid sentinel, the four invariant sentinels, an
    [*os.PathError], a [net.Error]; and to [unknown] when none matches. In
    particular each known value, however often wrapped with [%w], classifies
    to its one code, which is not [unknown]. *)
Theorem Classify_spec :
  Classify None = CodeUnknown /\
  (forall e,
     let c := Classify (Some e) in
     (cancel_like e -> c = CodeCancel) /\
     (~ cancel_like e -> budget_like e -> c = CodeBudget) /\
     (~ cancel_like e -> ~ budget_like e -> protocol_like e -> c = CodeProtocol) /\
     (~ cancel_like e -> ~ budget_like e -> ~ protocol_like e -> invariant_like e ->
        c = CodeInvariant) /\
     (~ cancel_like e -> ~ budget_like e -> ~ protocol_like e -> ~ invariant_like e ->
        io_like e -> c = CodeIO) /\
     (~ cancel_like e -> ~ budget_like e -> ~ protocol_like e -> ~ invariant_like e ->
        ~ io_like e -> network_like e -> c = CodeNetwork) /\
     (~ cancel_like e -> ~ budget_like e -> ~ protocol_like e -> ~ invariant_like e ->
        ~ io_like e -> ~ network_like e -> c = CodeUnknown)) /\
  (forall w msgs,
     Classify (Some (wraps msgs (Known w))) = code_of w /\ code_of w <> CodeUnknown).
Proof.
  split; [reflexivity|]. split; [apply Classify_cases|].
  intros w msgs. unfold Classify.
  rewrite !Is_wraps, AsPathError_wraps, AsNetError_wraps.
  destruct w; simpl; split; congruence.
Qed.

(** The cases of the package's own test. *)
Example Classify_test_cases :
  Classify (Some (Known ErrResponseInvalid)) = CodeProtocol /\
  Classify (Some (Known Canceled)) = CodeCancel /\
  Classify (Some (PathError "open" "/" (errors.New "x"))) = CodeIO /\
  Classify (Some (DNSError "x")) = CodeNetwork /\
  Classify (Some (Known ErrBudgetExceeded)) = CodeBudget /\
  Classify (Some (errors.New "other")) = CodeUnknown /\
  Classify (Some (upstreamError 503 "unavailable")) = CodeNetwork.
Proof. repeat split. Qed.

End classify_facts.


(** ** The SRT splitter's extension filter *)

Section srt_facts.
Import contract srt.
Variable ToLower : string -> string.
Variable Reader : Type.
Variable parseBlocks :
  Splitter -> context.Context -> FileID -> Reader ->
  result (list (Rec.t Meta)) * Reader.

Lemma allow_loop_elem (exts : list string) (acc : gset string) x :
  x ∈ foldl (fun (allow : gset string) e =>
               if String.eqb e "" then allow else {[ ToLower e ]} ∪ allow) acc exts
  <-> x ∈ acc \/ exists e, e ∈ exts /\ e <> ""%string /\ x = ToLower e.
Proof.
  revert acc. induction exts as [|e exts IH]; intros acc; simpl.
  - split; [auto|]. intros [?|(e & He & _)]; [done|]. by apply elem_of_nil in He.
  - rewrite IH. destruct (String.eqb_spec e "") as [->|Hne].
    + split.
      * intros [?|(e & He & Hn & ->)]; [by left|]. right. exists e.
        split; [by right|done].
      * intros [?|(e & He & Hn & ->)]; [by left|]. right. exists e.
        apply elem_of_cons in He as [->|He]; [done|]. done.
    + rewrite elem_of_union, elem_of_singleton. split.
      * intros [[->|?]|(e' & He & Hn & ->)]; [|by left|].
        -- right. exists e. split; [by left|done].
        -- right. exists e'. split; [by right|done].
      * intros [?|(e' & He & Hn & ->)]; [left; by right|].
        apply elem_of_cons in He as [->|He]; [left; by left|].
        right. by exists e'.
Qed.

(** C10. A splitter built by [New] with an allow set in force (the default
    [{".srt"}] when no options or no allow list are given, or the
    lower-cased non-empty entries of a non-empty allow list; an explicitly
    empty allow list puts no set in force) returns, for every fileID whose
    lower-cased extension is not in the set, no records and no error, and
    leaves the input stream as it was: the block parser is not run. *)
Theorem Split_skips_foreign_extensions opts ctx fileID (r : Reader) :
  let s := New ToLower opts in
  (forall allowed, allow s = Some allowed ->
     ToLower (Ext fileID) ∉ allowed ->
     Split ToLower Reader parseBlocks s ctx fileID r = (Ok [], r)) /\
  ((opts = None \/ exists o, opts = Some o /\ AllowExts o = None) ->
     allow s = Some {[ ".srt"%string ]}) /\
  (forall o exts, opts = Some o -> AllowExts o = Some exts -> exts <> [] ->
     exists allowed, allow s = Some allowed /\
       forall x, x ∈ allowed <->
         exists e, e ∈ exts /\ e <> ""%string /\ x = ToLower e) /\
  (allow s = None <-> exists o, opts = Some o /\ AllowExts o = Some []).
Proof.
  intros s. split; [|split; [|split]].
  - intros allowed Hal Hnot. unfold Split. rewrite Hal.
    destruct (decide (ToLower (Ext fileID) ∈ allowed)); done.
  - intros [->|(o & -> & Ho)]; [done|]. subst s. unfold New. simpl. by rewrite Ho.
  - intros o exts -> Ho Hne. subst s. unfold New. simpl. rewrite Ho.
    destruct exts as [|e exts]; [done|]. eexists. split; [reflexivity|].
    intros x. rewrite allow_loop_elem.
    split; [intros [H|H]; [by apply elem_of_empty in H|done]|by right].
  - subst s. unfold New. destruct opts as [o|]; simpl.
    + destruct (AllowExts o) as [[|e exts]|] eqn:Ho; simpl; split; try done.
      * intros _. eauto.
      * intros (o' & [= <-] & Ho'). congruence.
      * intros (o' & [= <-] & Ho'). congruence.
    + split; [done|]. by intros (o & [=] & _).
Qed.

End srt_facts.

Lemma Split_skips_foreign_extensions_witness :
  srt.Split examples.ascii_ToLower string examples.parse_consumes
    (srt.New examples.ascii_ToLower None) context.Background
    "subs/Movie.TXT"%string "1"%string
  = (Ok [], "1"%string).
Proof.
  refine (proj1 (Split_skips_foreign_extensions examples.ascii_ToLower string
                   examples.parse_consumes
                   None context.Background "subs/Movie.TXT"%string "1"%string)
            {[ ".srt"%string ]} eq_refl _).
  vm_compute. intros H. discriminate H.
Defined.


(** ** The dispatcher's worker: the retry loop *)

Section worker_facts.
Import goint contract pipeline workerspec.
Variable b : Batch_.
Variable p : Prompt.
Variable tokens attempts : Z.

Lemma shouldRetryInvoke_iff e :
  shouldRetryInvoke (Some e) = true <->
  diag.Classify (Some e) = diag.CodeBudget \/ diag.Classify (Some e) = diag.CodeNetwork.
Proof.
  unfold shouldRetryInvoke. destruct (diag.Classify (Some e)); split; intros H;
    try done; try (by left); try (by right); by destruct H.
Qed.

Lemma shouldRetryDecode_iff e :
  shouldRetryDecode (Some e) = true <-> diag.Classify (Some e) = diag.CodeProtocol.
Proof.
  unfold shouldRetryDecode. destruct (diag.Classify (Some e)); split; intros H; done.
Qed.

(** The loop, one round at a time. *)
Lemma attemptLoop_round' env left k lastErr tr0 :
  k < attempts ->
  attemptLoop env b p tokens (S left) k attempts lastErr tr0 =
  match round env b p tokens attempts k with
  | (evs, Stop r) => (r, tr0 ++ evs)
  | (evs, Retry e) =>
      attemptLoop env b p tokens left (add k 1) attempts (Some e)
        (tr0 ++ evs ++ [EvSleep k 200 (sleepWithCtx (DoneDuringSleep env k) 200)])
  end.
Proof.
  intros Hk. simpl. destruct (Z.ltb_spec k attempts); [|lia].
  unfold round, decoded.
  destruct (GateWait env) as [wait|]; [destruct (wait k _) as [e|]; [done|]|];
    (destruct (Invoke env k b p) as [e|raw];
     [destruct (_ && _)
     |destruct (Decode env) as [d|d];
      [destruct (d k (tgt b) raw) as [e|sp]; [destruct (_ && _)|]
      |destruct (d k (tgt b) raw _) as [e|sp]; [destruct (_ && _)|]]]);
    simpl; rewrite <- ?app_assoc; simpl; reflexivity.
Qed.


Variable env : Env.

Lemma attemptLoop_round left k lastErr tr0 :
  k < attempts ->
  attemptLoop env b p tokens (S left) k attempts lastErr tr0 =
  match round env b p tokens attempts k with
  | (evs, Stop r) => (r, tr0 ++ evs)
  | (evs, Retry e) =>
      attemptLoop env b p tokens left (add k 1) attempts (Some e)
        (tr0 ++ evs ++ [EvSleep k 200 (sleepWithCtx (DoneDuringSleep env k) 200)])
  end.
Proof. apply attemptLoop_round'. Qed.

Hypothesis Hattempts : attempts <= max_int.

Lemma attemptLoop_rounds left k lastErr tr0 r tr :
  0 <= k -> left = Z.to_nat (attempts - k) ->
  attemptLoop env b p tokens left k attempts lastErr tr0 = (r, tr) ->
  exists tail, tr = tr0 ++ tail /\ rounds env b p tokens attempts k tail.
Proof.
  revert k lastErr tr0. induction left as [|left IH]; intros k lastErr tr0 Hk Hleft Hrun.
  - simpl in Hrun. inversion Hrun; subst. exists []. rewrite app_nil_r. split; [done|].
    apply rounds_over. lia.
  - assert (Hlt : k < attempts) by lia.
    rewrite attemptLoop_round in Hrun by done.
    destruct (round env b p tokens attempts k) as [evs [r'|e]] eqn:Hround.
    + inversion Hrun; subst. exists evs. split; [done|]. by eapply rounds_stop.
    + unfold max_int in Hattempts.
      rewrite add_id in Hrun by (unfold in_range, min_int, max_int; lia).
      apply IH in Hrun as (tail & -> & Htail); [|lia|lia].
      eexists. split; [|by eapply rounds_retry].
      by rewrite <- !app_assoc.
Qed.

Local Arguments shouldRetryInvoke : simpl never.
Local Arguments shouldRetryDecode : simpl never.

Local Ltac mem H :=
  solve [apply list_elem_of_In in H; simpl in H; intuition congruence].

(** What one round leaves. *)
Lemma round_inv k evs o :
  round env b p tokens attempts k = (evs, o) ->
  (exists ev rest, evs = ev :: rest /\ opens k ev) /\
  (forall j, made evs j -> j = k) /\
  (forall j ms x, EvSleep j ms x ∉ evs) /\
  (forall j, EvInvoke j ∈ evs -> j = k) /\
  (forall j, EvDecode j ∈ evs -> j = k) /\
  (length (filter is_invoke evs) <= 1)%nat /\
  (forall e, EvInvoke k ∈ evs -> Invoke env k b p = inl e ->
     ((exists e', o = Retry e') <->
      add k 1 < attempts /\ shouldRetryInvoke (Some e) = true)) /\
  (forall raw e, EvDecode k ∈ evs -> Invoke env k b p = inr raw ->
     decoded env b k raw = inl e ->
     ((exists e', o = Retry e') <->
      add k 1 < attempts /\ shouldRetryDecode (Some e) = true)).
Proof.
  unfold round, made, opens. intros Hr.
  destruct (GateWait env) as [wait|]; [destruct (wait k _) as [e|]|];
    [|destruct (Invoke env k b p) as [e|raw]; [|destruct (decoded env b k raw) as [e|sp] eqn:Hdec]
     |destruct (Invoke env k b p) as [e|raw]; [|destruct (decoded env b k raw) as [e|sp] eqn:Hdec]];
    simplify_eq; simpl;
    (split; [eauto 8|]);
    (split; [intros j [Hm|[a Hm]]; mem Hm|]);
    (split; [intros j ms x Hm; mem Hm|]);
    (split; [intros j Hm; mem Hm|]);
    (split; [intros j Hm; mem Hm|]);
    (split; [lia|]);
    (split; [intros e0 Hin Heq|intros raw0 e0 Hin Heq Hd]);
    try discriminate Heq; try mem Hin; injection Heq as <-;
    try (rewrite Hdec in Hd; try discriminate Hd; injection Hd as <-);
    try (destruct (Z.ltb_spec (add k 1) attempts), (shouldRetryInvoke (Some e));
         simpl; (split; [intros [e' He']|intros [? ?]]);
         first [done | lia | by eexists]);
    try (destruct (Z.ltb_spec (add k 1) attempts), (shouldRetryDecode (Some e));
         simpl; (split; [intros [e' He']|intros [? ?]]);
         first [done | lia | by eexists]).
Qed.


Lemma made_app tr1 tr2 j : made (tr1 ++ tr2) j <-> made tr1 j \/ made tr2 j.
Proof.
  unfold made. setoid_rewrite elem_of_app. split.
  - intros [[H|H]|[a [H|H]]]; eauto.
  - intros [[H|[a H]]|[H|[a H]]]; eauto.
Qed.

Lemma made_sleep k ms x tr j : made (EvSleep k ms x :: tr) j <-> made tr j.
Proof.
  unfold made. setoid_rewrite elem_of_cons. split.
  - intros [[H|H]|[a [H|H]]]; try done; eauto.
  - intros [H|[a H]]; eauto.
Qed.

Lemma made_opens k ev post : opens k ev -> made (ev :: post) k.
Proof.
  unfold made. intros [->|[a ->]]; [left|right; exists a]; apply elem_of_cons; by left.
Qed.

Lemma rounds_head k tail :
  rounds env b p tokens attempts k tail -> k < attempts ->
  exists ev post, tail = ev :: post /\ opens k ev.
Proof.
  intros H Hk. destruct H as [k Hge|k evs r Hlt Hr|k evs e tail Hlt Hr Htail]; [lia| |].
  - by apply round_inv in Hr as [? _].
  - apply round_inv in Hr as [(ev & rest & -> & Hop) _]. simpl. eauto.
Qed.

Lemma rounds_made k tail j :
  rounds env b p tokens attempts k tail -> made tail j -> k <= j < attempts.
Proof.
  induction 1 as [k Hge|k evs r Hlt Hr|k evs e tail Hlt Hr Htail IH]; intros Hm.
  - destruct Hm as [Hm|[a Hm]]; by apply elem_of_nil in Hm.
  - apply round_inv in Hr as (_ & Hk & _). apply Hk in Hm. lia.
  - apply made_app in Hm as [Hm|Hm].
    + apply round_inv in Hr as (_ & Hk & _). apply Hk in Hm. lia.
    + apply made_sleep in Hm. apply IH in Hm. lia.
Qed.

Lemma rounds_decode k tail j :
  rounds env b p tokens attempts k tail -> EvDecode j ∈ tail -> k <= j.
Proof.
  induction 1 as [k Hge|k evs r Hlt Hr|k evs e tail Hlt Hr Htail IH]; intros Hm.
  - by apply elem_of_nil in Hm.
  - apply round_inv in Hr as (_ & _ & _ & _ & Hk & _). apply Hk in Hm. lia.
  - apply elem_of_app in Hm as [Hm|Hm].
    + apply round_inv in Hr as (_ & _ & _ & _ & Hk & _). apply Hk in Hm. lia.
    + apply elem_of_cons in Hm as [Hm|Hm]; [done|]. apply IH in Hm. lia.
Qed.

Lemma rounds_count k tail :
  rounds env b p tokens attempts k tail -> k <= attempts ->
  (length (filter is_invoke tail) <= Z.to_nat (attempts - k))%nat.
Proof.
  induction 1 as [k Hge|k evs r Hlt Hr|k evs e tail Hlt Hr Htail IH]; intros Hle.
  - simpl. lia.
  - apply round_inv in Hr as (_ & _ & _ & _ & _ & Hn & _). lia.
  - apply round_inv in Hr as (_ & _ & _ & _ & _ & Hn & _).
    rewrite filter_app, length_app, filter_cons. simpl.
    specialize (IH ltac:(lia)). lia.
Qed.

(** After a failed invocation in round [j], round [j+1] is made exactly
    when [shouldRetryInvoke] says so and it is not the last round. *)
Lemma rounds_invoke_retry k tail j e :
  rounds env b p tokens attempts k tail -> 0 <= k ->
  EvInvoke j ∈ tail -> Invoke env j b p = inl e ->
  (made tail (j + 1) <-> j + 1 < attempts /\ shouldRetryInvoke (Some e) = true).
Proof.
  unfold max_int in Hattempts.
  induction 1 as [k Hge|k evs r Hlt Hr|k evs e' tail Hlt Hr Htail IH]; intros H0 Hin Hinv.
  - by apply elem_of_nil in Hin.
  - pose proof (round_inv _ _ _ Hr) as (_ & Hk & _ & Hi & _ & _ & Hret & _).
    apply Hi in Hin as Hj. subst j.
    specialize (Hret e Hin Hinv).
    rewrite add_id in Hret by (unfold in_range, min_int, max_int; lia).
    rewrite <- Hret. split.
    + intros Hm. apply Hk in Hm. lia.
    + intros [e' [=]].
  - pose proof (round_inv _ _ _ Hr) as (_ & Hk & _ & Hi & _ & _ & Hret & _).
    rewrite made_app, made_sleep.
    apply elem_of_app in Hin as [Hin|Hin].
    + apply Hi in Hin as Hj. subst j.
      specialize (Hret e Hin Hinv).
      rewrite add_id in Hret by (unfold in_range, min_int, max_int; lia).
      rewrite <- Hret. split; [eauto|]. intros _. right.
      assert (Hnext : k + 1 < attempts) by (apply Hret; eauto).
      destruct (rounds_head _ _ Htail Hnext) as (ev & post & -> & Hop).
      by apply made_opens.
    + apply elem_of_cons in Hin as [Hin|Hin]; [done|].
      rewrite <- (IH ltac:(lia) Hin Hinv). split; [|by right].
      intros [Hm|Hm]; [|done]. apply Hk in Hm.
      assert (k + 1 <= j) by (eapply rounds_made; [done|]; by left). lia.
Qed.

Lemma rounds_decode_retry k tail j raw e :
  rounds env b p tokens attempts k tail -> 0 <= k ->
  EvDecode j ∈ tail -> Invoke env j b p = inr raw -> decoded env b j raw = inl e ->
  (made tail (j + 1) <-> j + 1 < attempts /\ shouldRetryDecode (Some e) = true).
Proof.
  unfold max_int in Hattempts.
  induction 1 as [k Hge|k evs r Hlt Hr|k evs e' tail Hlt Hr Htail IH]; intros H0 Hin Hinv Hdec.
  - by apply elem_of_nil in Hin.
  - pose proof (round_inv _ _ _ Hr) as (_ & Hk & _ & _ & Hi & _ & _ & Hret).
    apply Hi in Hin as Hj. subst j.
    specialize (Hret raw e Hin Hinv Hdec).
    rewrite add_id in Hret by (unfold in_range, min_int, max_int; lia).
    rewrite <- Hret. split.
    + intros Hm. apply Hk in Hm. lia.
    + intros [e' [=]].
  - pose proof (round_inv _ _ _ Hr) as (_ & Hk & _ & _ & Hi & _ & _ & Hret).
    rewrite made_app, made_sleep.
    apply elem_of_app in Hin as [Hin|Hin].
    + apply Hi in Hin as Hj. subst j.
      specialize (Hret raw e Hin Hinv Hdec).
      rewrite add_id in Hret by (unfold in_range, min_int, max_int; lia).
      rewrite <- Hret. split; [eauto|]. intros _. right.
      assert (Hnext : k + 1 < attempts) by (apply Hret; eauto).
      destruct (rounds_head _ _ Htail Hnext) as (ev & post & -> & Hop).
      by apply made_opens.
    + apply elem_of_cons in Hin as [Hin|Hin]; [done|].
      rewrite <- (IH ltac:(lia) Hin Hinv Hdec). split; [|by right].
      intros [Hm|Hm]; [|done]. apply Hk in Hm.
      assert (k + 1 <= j) by (eapply rounds_decode; done). lia.
Qed.

(** Round [j+1] starts right after the 200 ms sleep of round [j]. *)
Lemma rounds_sleep k tail j :
  rounds env b p tokens attempts k tail -> k <= j -> made tail (j + 1) ->
  exists pre ev post,
    tail = pre ++ EvSleep j 200 (sleepWithCtx (DoneDuringSleep env j) 200) :: ev :: post /\
    opens (j + 1) ev /\ ~ made pre (j + 1).
Proof.
  induction 1 as [k Hge|k evs r Hlt Hr|k evs e' tail Hlt Hr Htail IH]; intros Hkj Hm.
  - destruct Hm as [Hm|[a Hm]]; by apply elem_of_nil in Hm.
  - apply round_inv in Hr as (_ & Hk & _). apply Hk in Hm. lia.
  - pose proof (round_inv _ _ _ Hr) as (_ & Hk & _).
    apply made_app in Hm as [Hm|Hm]; [apply Hk in Hm; lia|].
    apply made_sleep in Hm.
    destruct (decide (j = k)) as [->|Hne].
    + pose proof (rounds_made _ _ _ Htail Hm) as Hb.
      destruct (rounds_head _ _ Htail ltac:(lia)) as (ev & post & -> & Hop).
      exists evs, ev, post. split; [done|]. split; [done|].
      intros Hm'. apply Hk in Hm'. lia.
    + destruct (IH ltac:(lia) Hm) as (pre & ev & post & -> & Hop & Hpre).
      exists (evs ++ EvSleep k 200 (sleepWithCtx (DoneDuringSleep env k) 200) :: pre), ev, post.
      split; [by rewrite <- app_assoc|]. split; [done|].
      rewrite made_app, made_sleep. intros [Hm'|Hm']; [|done].
      apply Hk in Hm'. lia.
Qed.


(** The worker does not look at what the sleeps return. *)
Lemma attemptLoop_sleeps fired left k lastErr tr0 tr0' :
  filter awake tr0' = filter awake tr0 ->
  let out := attemptLoop env b p tokens left k attempts lastErr tr0 in
  let out' := attemptLoop (with_sleeps env fired) b p tokens left k attempts lastErr tr0' in
  out'.1 = out.1 /\ filter awake out'.2 = filter awake out.2.
Proof.
  revert k lastErr tr0 tr0'. induction left as [|left IH]; intros k lastErr tr0 tr0' Htr; [done|].
  destruct (Z.ltb_spec k attempts) as [Hlt|Hge].
  - cbv zeta. rewrite !attemptLoop_round' by done.
    change (round (with_sleeps env fired) b p tokens attempts k)
      with (round env b p tokens attempts k).
    destruct (round env b p tokens attempts k) as [evs [r|e]].
    + simpl. by rewrite !filter_app, Htr.
    + apply IH. rewrite !filter_app, Htr. f_equal.
  - simpl. destruct (Z.ltb_spec k attempts); [lia|]. done.
Qed.

End worker_facts.

Section worker_policy.
Import goint contract pipeline workerspec.

Lemma made_build tr j : made (EvBuild :: tr) j <-> made tr j.
Proof.
  unfold made. setoid_rewrite elem_of_cons. split.
  - intros [[H|H]|[a [H|H]]]; try done; eauto.
  - intros [H|[a H]]; eauto.
Qed.

Lemma workerJob_rounds set env b p r tr :
  0 <= MaxRetries set < max_int ->
  Build env b = inr p ->
  workerJob set env b = (r, tr) ->
  exists tokens tail,
    tr = EvBuild :: tail /\
    rounds env b p tokens (MaxRetries set + 1) 0 tail.
Proof.
  unfold max_int. intros Hmax Hbuild Hrun. unfold workerJob in Hrun.
  rewrite Hbuild in Hrun. cbv zeta in Hrun.
  rewrite add_id in Hrun by (unfold in_range, min_int, max_int; lia).
  apply attemptLoop_rounds in Hrun as (tail & -> & Htail);
    [eauto|unfold max_int; lia|lia|f_equal; lia].
Qed.

(** C4. For a job whose prompt was built, under a retry budget
    [0 <= MaxRetries < max_int]: the rounds made are among
    [0 .. MaxRetries] and the model is invoked at most [MaxRetries + 1]
    times; after a failed invocation in round [k] round [k+1] is made
    exactly when a round is left and the error classifies as budget or
    network; after a failed decode, exactly when a round is left and the
    error classifies as protocol; an error classified as cancel,
    invariant, io or unknown is never followed by another round; round
    [k+1] starts right after a 200 ms [sleepWithCtx] that ends round [k],
    and that call returns the context's error when the context is
    cancelled during it; the worker drops that value: what it sends, and
    everything it does but sleep, is the same whatever happens to the
    context during the sleeps. *)
Theorem workerJob_retry_policy set env b p r tr :
  0 <= MaxRetries set < max_int ->
  Build env b = inr p ->
  workerJob set env b = (r, tr) ->
  (forall k, made tr k -> 0 <= k <= MaxRetries set) /\
  (length (filter is_invoke tr) <= Z.to_nat (MaxRetries set + 1))%nat /\
  (forall k e, EvInvoke k ∈ tr -> Invoke env k b p = inl e ->
     (made tr (k + 1) <->
      k + 1 <= MaxRetries set /\
      (diag.Classify (Some e) = diag.CodeBudget \/
       diag.Classify (Some e) = diag.CodeNetwork))) /\
  (forall k raw e, EvDecode k ∈ tr -> Invoke env k b p = inr raw ->
     decoded env b k raw = inl e ->
     (made tr (k + 1) <->
      k + 1 <= MaxRetries set /\ diag.Classify (Some e) = diag.CodeProtocol)) /\
  (forall k e,
     (EvInvoke k ∈ tr /\ Invoke env k b p = inl e) \/
     (exists raw, EvDecode k ∈ tr /\ Invoke env k b p = inr raw /\
                  decoded env b k raw = inl e) ->
     In (diag.Classify (Some e))
        [diag.CodeCancel; diag.CodeInvariant; diag.CodeIO; diag.CodeUnknown] ->
     ~ made tr (k + 1)) /\
  (forall k, 0 <= k -> made tr (k + 1) ->
     exists pre ev post,
       tr = pre ++ EvSleep k 200 (sleepWithCtx (DoneDuringSleep env k) 200)
                :: ev :: post /\
       opens (k + 1) ev /\ ~ made pre (k + 1)) /\
  (forall k e, DoneDuringSleep env k = Some e ->
     sleepWithCtx (DoneDuringSleep env k) 200 = Some e) /\
  (forall fired,
     (workerJob set (with_sleeps env fired) b).1 = r /\
     filter awake (workerJob set (with_sleeps env fired) b).2 = filter awake tr).
Proof.
  intros Hmax Hbuild Hrun.
  destruct (workerJob_rounds _ _ _ _ _ _ Hmax Hbuild Hrun) as (tokens & tail & -> & Htail).
  assert (Hatt : MaxRetries set + 1 <= max_int) by lia.
  assert (Hinv : forall k e, EvInvoke k ∈ EvBuild :: tail -> Invoke env k b p = inl e ->
            (made (EvBuild :: tail) (k + 1) <->
             k + 1 <= MaxRetries set /\
             (diag.Classify (Some e) = diag.CodeBudget \/
              diag.Classify (Some e) = diag.CodeNetwork))).
  { intros k e Hin Hi. apply elem_of_cons in Hin as [Hin|Hin]; [done|].
    rewrite made_build, <- shouldRetryInvoke_iff.
    rewrite (rounds_invoke_retry _ _ _ _ _ Hatt _ _ _ _ Htail ltac:(lia) Hin Hi).
    split; (intros [? ?]; split; [lia|done]). }
  assert (Hdec : forall k raw e, EvDecode k ∈ EvBuild :: tail ->
            Invoke env k b p = inr raw -> decoded env b k raw = inl e ->
            (made (EvBuild :: tail) (k + 1) <->
             k + 1 <= MaxRetries set /\ diag.Classify (Some e) = diag.CodeProtocol)).
  { intros k raw e Hin Hi Hd. apply elem_of_cons in Hin as [Hin|Hin]; [done|].
    rewrite made_build, <- shouldRetryDecode_iff.
    rewrite (rounds_decode_retry _ _ _ _ _ Hatt _ _ _ _ _ Htail ltac:(lia) Hin Hi Hd).
    split; (intros [? ?]; split; [lia|done]). }
  split_and!.
  - intros k Hm. apply (proj1 (made_build _ _)) in Hm.
    apply (rounds_made _ _ _ _ _ _ _ _ Htail) in Hm. lia.
  - rewrite filter_cons. simpl.
    pose proof (rounds_count _ _ _ _ _ _ _ Htail ltac:(lia)) as Hc.
    by rewrite Z.sub_0_r in Hc.
  - apply Hinv.
  - apply Hdec.
  - intros k e Hfail Hcode Hm.
    destruct Hfail as [[Hin Hi]|(raw & Hin & Hi & Hd)].
    + apply (Hinv _ _ Hin Hi) in Hm as [_ [Hc|Hc]]; rewrite Hc in Hcode;
        simpl in Hcode; intuition discriminate.
    + apply (Hdec _ _ _ Hin Hi Hd) in Hm as [_ Hc]; rewrite Hc in Hcode;
        simpl in Hcode; intuition discriminate.
  - intros k Hk Hm. apply (proj1 (made_build _ _)) in Hm.
    destruct (rounds_sleep _ _ _ _ _ _ _ _ Htail Hk Hm) as (pre & ev & post & -> & Hop & Hpre).
    exists (EvBuild :: pre), ev, post. split; [done|]. split; [done|].
    by rewrite made_build.
  - intros k e ->. done.
  - intros fired. unfold workerJob in *.
    change (Build (with_sleeps env fired) b) with (Build env b).
    rewrite Hbuild in *. cbv zeta in *.
    match type of Hrun with attemptLoop _ _ _ ?t ?l ?k ?a ?e ?tr0 = _ =>
      pose proof (attemptLoop_sleeps b p t a env fired l k e tr0 tr0 eq_refl) as Hs end.
    cbv zeta in Hs. rewrite Hrun in Hs. apply Hs.
Qed.

(** C4, the sentence as the specification has it: the context is
    cancelled during the sleep after the first round, and what the worker
    sends is the second round's success, not the context's error. *)
Lemma workerJob_cancelled_asleep_counterexample :
  let out := workerJob examples.retry_once examples.cancelled_asleep examples.batch0 in
  DoneDuringSleep examples.cancelled_asleep 0 = Some (errors.Known errors.Canceled) /\
  EvSleep 0 200 (Some (errors.Known errors.Canceled)) ∈ out.2 /\
  made out.2 1 /\
  err out.1 = None.
Proof.
  vm_compute. split; [done|]. split; [|split; [left|done]].
  - apply list_elem_of_In. simpl. auto 10.
  - apply list_elem_of_In. simpl. auto 10.
Qed.

Lemma workerJob_retry_policy_witness :
  let out := workerJob examples.retry_once examples.cancelled_asleep examples.batch0 in
  made out.2 1 /\ ~ made out.2 2.
Proof.
  pose proof (workerJob_retry_policy examples.retry_once examples.cancelled_asleep
                examples.batch0 (TextPrompt "p") _ _
                ltac:(vm_compute; split; [discriminate|reflexivity])
                eq_refl eq_refl) as (Hmade & _ & Hinv & _).
  split.
  - apply (Hinv 0 (errors.Known errors.ErrRateLimited)).
    + vm_compute. apply list_elem_of_In. simpl. auto.
    + reflexivity.
    + split; [vm_compute; discriminate|left; reflexivity].
  - intros Hm. apply Hmade in Hm. vm_compute in Hm. destruct Hm as [_ Hm]. by apply Hm.
Defined.

End worker_policy.

(** ** The dispatcher's commit gate *)

Section commit_facts.
Import goint contract pipeline commitspec.
Variable TrimSpace : string -> string.
Variable pipes : Pipes.
Variable fileID : FileID.
Variable batches : list Batch_.
Hypothesis Hlen : llen batches <= max_int.

Local Abbreviation sidecar := (sidecar TrimSpace pipes fileID).
Local Abbreviation flush := (flush TrimSpace pipes fileID batches).
Local Abbreviation receive := (receive TrimSpace pipes fileID batches).
Local Abbreviation drain := (drain TrimSpace pipes fileID batches).

(** The sidecar loop leaves the buffer and the expected index alone. *)
Lemma sidecar_latch recs pos sps g :
  expect (sidecar recs pos sps g) = expect g /\
  buf (sidecar recs pos sps g) = buf g.
Proof.
  revert pos g. induction sps as [|sp sps IH]; intros pos g; [done|].
  simpl. destruct (EncodeErr pipes (ticks g)), (firstErr g); try done.
  - apply (IH _ (tick g)).
  - apply (IH _ (emit _ g)).
  - apply (IH _ (emit _ g)).
Qed.

(** With an encoder that does not fail it writes one line per span. *)
Lemma sidecar_lines recs pos sps g :
  (forall t, EncodeErr pipes t = None) ->
  exists lines,
    out (sidecar recs pos sps g) = out g ++ lines /\
    Forall2 (line_for (expect g)) sps lines /\
    firstErr (sidecar recs pos sps g) = firstErr g.
Proof.
  intros Henc. revert pos g. induction sps as [|sp sps IH]; intros pos g.
  - exists []. simpl. by rewrite app_nil_r.
  - simpl. rewrite Henc.
    destruct (IH (pos + skipBelow (SpanResult.From sp) (drop pos recs))%nat
                (emit (SidecarLine (expect g)
                         (rowOf TrimSpace fileID recs
                            (pos + skipBelow (SpanResult.From sp) (drop pos recs)) sp)) g))
      as (lines & Hout & Hlines & Hfirst).
    eexists (_ :: lines). split; [|split].
    + rewrite Hout. simpl. by rewrite <- app_assoc.
    + constructor; [|done]. eexists. split; [reflexivity|]. done.
    + by rewrite Hfirst.
Qed.

(** What a flush does to the buffer and to the expected index: it commits
    a run of buffered batches starting at [expect], and deletes them. *)
Lemma flush_spec fuel g :
  (size (buf g) < fuel)%nat -> 0 <= expect g ->
  (forall k, is_Some (buf g !! k) -> k < llen batches) ->
  exists g',
    flush fuel g = Some g' /\ expect g <= expect g' /\
    (forall k, expect g <= k < expect g' -> is_Some (buf g !! k)) /\
    (forall k, buf g' !! k =
               if decide (expect g <= k < expect g') then None else buf g !! k) /\
    (pipes_ok pipes fileID ->
     buf g' !! expect g' = None /\
     exists blocks,
       out g' = out g ++ concat blocks /\
       Forall2 (fun k blk => exists sps, buf g !! k = Some sps /\ commit_of k sps blk)
         (seqZ (expect g) (expect g' - expect g)) blocks).
Proof.
  unfold max_int in Hlen.
  revert g. induction fuel as [|fuel IH]; intros g Hfuel Hexp Hkeys; [lia|].
  simpl. destruct (buf g !! expect g) as [sps|] eqn:Hsps.
  2:{ exists g. split; [done|]. split; [lia|]. split; [intros k; lia|].
      split; [intros k; destruct (decide _); [lia|done]|].
      intros _. split; [done|]. exists []. rewrite Z.sub_diag. simpl.
      by rewrite app_nil_r. }
  assert (Hin : expect g < llen batches) by (apply Hkeys; by rewrite Hsps).
  destruct (index batches (expect g)) as [batch|] eqn:Hbatch.
  2:{ unfold index in Hbatch. destruct (Z.ltb_spec (expect g) 0); [lia|].
      apply lookup_ge_None in Hbatch. unfold llen in Hin. lia. }
  set (pos := match sps with sp0 :: _ => _ | [] => _ end).
  destruct (sidecar_latch (Batch.Records batch) pos sps g) as [He1 Hb1].
  set (g1 := sidecar (Batch.Records batch) pos sps g) in *.
  assert (Hstay : forall g2, expect g2 = expect g -> buf g2 = buf g ->
            expect g <= expect g2 /\
            (forall k, expect g <= k < expect g2 -> is_Some (buf g !! k)) /\
            (forall k, buf g2 !! k =
                       if decide (expect g <= k < expect g2) then None else buf g !! k)).
  { intros g2 -> ->. split; [lia|]. split; [intros k; lia|].
    intros k. destruct (decide _); [lia|done]. }
  destruct (Assemble pipes (ticks g1) fileID sps) as [aerr|bytes] eqn:Hasm.
  { eexists. split; [done|]. destruct (Hstay (fail aerr (emit (Assembled (expect g1) sps) g1)))
      as (? & ? & ?); [done|done|].
    split; [done|]. split; [done|]. split; [done|].
    intros (_ & Ha & _). destruct (Ha (ticks g1) sps) as [? Ha']. congruence. }
  destruct (Copy pipes (S (ticks g1)) bytes) as [written cerr] eqn:Hcopy.
  set (g2 := emit (PrimaryBytes (expect g1) written)
              (emit (Assembled (expect g1) sps) g1)).
  assert (Hnext : (size (buf (advance g2)) < fuel)%nat /\ 0 <= expect (advance g2) /\
                  expect (advance g2) = expect g + 1 /\
                  buf (advance g2) = delete (expect g) (buf g) /\
                  forall k, is_Some (buf (advance g2) !! k) -> k < llen batches).
  { simpl. rewrite He1, Hb1.
    rewrite add_id by (unfold in_range, min_int, max_int; lia).
    split; [|split; [lia|split; [done|split; [done|]]]].
    - pose proof (map_size_delete_Some (expect g) (buf g) ltac:(by rewrite Hsps)).
      destruct (size (buf g)) eqn:Hsize; [|simpl in *; lia].
      apply map_size_empty_inv in Hsize. rewrite Hsize in Hsps. done.
    - intros k [x Hx]. apply lookup_delete_Some in Hx as [_ Hx]. apply Hkeys.
      by rewrite Hx. }
  destruct Hnext as (Hn1 & Hn2 & Hn3 & Hn4 & Hn5).
  destruct (IH (advance g2) Hn1 Hn2 Hn5) as (g' & Hrun & Hle & Hrange & Hbuf & Hok).
  assert (Hgo : exists g', flush fuel (advance g2) = Some g' /\ expect g <= expect g' /\
            (forall k, expect g <= k < expect g' -> is_Some (buf g !! k)) /\
            (forall k, buf g' !! k =
                       if decide (expect g <= k < expect g') then None else buf g !! k) /\
            (pipes_ok pipes fileID ->
             buf g' !! expect g' = None /\
             exists blocks,
               out g' = out g ++ concat blocks /\
               Forall2 (fun k blk => exists sps, buf g !! k = Some sps /\ commit_of k sps blk)
                 (seqZ (expect g) (expect g' - expect g)) blocks)).
  { exists g'. split; [done|]. rewrite Hn3 in *. split; [lia|]. split; [|split].
    - intros k Hk. destruct (decide (k = expect g)) as [->|Hne]; [by rewrite Hsps|].
      destruct (Hrange k ltac:(lia)) as [x Hx]. rewrite Hn4 in Hx.
      apply lookup_delete_Some in Hx as [_ Hx]. by rewrite Hx.
    - intros k. rewrite Hbuf, Hn4.
      destruct (decide (expect g + 1 <= k < expect g')), (decide (expect g <= k < expect g'));
        try done; try lia.
      + destruct (decide (k = expect g)) as [->|Hne]; [by rewrite lookup_delete_eq|lia].
      + rewrite lookup_delete_ne by lia. done.
    - intros Hpipes. destruct (Hok Hpipes) as (Hnone & blocks & Hout & Hblocks).
      split; [done|].
      destruct (sidecar_lines (Batch.Records batch) pos sps g (proj1 Hpipes))
        as (lines & Hlines & Hfor & _).
      exists ((lines ++ [Assembled (expect g) sps; PrimaryBytes (expect g) written]) :: blocks).
      split.
      + rewrite Hout. simpl. rewrite He1. unfold g1. rewrite Hlines.
        by rewrite <- !app_assoc.
      + rewrite seqZ_cons by lia. constructor.
        * exists sps. split; [done|]. by exists lines, written.
        * replace (Z.succ (expect g)) with (expect g + 1) by lia.
          replace (Z.pred (expect g' - expect g)) with (expect g' - (expect g + 1)) by lia.
          eapply Forall2_impl; [exact Hblocks|].
          intros k blk (sps' & Hk & Hc). exists sps'. split; [|done].
          rewrite Hn4 in Hk. by apply lookup_delete_Some in Hk as [_ Hk]. }
  destruct cerr as [e|]; [destruct (firstErr g1) eqn:Hfirst|]; [exact Hgo| |exact Hgo].
  eexists. split; [done|].
  destruct (Hstay (fail e g2)) as (? & ? & ?); [done|done|].
  split; [done|]. split; [done|]. split; [done|].
  intros (_ & _ & Hc). specialize (Hc (S (ticks g1)) bytes).
  rewrite Hcopy in Hc. done.
Qed.


Lemma delivered_app rs rs' k sps : delivered rs k sps -> delivered (rs ++ rs') k sps.
Proof.
  intros (r & Hr & ?). exists r. split; [|done]. apply elem_of_app. by left.
Qed.

Lemma is_block_app rs rs' k blk : is_block rs k blk -> is_block (rs ++ rs') k blk.
Proof. intros (sps & Hd & Hc). exists sps. split; [by apply delivered_app|done]. Qed.

(** One result keeps the gate's invariant. *)
Lemma receive_inv rs r g :
  pipes_ok pipes fileID ->
  (err r = None -> 0 <= idx r < llen batches) ->
  gate_inv batches rs g ->
  exists g', receive r g = Some g' /\ gate_inv batches (rs ++ [r]) g'.
Proof.
  intros Hpipes Hr (Hexp & Hbuf & Hall & Hnone & blocks & Hout & Hblocks).
  unfold receive. destruct (err r) as [e|] eqn:Herr.
  - eexists. split; [done|].
    assert (Hinv : gate_inv batches (rs ++ [r]) (count true g)).
    { split; [done|]. split; [|split; [|split; [done|]]].
      - intros k sps Hk. destruct (Hbuf k sps Hk). split; [by apply delivered_app|done].
      - intros r' Hr' Hok Hge. apply elem_of_app in Hr' as [Hr'|Hr']; [by apply Hall|].
        apply list_elem_of_singleton in Hr'. subst r'. congruence.
      - exists blocks. split; [done|].
        eapply Forall2_impl; [exact Hblocks|]. intros k blk. apply is_block_app. }
    simpl. destruct (firstErr g); exact Hinv.
  - specialize (Hr eq_refl).
    set (g1 := store (idx r) (spans r) (count false g)).
    destruct (flush_spec (S (size (buf g1))) g1) as (g' & Hrun & Hle & Hrange & Hlook & Hok);
      [lia|done| |].
    { intros k [sps Hk]. simpl in Hk. apply lookup_insert_Some in Hk as [[<- _]|[_ Hk]]; [lia|].
      by apply Hbuf in Hk as [_ ?]. }
    destruct (Hok Hpipes) as (Hnone' & blocks' & Hout' & Hblocks').
    exists g'. split; [done|].
    assert (Hdel : forall k sps, buf g1 !! k = Some sps ->
              delivered (rs ++ [r]) k sps /\ k < llen batches).
    { intros k sps Hk. simpl in Hk. apply lookup_insert_Some in Hk as [[<- <-]|[_ Hk]].
      - split; [|lia]. exists r. split; [|done]. apply elem_of_app. right.
        by apply list_elem_of_singleton.
      - destruct (Hbuf k sps Hk). split; [by apply delivered_app|done]. }
    change (expect g1) with (expect g) in *. change (out g1) with (out g) in *.
    split; [lia|]. split; [|split; [|split; [done|]]].
    + intros k sps Hk. rewrite Hlook in Hk. destruct (decide _); [done|]. by apply Hdel.
    + intros r' Hr' Hok' Hge. rewrite Hlook. destruct (decide _); [lia|].
      simpl. destruct (decide (idx r' = idx r)) as [->|Hne]; [by rewrite lookup_insert_eq|].
      rewrite lookup_insert_ne by done.
      apply elem_of_app in Hr' as [Hr'|Hr'].
      * apply Hall; [done|done|lia].
      * apply list_elem_of_singleton in Hr'. by subst r'.
    + exists (blocks ++ blocks'). split.
      * by rewrite Hout', Hout, concat_app.
      * replace (expect g') with (expect g + (expect g' - expect g)) at 1 by lia.
        rewrite seqZ_app by lia. apply Forall2_app.
        -- eapply Forall2_impl; [exact Hblocks|]. intros k blk. apply is_block_app.
        -- eapply Forall2_impl; [exact Hblocks'|]. intros k blk (sps & Hk & Hc).
           exists sps. split; [|done]. by apply Hdel.
Qed.

Lemma drain_inv seen rs g :
  pipes_ok pipes fileID ->
  (forall r, r ∈ rs -> err r = None -> 0 <= idx r < llen batches) ->
  gate_inv batches seen g ->
  exists g', drain rs g = Some g' /\ gate_inv batches (seen ++ rs) g'.
Proof.
  intros Hpipes. revert seen g. induction rs as [|r rs IH]; intros seen g Hrs Hinv.
  - exists g. by rewrite app_nil_r.
  - destruct (receive_inv seen r g Hpipes) as (g1 & Hrecv & Hinv1); [|done|].
    { apply Hrs. apply elem_of_cons. by left. }
    destruct (IH (seen ++ [r]) g1) as (g' & Hrun & Hinv'); [|done|].
    { intros r' Hr'. apply Hrs. apply elem_of_cons. by right. }
    exists g'. simpl. rewrite Hrecv. split; [done|]. by rewrite <- app_assoc in Hinv'.
Qed.

Lemma gate0_inv : gate_inv batches [] gate0.
Proof.
  split; [done|]. split; [|split; [|split; [done|]]].
  - intros k sps Hk. done.
  - intros r Hr. by apply elem_of_nil in Hr.
  - exists []. done.
Qed.

(** *** The buffer of the commit gate *)

Lemma size_between (m : gmap Z (list Span)) (a b : Z) :
  (forall k, is_Some (m !! k) -> a <= k < b) ->
  Z.of_nat (size m) <= Z.max 0 (b - a).
Proof.
  intros Hkeys. rewrite <- size_dom.
  assert (Hsub : dom m ⊆ (list_to_set (seqZ a (b - a)) : gset Z)).
  { intros k Hk. apply elem_of_dom in Hk. apply Hkeys in Hk.
    apply elem_of_list_to_set, elem_of_seqZ. lia. }
  apply subseteq_size in Hsub.
  rewrite size_list_to_set, length_seqZ in Hsub by apply NoDup_seqZ. lia.
Qed.

Lemma omap_take (ws : list (option Batch_)) w b :
  ws !! w = Some None -> omap id (<[w := Some b]> ws) ≡ₚ b :: omap id ws.
Proof.
  revert w. induction ws as [|x ws IH]; intros [|w] Hw; try done.
  - simpl in Hw. injection Hw as ->. done.
  - simpl in *. destruct x as [b'|]; simpl.
    + rewrite (IH w Hw). apply perm_swap.
    + by apply IH.
Qed.

Lemma omap_finish (ws : list (option Batch_)) w b :
  ws !! w = Some (Some b) -> omap id ws ≡ₚ b :: omap id (<[w := None]> ws).
Proof.
  revert w. induction ws as [|x ws IH]; intros [|w] Hw; try done.
  - simpl in Hw. injection Hw as ->. done.
  - simpl in *. destruct x as [b'|]; simpl.
    + rewrite (IH w Hw). apply perm_swap.
    + by apply IH.
Qed.

Lemma omap_idle n : omap id (replicate n (@None Batch_)) = [].
Proof. induction n; simpl; done. Qed.

Lemma attemptLoop_idx env b p tokens left k attempts lastErr tr :
  idx (attemptLoop env b p tokens left k attempts lastErr tr).1 = Batch.BatchIndex b.
Proof.
  revert k lastErr tr. induction left as [|left IH]; intros k lastErr tr; [done|].
  simpl. repeat (case_match; simpl; try done); apply IH.
Qed.

Lemma workerJob_idx set env b : idx (workerJob set env b).1 = Batch.BatchIndex b.
Proof.
  unfold workerJob. destruct (Build env b); [done|]. apply attemptLoop_idx.
Qed.

Variable set : Settings.

Local Abbreviation step := (step TrimSpace pipes fileID batches set).
Local Abbreviation run := (run TrimSpace pipes fileID batches set).

Lemma sys_inv_perm s s' :
  pending s' ≡ₚ pending s -> latch s' = latch s ->
  sys_inv batches s -> sys_inv batches s'.
Proof.
  intros Hp Hl (Hnd & Hexp & Hpend & Hkeys). unfold sys_inv. rewrite Hl, Hp.
  split; [done|]. split; [done|]. split; [|done].
  intros i Hi. rewrite Hp in Hi. by apply Hpend.
Qed.

(** Every action keeps the invariant; with pipes that do not fail the
    expected batch is never left in the buffer. *)
Lemma step_inv a s s' :
  step a s = Some s' -> sys_inv batches s ->
  sys_inv batches s' /\
  (pipes_ok pipes fileID -> buf (latch s) !! expect (latch s) = None ->
   buf (latch s') !! expect (latch s') = None).
Proof.
  intros Hstep Hinv. destruct a as [| |w|w env|]; simpl in Hstep.
  - destruct (todo s) as [|b rest] eqn:Htodo; [done|].
    destruct (_ && _); [|done]. injection Hstep as <-. split; [|done].
    apply (sys_inv_perm s); [|done|exact Hinv].
    unfold pending. simpl. rewrite Htodo. f_equiv. f_equiv. solve_Permutation.
  - destruct (closed s); [done|]. injection Hstep as <-. split; [|done].
    by apply (sys_inv_perm s).
  - destruct (workers s !! w) as [[b'|]|] eqn:Hw; try done.
    destruct (inCh s) as [|b rest] eqn:Hin; [done|]. injection Hstep as <-.
    split; [|done]. apply (sys_inv_perm s); [|done|exact Hinv].
    unfold pending. simpl. rewrite Hin. f_equiv. f_equiv.
    rewrite (omap_take _ _ b Hw). solve_Permutation.
  - destruct (workers s !! w) as [[b|]|] eqn:Hw; try done.
    destruct (_ <? _); [|done]. injection Hstep as <-.
    split; [|done]. apply (sys_inv_perm s); [|done|exact Hinv].
    unfold pending. simpl. rewrite (omap_finish _ _ b Hw).
    rewrite !fmap_app, fmap_cons. simpl. rewrite workerJob_idx. solve_Permutation.
  - destruct (outCh s) as [|r rest] eqn:Hout; [done|].
    destruct (receive r (latch s)) as [g'|] eqn:Hrecv; [|done]. injection Hstep as <-.
    destruct Hinv as (Hnd & Hexp & Hpend & Hkeys).
    unfold pending in Hnd, Hpend. rewrite Hout in Hnd, Hpend.
    unfold sys_inv, pending. simpl.
    set (P := Batch.BatchIndex <$> todo s ++ inCh s ++ omap id (workers s)) in *.
    rewrite fmap_cons in Hnd, Hpend.
    assert (Hnd' : NoDup (P ++ (idx <$> rest)) /\ idx r ∉ P ++ (idx <$> rest)).
    { rewrite <- Permutation_middle in Hnd. apply NoDup_cons in Hnd as [? ?]. done. }
    destruct Hnd' as [Hnd' Hfresh].
    assert (Hr : expect (latch s) <= idx r < llen batches /\ buf (latch s) !! idx r = None).
    { apply Hpend. rewrite <- Permutation_middle. apply elem_of_cons. by left. }
    assert (Hrest : forall i, i ∈ P ++ (idx <$> rest) ->
              i <> idx r /\ expect (latch s) <= i < llen batches /\
              buf (latch s) !! i = None).
    { intros i Hi. split; [intros ->; done|]. apply Hpend.
      rewrite <- Permutation_middle. apply elem_of_cons. by right. }
    unfold pipeline.receive in Hrecv. destruct (err r) as [e|] eqn:Herr.
    + assert (Hsame : buf g' = buf (latch s) /\ expect g' = expect (latch s)).
      { injection Hrecv as <-. simpl. by destruct (firstErr (latch s)). }
      destruct Hsame as [-> ->]. split; [|done].
      split; [done|]. split; [done|]. split; [|done]. intros i Hi. by apply Hrest.
    + set (g1 := store (idx r) (spans r) (count false (latch s))) in *.
      destruct (flush_spec (S (size (buf g1))) g1) as (g'' & Hrun & Hle & Hrange & Hlook & Hok);
        [lia|simpl; lia| |].
      { intros k [sps Hk]. simpl in Hk.
        apply lookup_insert_Some in Hk as [[<- _]|[_ Hk]]; [lia|].
        apply Hkeys. by rewrite Hk. }
      rewrite Hrun in Hrecv. injection Hrecv as ->.
      change (expect g1) with (expect (latch s)) in *.
      assert (Hstored : forall k, is_Some (buf g1 !! k) ->
                expect (latch s) <= k < llen batches).
      { intros k [sps Hk]. simpl in Hk.
        apply lookup_insert_Some in Hk as [[<- _]|[_ Hk]]; [lia|].
        apply Hkeys. by rewrite Hk. }
      split; [|intros Hpipes _; by apply Hok].
      split; [done|]. split; [|split].
      * split; [lia|]. destruct (decide (expect g' = expect (latch s))) as [->|Hne]; [lia|].
        specialize (Hrange (expect g' - 1) ltac:(lia)). apply Hstored in Hrange. lia.
      * intros i Hi. destruct (Hrest i Hi) as (Hne & Hi1 & Hi2).
        assert (Hg1 : buf g1 !! i = None) by (simpl; by rewrite lookup_insert_ne).
        split.
        -- split; [|lia]. destruct (decide (expect g' <= i)); [done|].
           destruct (Hrange i ltac:(lia)) as [x Hx]. congruence.
        -- rewrite Hlook. by destruct (decide _).
      * intros k Hk. rewrite Hlook in Hk. destruct (decide _) as [|Hout']; [by destruct Hk|].
        apply Hstored in Hk as Hk'. lia.
Qed.

Lemma run_inv acts s s' :
  run acts s = Some s' -> sys_inv batches s ->
  sys_inv batches s' /\
  (pipes_ok pipes fileID -> buf (latch s) !! expect (latch s) = None ->
   buf (latch s') !! expect (latch s') = None).
Proof.
  revert s. induction acts as [|a acts IH]; intros s Hrun Hinv.
  - injection Hrun as <-. done.
  - simpl in Hrun. destruct (step a s) as [s1|] eqn:Hstep; [|done].
    destruct (step_inv _ _ _ Hstep Hinv) as [Hinv1 Hnone1].
    destruct (IH _ Hrun Hinv1) as [Hinv' Hnone']. split; [done|]. auto.
Qed.

Lemma start_inv : numbered batches -> sys_inv batches (start batches set).
Proof.
  intros Hnum. unfold sys_inv, pending, start. simpl.
  rewrite omap_idle, !app_nil_r. split; [|split; [unfold llen; lia|split]].
  - apply NoDup_alt. intros i j x Hi Hj.
    rewrite list_lookup_fmap in Hi, Hj.
    destruct (batches !! i) as [bi|] eqn:Hbi; [|done].
    destruct (batches !! j) as [bj|] eqn:Hbj; [|done].
    simpl in *. apply Hnum in Hbi, Hbj. simplify_eq. lia.
  - intros i Hi. apply list_elem_of_fmap in Hi as (b & -> & Hb).
    apply list_elem_of_lookup in Hb as [n Hn]. rewrite (Hnum _ _ Hn).
    apply lookup_lt_Some in Hn. unfold llen. split; [lia|done].
  - intros k [x Hx]. done.
Qed.

(** C7, as the code has it. The buffer of the commit gate holds batches
    that are delivered and not committed: never more than the batches of
    the file from [expect] on, and with pipes that do not fail never more
    than those after [expect]. *)
Theorem buffer_bound acts s :
  1 <= Concurrency set ->
  numbered batches ->
  run acts (start batches set) = Some s ->
  0 <= expect (latch s) <= llen batches /\
  Z.of_nat (size (buf (latch s))) <= llen batches - expect (latch s) /\
  (pipes_ok pipes fileID ->
   Z.of_nat (size (buf (latch s))) <= Z.max 0 (llen batches - 1 - expect (latch s))).
Proof.
  intros _ Hnum Hrun.
  destruct (run_inv _ _ _ Hrun (start_inv Hnum)) as [(Hnd & Hexp & Hpend & Hkeys) Hnone].
  split; [done|]. split.
  - pose proof (size_between _ _ _ Hkeys). lia.
  - intros Hpipes. specialize (Hnone Hpipes eq_refl).
    pose proof (size_between (buf (latch s)) (expect (latch s) + 1) (llen batches)) as Hs.
    replace (llen batches - (expect (latch s) + 1))
      with (llen batches - 1 - expect (latch s)) in Hs by lia.
    apply Hs. intros k Hk. apply Hkeys in Hk as Hk'.
    destruct (decide (k = expect (latch s))) as [->|]; [|lia].
    rewrite Hnone in Hk. by destruct Hk.
Qed.

End commit_facts.

(** C7, the sentence as the specification has it: with concurrency 2, one
    worker stays on batch 0 while the other delivers batches 1, 2 and 3;
    all three are in the buffer, more than [concurrency - 1]. *)
Lemma buffer_exceeds_concurrency_counterexample :
  exists s,
    pipeline.run examples.ascii_TrimSpace examples.sound_pipes "f" examples.four
      examples.two_workers examples.slow_first
      (pipeline.start examples.four examples.two_workers) = Some s /\
    size (pipeline.buf (pipeline.latch s)) = 3%nat /\
    pipeline.Concurrency examples.two_workers - 1 = 1.
Proof.
  eexists. split; [vm_compute; reflexivity|]. split; [|reflexivity].
  vm_compute. reflexivity.
Qed.

Lemma buffer_bound_witness :
  exists s,
    pipeline.run examples.ascii_TrimSpace examples.sound_pipes "f" examples.four
      examples.two_workers examples.slow_first
      (pipeline.start examples.four examples.two_workers) = Some s /\
    Z.of_nat (size (pipeline.buf (pipeline.latch s))) <=
      goint.llen examples.four - pipeline.expect (pipeline.latch s).
Proof.
  eexists. split; [vm_compute; reflexivity|].
  eapply (buffer_bound examples.ascii_TrimSpace examples.sound_pipes "f" examples.four
            ltac:(vm_compute; discriminate) examples.two_workers examples.slow_first).
  - vm_compute. discriminate.
  - intros [|[|[|[|i]]]] b Hb; simpl in Hb; try discriminate Hb;
      injection Hb as <-; reflexivity.
  - vm_compute. reflexivity.
Defined.


(** *** The commit gate in any run *)

Section commit_any.
Import goint contract pipeline commitspec.
Variable TrimSpace : string -> string.
Variable pipes : Pipes.
Variable fileID : FileID.
Variable batches : list Batch_.
Hypothesis Hlen : llen batches <= max_int.

Local Abbreviation sidecar := (sidecar TrimSpace pipes fileID).
Local Abbreviation flush := (flush TrimSpace pipes fileID batches).
Local Abbreviation receive := (receive TrimSpace pipes fileID batches).
Local Abbreviation drain := (drain TrimSpace pipes fileID batches).

Lemma climbs_snoc prev ks e :
  climbs prev ks ->
  (forall k, last (prev :: ks) = Some k -> e = k \/ e = k + 1) ->
  climbs prev (ks ++ [e]).
Proof.
  revert prev. induction ks as [|k ks IH]; intros prev Hc Hl; simpl.
  - split; [|done]. apply Hl. done.
  - destruct Hc as [Hk Hc]. split; [done|]. apply IH; [done|].
    intros k' Hk'. apply Hl. by rewrite last_cons_cons.
Qed.

(** An output for the expected batch keeps the trail. *)
Lemma trail_emit o g :
  trail g -> batch_of o = expect g -> trail (emit o g) /\
  last (batch_of <$> out (emit o g)) = Some (expect g).
Proof.
  intros [Hnb Hlast] Ho. unfold trail. simpl. rewrite fmap_app. simpl.
  rewrite last_snoc, Ho. split; [|done]. split; [|by left].
  destruct (batch_of <$> out g) as [|k ks] eqn:Hks; simpl in *.
  - by rewrite Hlast.
  - destruct Hnb as [-> Hc]. split; [done|]. apply climbs_snoc; [done|].
    intros k' Hk'. rewrite Hk' in Hlast. lia.
Qed.

Lemma trail_same g g' :
  out g' = out g -> expect g' = expect g -> trail g -> trail g'.
Proof. unfold trail. by intros -> ->. Qed.

Lemma sidecar_trail recs pos sps g :
  trail g -> trail (sidecar recs pos sps g).
Proof.
  revert pos g. induction sps as [|sp sps IH]; intros pos g Ht; [done|].
  simpl. destruct (EncodeErr pipes (ticks g)), (firstErr g).
  - apply IH. by apply (trail_same g).
  - by apply (trail_same g).
  - apply IH. by apply trail_emit.
  - apply IH. by apply trail_emit.
Qed.

(** An error, once recorded, stays. *)
Lemma sidecar_firstErr recs pos sps g :
  is_Some (firstErr g) -> is_Some (firstErr (sidecar recs pos sps g)).
Proof.
  revert pos g. induction sps as [|sp sps IH]; intros pos g Hs; [done|].
  simpl. destruct (EncodeErr pipes (ticks g)), (firstErr g) eqn:Hf;
    try (by destruct Hs); apply IH; simpl; by rewrite ?Hf.
Qed.

Lemma flush_firstErr fuel g g' :
  flush fuel g = Some g' -> is_Some (firstErr g) -> is_Some (firstErr g').
Proof.
  revert g. induction fuel as [|fuel IH]; intros g Hrun Hs; simpl in Hrun.
  - by injection Hrun as <-.
  - destruct (buf g !! expect g) as [sps|]; [|by injection Hrun as <-].
    destruct (index batches (expect g)) as [batch|]; [|done].
    match type of Hrun with context [sidecar ?r ?p sps g] =>
      pose proof (sidecar_firstErr r p sps g Hs) as Hs1; set (g1 := sidecar r p sps g) in * end.
    destruct (Assemble pipes (ticks g1) fileID sps) as [aerr|bytes].
    { injection Hrun as <-. done. }
    destruct (Copy pipes _ bytes) as [written cerr].
    simpl in Hrun. destruct cerr as [e|]; [destruct (firstErr g1) eqn:Hf1|].
    + apply IH in Hrun; [done|]. simpl. by rewrite Hf1.
    + by destruct Hs1.
    + apply IH in Hrun; [done|]. done.
Qed.

(** A sidecar loop that ends without a recorded error wrote every line. *)
Lemma sidecar_clean recs pos sps g :
  firstErr (sidecar recs pos sps g) = None ->
  firstErr g = None /\
  exists lines,
    out (sidecar recs pos sps g) = out g ++ lines /\
    Forall2 (line_for (expect g)) sps lines.
Proof.
  revert pos g. induction sps as [|sp sps IH]; intros pos g Hnone.
  - split; [done|]. exists []. simpl. by rewrite app_nil_r.
  - simpl in Hnone |- *.
    destruct (EncodeErr pipes (ticks g)) as [e|] eqn:Henc.
    { destruct (firstErr g) eqn:Hf; [|done].
      pose proof (sidecar_firstErr recs
        (pos + skipBelow (SpanResult.From sp) (drop pos recs))%nat sps (tick g)) as Hs.
      simpl in Hs. rewrite Hf in Hs. destruct Hs as [x Hx]; [done|]. congruence. }
    assert (Hnone' : firstErr (sidecar recs
              (pos + skipBelow (SpanResult.From sp) (drop pos recs))%nat sps
              (emit (SidecarLine (expect g)
                 (rowOf TrimSpace fileID recs
                    (pos + skipBelow (SpanResult.From sp) (drop pos recs)) sp)) g)) = None)
      by (destruct (firstErr g); exact Hnone).
    destruct (IH _ _ Hnone') as (Hf & lines & Hout & Hlines).
    split; [done|].
    eexists (_ :: lines). split.
    + rewrite Hout. simpl. by rewrite <- app_assoc.
    + constructor; [|done]. eexists. split; [reflexivity|]. done.
Qed.


(** A flush keeps the trail, whatever fails. *)
Lemma flush_trail fuel g g' :
  flush fuel g = Some g' -> 0 <= expect g ->
  (forall k, is_Some (buf g !! k) -> k < llen batches) ->
  trail g -> trail g'.
Proof.
  unfold max_int in Hlen.
  revert g. induction fuel as [|fuel IH]; intros g Hrun Hexp Hkeys Ht; simpl in Hrun.
  - by injection Hrun as <-.
  - destruct (buf g !! expect g) as [sps|] eqn:Hsps; [|by injection Hrun as <-].
    assert (Hin : expect g < llen batches) by (apply Hkeys; by rewrite Hsps).
    destruct (index batches (expect g)) as [batch|]; [|done].
    match type of Hrun with context [sidecar ?r ?p sps g] =>
      pose proof (sidecar_trail r p sps g Ht) as Ht1;
      destruct (sidecar_latch TrimSpace pipes fileID r p sps g) as [He1 Hb1];
      set (g1 := sidecar r p sps g) in * end.
    destruct (trail_emit (Assembled (expect g1) sps) g1 Ht1 eq_refl) as [Ht2 _].
    destruct (Assemble pipes (ticks g1) fileID sps) as [aerr|bytes].
    { injection Hrun as <-. by apply (trail_same (emit (Assembled (expect g1) sps) g1)). }
    destruct (Copy pipes _ bytes) as [written cerr].
    cbn zeta in Hrun.
    destruct (trail_emit (PrimaryBytes (expect g1) written)
                (emit (Assembled (expect g1) sps) g1) Ht2 eq_refl) as [Ht3 Hl3].
    set (g2 := emit (PrimaryBytes (expect g1) written)
                (emit (Assembled (expect g1) sps) g1)) in *.
    assert (Hadv : flush fuel (advance g2) = Some g' -> trail g').
    { intros Hgo. apply IH in Hgo; [done| | |].
      - simpl. rewrite He1. rewrite add_id by (unfold in_range, min_int, max_int; lia). lia.
      - intros k [x Hx]. simpl in Hx. rewrite Hb1, He1 in Hx.
        apply lookup_delete_Some in Hx as [_ Hx]. apply Hkeys. by rewrite Hx.
      - destruct Ht3 as [Hnb _]. split; [exact Hnb|].
        change (out (advance g2)) with (out g2). rewrite Hl3. right. simpl.
        rewrite add_id by (unfold in_range, min_int, max_int; simpl; lia). simpl. lia. }
    simpl in Hrun. destruct cerr as [e|]; [destruct (firstErr g1) eqn:Hf1|].
    + by apply Hadv.
    + injection Hrun as <-. by apply (trail_same g2).
    + by apply Hadv.
Qed.

(** A flush that ends without a recorded error committed a run of buffered
    batches, each with all its lines. *)
Lemma flush_clean fuel g g' :
  flush fuel g = Some g' -> 0 <= expect g ->
  (forall k, is_Some (buf g !! k) -> k < llen batches) ->
  (size (buf g) < fuel)%nat ->
  firstErr g' = None ->
  firstErr g = None /\ expect g <= expect g' /\ buf g' !! expect g' = None /\
  exists blocks,
    out g' = out g ++ concat blocks /\
    Forall2 (fun k blk => exists sps, buf g !! k = Some sps /\ commit_of k sps blk)
      (seqZ (expect g) (expect g' - expect g)) blocks.
Proof.
  unfold max_int in Hlen.
  revert g. induction fuel as [|fuel IH]; intros g Hrun Hexp Hkeys Hfuel Hnone; [lia|].
  simpl in Hrun.
  destruct (buf g !! expect g) as [sps|] eqn:Hsps.
  2:{ injection Hrun as <-. split; [done|]. split; [lia|]. split; [done|].
      exists []. rewrite Z.sub_diag. simpl. by rewrite app_nil_r. }
  assert (Hin : expect g < llen batches) by (apply Hkeys; by rewrite Hsps).
  destruct (index batches (expect g)) as [batch|]; [|done].
  match type of Hrun with context [sidecar ?r ?p sps g] =>
    pose proof (sidecar_clean r p sps g) as Hclean;
    destruct (sidecar_latch TrimSpace pipes fileID r p sps g) as [He1 Hb1];
    set (g1 := sidecar r p sps g) in * end.
  destruct (Assemble pipes (ticks g1) fileID sps) as [aerr|bytes].
  { injection Hrun as <-. done. }
  destruct (Copy pipes _ bytes) as [written cerr].
  cbn zeta in Hrun.
  set (g2 := emit (PrimaryBytes (expect g1) written)
              (emit (Assembled (expect g1) sps) g1)) in *.
  assert (Hgo : flush fuel (advance g2) = Some g' ->
    firstErr g = None /\ expect g <= expect g' /\ buf g' !! expect g' = None /\
    exists blocks,
      out g' = out g ++ concat blocks /\
      Forall2 (fun k blk => exists sps, buf g !! k = Some sps /\ commit_of k sps blk)
        (seqZ (expect g) (expect g' - expect g)) blocks).
  { intros Hnext.
    assert (Hn3 : expect (advance g2) = expect g + 1).
    { simpl. rewrite He1. apply add_id. unfold in_range, min_int, max_int. lia. }
    assert (Hn4 : buf (advance g2) = delete (expect g) (buf g)).
    { simpl. by rewrite He1, Hb1. }
    apply IH in Hnext; [|lia| | |done].
    - destruct Hnext as (Hf2 & Hle & Hnone' & blocks & Hout & Hblocks).
      destruct (Hclean Hf2) as (Hf & lines & Hlines & Hfor).
      split; [done|]. split; [lia|]. split; [done|].
      exists ((lines ++ [Assembled (expect g) sps; PrimaryBytes (expect g) written]) :: blocks).
      split.
      + rewrite Hout. simpl. rewrite He1, Hlines. by rewrite <- !app_assoc.
      + rewrite Hn3 in *. rewrite seqZ_cons by lia. constructor.
        * exists sps. split; [done|]. by exists lines, written.
        * replace (Z.succ (expect g)) with (expect g + 1) by lia.
          replace (Z.pred (expect g' - expect g)) with (expect g' - (expect g + 1)) by lia.
          eapply Forall2_impl; [exact Hblocks|].
          intros k blk (sps' & Hk & Hc). exists sps'. split; [|done].
          rewrite Hn4 in Hk. by apply lookup_delete_Some in Hk as [_ Hk].
    - intros k [x Hx]. rewrite Hn4 in Hx.
      apply lookup_delete_Some in Hx as [_ Hx]. apply Hkeys. by rewrite Hx.
    - rewrite Hn4.
      pose proof (map_size_delete_Some (expect g) (buf g) ltac:(by rewrite Hsps)).
      destruct (size (buf g)) eqn:Hsize; [|simpl in *; lia].
      apply map_size_empty_inv in Hsize. rewrite Hsize in Hsps. done. }
  simpl in Hrun. destruct cerr as [e|]; [destruct (firstErr g1) eqn:Hf1|].
  - by apply Hgo.
  - injection Hrun as <-. done.
  - by apply Hgo.
Qed.


(** One result, in any run. *)
Lemma receive_safe rs r g :
  (err r = None -> 0 <= idx r < llen batches) ->
  gate_safe batches rs g ->
  exists g',
    receive r g = Some g' /\ gate_safe batches (rs ++ [r]) g' /\
    (firstErr g' = None -> gate_inv batches rs g -> gate_inv batches (rs ++ [r]) g') /\
    (firstErr g' = None -> firstErr g = None).
Proof.
  intros Hr (Hexp & Hbuf & Hall & Ht).
  unfold receive. destruct (err r) as [e|] eqn:Herr.
  - eexists. split; [done|]. split; [|split].
    + assert (Hs : gate_safe batches (rs ++ [r]) (count true g)).
      { split; [done|]. split; [|split; [|done]].
        - intros k sps Hk. destruct (Hbuf k sps Hk). split; [by apply delivered_app|done].
        - intros r' Hr' Hok Hge. apply elem_of_app in Hr' as [Hr'|Hr']; [by apply Hall|].
          apply list_elem_of_singleton in Hr'. subst r'. congruence. }
      simpl. destruct (firstErr g); exact Hs.
    + change (firstErr (count true g)) with (firstErr g).
      destruct (firstErr g) eqn:Hf; simpl; rewrite ?Hf; done.
    + change (firstErr (count true g)) with (firstErr g).
      destruct (firstErr g) eqn:Hf; simpl; rewrite ?Hf; done.
  - specialize (Hr eq_refl).
    set (g1 := store (idx r) (spans r) (count false g)).
    assert (Hkeys : forall k, is_Some (buf g1 !! k) -> k < llen batches).
    { intros k [sps Hk]. simpl in Hk. apply lookup_insert_Some in Hk as [[<- _]|[_ Hk]]; [lia|].
      by apply Hbuf in Hk as [_ ?]. }
    destruct (flush_spec TrimSpace pipes fileID batches Hlen (S (size (buf g1))) g1)
      as (g' & Hrun & Hle & Hrange & Hlook & _); [lia|done|done|].
    exists g'. split; [done|].
    assert (Hdel : forall k sps, buf g1 !! k = Some sps ->
              delivered (rs ++ [r]) k sps /\ k < llen batches).
    { intros k sps Hk. simpl in Hk. apply lookup_insert_Some in Hk as [[<- <-]|[_ Hk]].
      - split; [|lia]. exists r. split; [|done]. apply elem_of_app. right.
        by apply list_elem_of_singleton.
      - destruct (Hbuf k sps Hk). split; [by apply delivered_app|done]. }
    change (expect g1) with (expect g) in *.
    assert (Hin : forall r', r' ∈ rs ++ [r] -> err r' = None -> expect g' <= idx r' ->
              is_Some (buf g' !! idx r')).
    { intros r' Hr' Hok' Hge. rewrite Hlook. destruct (decide _); [lia|].
      simpl. destruct (decide (idx r' = idx r)) as [->|Hne]; [by rewrite lookup_insert_eq|].
      rewrite lookup_insert_ne by done.
      apply elem_of_app in Hr' as [Hr'|Hr'].
      * apply Hall; [done|done|lia].
      * apply list_elem_of_singleton in Hr'. by subst r'. }
    assert (Hin' : forall k sps, buf g' !! k = Some sps ->
              delivered (rs ++ [r]) k sps /\ k < llen batches).
    { intros k sps Hk. rewrite Hlook in Hk. destruct (decide _); [done|]. by apply Hdel. }
    split; [|split].
    + split; [lia|]. split; [done|]. split; [done|].
      apply (flush_trail _ _ _ Hrun); [done|done|]. by apply (trail_same g).
    + intros Hnone (_ & _ & _ & _ & blocks & Hout & Hblocks).
      destruct (flush_clean _ _ _ Hrun) as (_ & _ & Hnone' & blocks' & Hout' & Hblocks');
        [done|done|lia|done|].
      change (expect g1) with (expect g) in *. change (out g1) with (out g) in *.
      split; [lia|]. split; [done|]. split; [done|]. split; [done|].
      exists (blocks ++ blocks'). split.
      * by rewrite Hout', Hout, concat_app.
      * replace (expect g') with (expect g + (expect g' - expect g)) at 1 by lia.
        rewrite seqZ_app by lia. apply Forall2_app.
        -- eapply Forall2_impl; [exact Hblocks|]. intros k blk. apply is_block_app.
        -- eapply Forall2_impl; [exact Hblocks'|]. intros k blk (sps & Hk & Hc).
           exists sps. split; [|done]. by apply Hdel.
    + intros Hnone.
      destruct (flush_clean _ _ _ Hrun) as (Hf & _); [done|done|lia|done|]. exact Hf.
Qed.

Lemma drain_safe seen rs g :
  (forall r, r ∈ rs -> err r = None -> 0 <= idx r < llen batches) ->
  gate_safe batches seen g ->
  (firstErr g = None -> gate_inv batches seen g) ->
  exists g',
    drain rs g = Some g' /\ gate_safe batches (seen ++ rs) g' /\
    (firstErr g' = None -> gate_inv batches (seen ++ rs) g').
Proof.
  revert seen g. induction rs as [|r rs IH]; intros seen g Hrs Hsafe Hinv.
  - exists g. by rewrite app_nil_r.
  - destruct (receive_safe seen r g) as (g1 & Hrecv & Hsafe1 & Hinv1 & Hf1); [|done|].
    { apply Hrs. apply elem_of_cons. by left. }
    destruct (IH (seen ++ [r]) g1) as (g' & Hrun & Hsafe' & Hinv'); [|done| |].
    { intros r' Hr'. apply Hrs. apply elem_of_cons. by right. }
    { intros Hnone. apply Hinv1; [done|]. apply Hinv. by apply Hf1. }
    exists g'. simpl. rewrite Hrecv. rewrite <- app_assoc in Hsafe', Hinv'. done.
Qed.

Lemma gate0_safe : gate_safe batches [] gate0.
Proof.
  split; [done|]. split; [|split; [|done]].
  - intros k sps Hk. done.
  - intros r Hr. by apply elem_of_nil in Hr.
Qed.


End commit_any.




(** ** The rate gate *)

Section gate_burst.
Import goint rate ratespec.

(** On a key limited to 60 requests and 60 tokens per minute, two calls of
    [Wait] made one after the other are both admitted, the first for 60
    of each at 0 s and the second for 30 more at 30 s (float64, in which
    every value of this run is exact): the bucket starts full and is
    refilled while the window lasts, so the totals admitted within one
    60-second window can exceed the limits. *)
Lemma Wait_admits_beyond_limit :
  let log := on_key "k" (serve (F := PrimFloat.float) examples.clock examples.waits
                           (NewGate examples.clock examples.per_minute)) in
  log = [(0, examples.ask60); (30 * Second, examples.ask30)] /\
  window_sum Requests 0 (60 * Second) log = 90 /\
  window_sum Tokens 0 (60 * Second) log = 90 /\
  examples.per_minute !! "k"%string = Some {| RPM := 60; TPM := 60; MaxTokensPerReq := 0 |}.
Proof. vm_compute. done. Qed.

End gate_burst.

(** ** The linear assembler, and the validators in front of it *)

Section linear_facts.
Import goint contract linear linearspec.
Context {M : Type}.
Implicit Types (spans : list (SpanResult.t M)).

Lemma ascending_in_order fid prevTo spans :
  ascending fid prevTo spans = true <->
  in_order fid spans /\
  match spans with [] => True | s :: _ => prevTo < SpanResult.From s end.
Proof.
  revert prevTo. induction spans as [|s rest IH]; intros prevTo; simpl; [tauto|].
  destruct (String.eqb_spec (SpanResult.FileID s) fid) as [Hfid|Hfid]; simpl.
  2:{ split; [done|]. intros [[? _] _]. done. }
  destruct (Z.gtb_spec (SpanResult.From s) (SpanResult.To s)) as [Hgt|Hle]; simpl.
  { split; [done|]. intros [(_ & ? & _) _]. lia. }
  destruct (Z.gtb_spec (SpanResult.From s) prevTo) as [Hasc|Hasc]; simpl.
  2:{ split; [done|]. intros [_ ?]. lia. }
  rewrite IH. destruct rest as [|s' rest']; tauto.
Qed.

Lemma append_cons c (x y : string) : (String c x +:+ y)%string = String c (x +:+ y).
Proof. reflexivity. Qed.

Lemma append_empty_r (x : string) : (x +:+ "")%string = x.
Proof. induction x as [|c x IH]; [done|]. by rewrite append_cons, IH. Qed.

Lemma concat_nosep_cons (x : string) (xs : list string) :
  String.concat "" (x :: xs) = (x +:+ String.concat "" xs)%string.
Proof. destruct xs as [|y ys]; simpl; [by rewrite append_empty_r|done]. Qed.

Lemma joined_concat spans :
  joined spans = String.concat "" (map SpanResult.Output spans).
Proof.
  induction spans as [|s rest IH]; [done|].
  cbn [map]. rewrite concat_nosep_cons, <- IH. done.
Qed.

Lemma Assemble_live ctx fid spans :
  ctx O = None ->
  Assemble ctx fid spans =
  match spans with
  | [] => Ok ""%string
  | s0 :: rest =>
      if ascending fid (SpanResult.From s0 - 1) spans then Ok (joined spans)
      else Err (errors.Known errors.ErrSeqInvalid)
  end.
Proof.
  intros Hctx. unfold Assemble, ctxErr. rewrite Hctx.
  destruct spans as [|s0 rest]; [done|]. cbn [ascending].
  destruct (negb _ || _); [done|].
  destruct (Z.gtb_spec (SpanResult.From s0) (SpanResult.From s0 - 1)); [|lia]. done.
Qed.

Lemma Assemble_ok ctx fid spans :
  ctx O = None -> in_order fid spans ->
  Assemble ctx fid spans = Ok (String.concat "" (map SpanResult.Output spans)).
Proof.
  intros Hctx Hin. rewrite Assemble_live by done.
  destruct spans as [|s0 rest]; [done|].
  pose proof (ascending_in_order fid (SpanResult.From s0 - 1) (s0 :: rest)) as Hasc.
  destruct (ascending fid (SpanResult.From s0 - 1) (s0 :: rest)).
  - by rewrite joined_concat.
  - assert (false = true); [|done]. apply Hasc. split; [done|]. lia.
Qed.

(** [Assemble] polls the context once; under a live context it succeeds
    exactly on spans of [fileID] in strictly ascending, non-overlapping
    order (the empty list among them), the reader it returns then yields
    the outputs of the spans one after the other with nothing in between;
    on any other list it fails with [ErrSeqInvalid], which [Classify] maps
    to [invariant]. *)
Theorem Assemble_spec ctx fid spans :
  (forall e, ctx O = Some e -> Assemble ctx fid spans = Err e) /\
  (ctx O = None ->
   (in_order fid spans ->
    Assemble ctx fid spans = Ok (String.concat "" (map SpanResult.Output spans))) /\
   (~ in_order fid spans ->
    Assemble ctx fid spans = Err (errors.Known errors.ErrSeqInvalid))) /\
  diag.Classify (Some (errors.Known errors.ErrSeqInvalid)) = diag.CodeInvariant.
Proof.
  split; [|split; [|done]].
  - intros e He. unfold Assemble, ctxErr. by rewrite He.
  - intros Hctx.
    split; [by apply Assemble_ok|]. rewrite Assemble_live by done.
    destruct spans as [|s0 rest]; [intros Hno; by destruct Hno|].
    pose proof (ascending_in_order fid (SpanResult.From s0 - 1) (s0 :: rest)) as Hasc.
    destruct (ascending fid (SpanResult.From s0 - 1) (s0 :: rest)); [|done].
    intros Hno. destruct Hno. by apply Hasc.
Qed.

End linear_facts.

Section validators_facts.
Import goint contract validate validspec linear linearspec.
Implicit Types (cands : list (SpanCandidate.t MetaRef)) (spans : list (SpanResult.t MetaRef))
  (h : store).

(** The loop of [ValidatePerRecord] fails in one way only. *)
Lemma perRecordLoop_errors fid cands expect spans h e h' :
  perRecordLoop fid cands expect spans h <> (Panic, h') /\
  (perRecordLoop fid cands expect spans h = (Err e, h') ->
   e = errors.Known errors.ErrResponseInvalid).
Proof.
  revert expect spans h. induction cands as [|c cands IH]; intros expect spans h.
  - simpl. split; [done|]. intros [=].
  - simpl. destruct (_ >? _); [split; [done|]; by intros [= <- _]|].
    destruct (negb (_ =? SpanCandidate.To c)); [split; [done|]; by intros [= <- _]|].
    destruct (negb (_ =? expect)); [split; [done|]; by intros [= <- _]|].
    destruct (cloneMeta _ h) as [meta h1]. apply IH.
Qed.

(** What a successful [ValidatePerRecord] was given, and what it returns. *)
Lemma ValidatePerRecord_Ok_inv tgt cands h spans h' :
  0 <= Target.From tgt -> Target.To tgt <= max_int ->
  llen cands <= max_int -> allocated h cands ->
  ValidatePerRecord tgt cands h = (Ok spans, h') ->
  Target.From tgt <= Target.To tgt /\
  exact_points (Target.From tgt) (Target.To tgt) cands /\
  Forall2 (copy_of (Target.FileID tgt) h h') cands spans.
Proof.
  intros Hfrom Hto Hlen Hal. unfold ValidatePerRecord.
  destruct (Z.gtb_spec (Target.From tgt) (Target.To tgt)) as [Hgt|Hle]; [done|].
  unfold max_int in *.
  rewrite (sub_id (Target.To tgt) (Target.From tgt))
    by (unfold in_range, min_int, max_int; lia).
  destruct (Z.eq_dec (Target.To tgt - Target.From tgt) (2 ^ 63 - 1)) as [Hbig|Hsmall].
  { assert (Hne : llen cands <> add (Target.To tgt - Target.From tgt) 1).
    { unfold add. rewrite Hbig.
      replace (wrap (2 ^ 63 - 1 + 1)) with (- 2 ^ 63) by (vm_compute; reflexivity).
      unfold llen. lia. }
    destruct (Z.eqb_spec (llen cands) (add (Target.To tgt - Target.From tgt) 1)); done. }
  rewrite add_id by (unfold in_range, min_int, max_int; lia).
  destruct (Z.eqb_spec (llen cands) (Target.To tgt - Target.From tgt + 1)) as [Hn|Hn];
    simpl; [|done].
  destruct (perRecordLoop (Target.FileID tgt) cands (Target.From tgt) [] h)
    as [[[spans1 e']|e|] h1] eqn:Hrun; [|done|done].
  destruct (perRecordLoop_Ok_inv _ _ _ _ h _ _ _ _ Hrun) as (Hmap & Hpre & new & -> & Hnew);
    auto; try (unfold in_range, min_int, max_int; lia).
  destruct (negb _); [done|]. intros [= <- <-].
  split; [done|]. split; [|done]. unfold exact_points. by rewrite Hmap, Hn.
Qed.


(** [ValidateWhole]: with [From > To] it fails with [ErrInvalidInput];
    otherwise it succeeds exactly on a single candidate whose range is the
    target's, and returns one span, a deep copy of the candidate bound to
    the target's FileID; on anything else (no candidate, several, another
    range) it fails with [ErrResponseInvalid] and allocates nothing. *)
Theorem ValidateWhole_spec tgt cands h :
  (Target.From tgt > Target.To tgt ->
   ValidateWhole tgt cands h = (Err (errors.Known errors.ErrInvalidInput), h)) /\
  (Target.From tgt <= Target.To tgt ->
   (forall c, cands = [c] ->
      SpanCandidate.From c = Target.From tgt -> SpanCandidate.To c = Target.To tgt ->
      exists s h', ValidateWhole tgt cands h = (Ok [s], h') /\
                   copy_of (Target.FileID tgt) h h' c s /\ h `prefix_of` h') /\
   ((forall c, cands = [c] ->
       SpanCandidate.From c <> Target.From tgt \/ SpanCandidate.To c <> Target.To tgt) ->
    ValidateWhole tgt cands h = (Err (errors.Known errors.ErrResponseInvalid), h))).
Proof.
  unfold ValidateWhole. split.
  - intros Hgt. destruct (Z.gtb_spec (Target.From tgt) (Target.To tgt)); [done|lia].
  - intros Hle. destruct (Z.gtb_spec (Target.From tgt) (Target.To tgt)); [lia|]. split.
    + intros c -> Hf Ht. rewrite Hf, Ht, !Z.eqb_refl. simpl.
      destruct (cloneMeta (SpanCandidate.Meta c) h) as [meta h'] eqn:Hcl.
      apply cloneMeta_spec in Hcl as [Hpre Hcl].
      eexists _, h'. split; [rewrite <- Hf, <- Ht; reflexivity|]. split; [|done].
      repeat split; simpl; try done; [apply cloneString_id|].
      destruct (SpanCandidate.Meta c) as [l|].
      * destruct Hcl as [-> Hlk]. exists (length h). done.
      * by destruct Hcl as [-> _].
    + intros Hno. destruct cands as [|c [|c' rest]]; [done| |done].
      destruct (Hno c eq_refl) as [Hne|Hne].
      * destruct (Z.eqb_spec (SpanCandidate.From c) (Target.From tgt)); done.
      * destruct (Z.eqb_spec (SpanCandidate.To c) (Target.To tgt)); [done|].
        by rewrite orb_true_r.
Qed.

(** [ValidatePerRecord] never panics, and it fails in two ways only: with
    [ErrInvalidInput] when the target is empty ([From > To]), which the
    worker's decode stage does not retry, and with [ErrResponseInvalid] for
    every response that does not match the target, which it retries. *)
Theorem ValidatePerRecord_failures tgt cands h :
  match (ValidatePerRecord tgt cands h).1 with
  | Ok _ => Target.From tgt <= Target.To tgt
  | Err e =>
      (Target.From tgt > Target.To tgt /\ e = errors.Known errors.ErrInvalidInput /\
       pipeline.shouldRetryDecode (Some e) = false) \/
      (Target.From tgt <= Target.To tgt /\ e = errors.Known errors.ErrResponseInvalid /\
       pipeline.shouldRetryDecode (Some e) = true)
  | Panic => False
  end.
Proof.
  unfold ValidatePerRecord.
  destruct (Z.gtb_spec (Target.From tgt) (Target.To tgt)) as [Hgt|Hle]; simpl.
  { left. split; [lia|]. done. }
  destruct (negb (llen cands =? _)); simpl; [right; done|].
  destruct (perRecordLoop (Target.FileID tgt) cands (Target.From tgt) [] h)
    as [[[spans e']|e|] h1] eqn:Hrun; simpl.
  - destruct (negb _); simpl; [right; done|done].
  - apply perRecordLoop_errors in Hrun as ->. by right.
  - by destruct (proj1 (perRecordLoop_errors (Target.FileID tgt) cands (Target.From tgt)
                         [] h (errors.Known errors.Canceled) h1)).
Qed.

Lemma copy_of_in_order fid h h' (from n : Z) cands spans :
  Forall2 (copy_of fid h h') cands spans ->
  map (fun c => (SpanCandidate.From c, SpanCandidate.To c)) cands
    = map (fun i => (i, i)) (seqZ from n) ->
  in_order fid spans /\
  match spans with [] => True | s :: _ => SpanResult.From s = from end /\
  map SpanResult.Output spans = map SpanCandidate.Output cands.
Proof.
  intros Hall. revert from n. induction Hall as [|c s cands spans Hc Hall IH]; intros from n Hmap.
  { done. }
  destruct (Z.le_gt_cases n 0) as [Hn|Hn].
  { rewrite seqZ_nil in Hmap by done. done. }
  rewrite seqZ_cons in Hmap by lia. simpl in Hmap. injection Hmap as Hf Ht Hrest.
  destruct Hc as (Hfid & Hfrom & Hto & Hout & _).
  destruct (IH _ _ Hrest) as (Hin & Hhd & Houts). simpl.
  split; [|split; [congruence|by rewrite Hout, Houts]].
  split; [done|]. split; [lia|]. split; [|done].
  destruct spans as [|s' spans']; [done|]. lia.
Qed.

(** What the validators return always assembles: for the spans of a
    successful [ValidatePerRecord] or [ValidateWhole] on a target,
    [Assemble] called for the target's file under a live context succeeds,
    and the bytes it yields are the outputs of the candidates, in order. *)
Theorem validated_spans_assemble tgt cands h ctx :
  0 <= Target.From tgt -> Target.To tgt <= max_int ->
  llen cands <= max_int -> allocated h cands ->
  ctx O = None ->
  forall spans h',
    ValidatePerRecord tgt cands h = (Ok spans, h') \/
    ValidateWhole tgt cands h = (Ok spans, h') ->
    Assemble ctx (Target.FileID tgt) spans =
      Ok (String.concat "" (map SpanCandidate.Output cands)).
Proof.
  intros Hfrom Hto Hlen Hal Hctx spans h' [Hrun|Hrun].
  - destruct (ValidatePerRecord_Ok_inv _ _ _ _ _ Hfrom Hto Hlen Hal Hrun)
      as (Hle & Hex & Hcopy).
    destruct (copy_of_in_order _ _ _ _ _ _ _ Hcopy Hex) as (Hin & _ & Houts).
    rewrite (Assemble_ok ctx _ _ Hctx Hin). by rewrite Houts.
  - unfold ValidateWhole in Hrun.
    destruct (Z.gtb_spec (Target.From tgt) (Target.To tgt)) as [Hgt|Hle]; [done|].
    destruct cands as [|c [|c' rest]]; [done| |done].
    destruct (Z.eqb_spec (SpanCandidate.From c) (Target.From tgt)) as [Hf|]; [|done].
    destruct (Z.eqb_spec (SpanCandidate.To c) (Target.To tgt)) as [Ht|]; [|done].
    simpl in Hrun. destruct (cloneMeta (SpanCandidate.Meta c) h) as [meta h1].
    injection Hrun as <- <-.
    rewrite Assemble_ok; [|done|].
    + simpl. by rewrite cloneString_id.
    + simpl. split; [done|]. split; [lia|done].
Qed.

End validators_facts.

Lemma validated_spans_assemble_witness :
  exists spans h',
    validate.ValidatePerRecord examples.target35 examples.cands35 examples.store1
      = (Ok spans, h') /\
    linear.Assemble context.Background "f" spans = Ok "xyz"%string.
Proof.
  eexists _, _. split; [vm_compute; reflexivity|].
  apply (validated_spans_assemble examples.target35 examples.cands35 examples.store1
           context.Background
           ltac:(vm_compute; discriminate) ltac:(vm_compute; discriminate)
           ltac:(vm_compute; discriminate) ltac:(repeat constructor) eq_refl _ _
           (or_introl eq_refl)).
Defined.

(** ** The sliding batcher: greedy batches, small files, cancellation *)

Section sliding_greedy.
Import goint contract sliding spec batchspec.
Context {M : Type}.
Implicit Types (records rs : list (Rec.t M)) (bs batches : list (Batch.t M)).
Variable b : Batcher.
Hypothesis Hb : normal b.
Variable ctx : context.Context.
Hypothesis Hlive : live ctx.
Variable records : list (Rec.t M).
Variable pref : list Z.
Variable budget : Z.
Hypothesis Hpref : pref_ok b pref records.
Hypothesis Hfits : fits b records.
Hypothesis Hn : llen records < max_int.

(** Where the expansion loop stops: at the end of the file, or in front of
    the first record that no longer fits. *)
Lemma expand_stops todo l r bestR k bestR' k' :
  0 <= l -> l <= r -> r <= llen records + 1 -> l <= llen records ->
  llen records + 1 - r < Z.of_nat todo ->
  bestR = Z.max l (r - 1) ->
  expand b ctx pref (llen records) budget todo l (Z.max 0 (l - ctxRadius b)) (l - 1)
    r bestR k = Ok (bestR', k') ->
  bestR' = llen records \/ budget < need b records l (bestR' + 1).
Proof.
  intros Hl. revert r bestR k.
  induction todo as [|todo IH]; intros r bestR k Hlr Hrn Hln Htodo Hbest He; [lia|].
  destruct (Z.le_gt_cases r (llen records)) as [Hin|Hout].
  - rewrite (expand_step b Hb ctx Hlive records pref budget Hpref Hfits Hn) in He by done.
    destruct (Z.leb_spec (need b records l r) budget) as [Hfit|Hno].
    + apply IH in He; [done|lia|lia|done|lia|].
      destruct (Z.gtb_spec r l); lia.
    + injection He as <- _. right. subst bestR.
      destruct (Z.eq_dec r l) as [->|Hne].
      * rewrite Z.max_l by lia.
        pose proof (need_mono b Hb records l l (l + 1) Hl ltac:(lia) ltac:(lia)). lia.
      * rewrite Z.max_r by lia. by replace (r - 1 + 1) with r by lia.
  - simpl in He. destruct (Z.leb_spec r (llen records)); [lia|].
    injection He as <- _. left. lia.
Qed.

(** Every batch is as long as the budget allows. *)
Lemma batchLoop_maximal fid fuel l batchIdx bs k out :
  well_numbered fid records ->
  batchLoop b ctx pref (llen records) budget records fid fuel l batchIdx bs k = Ok out ->
  0 <= l <= llen records ->
  let greedy (x : Batch.t M) :=
    Batch.TargetTo x < llen records - 1 ->
    budget < window_cost b (window (ctxRadius b) records (Batch.TargetFrom x)
                              (Batch.TargetTo x + 1)) in
  Forall greedy bs -> Forall greedy out.
Proof.
  intros Hnum. revert l batchIdx bs k.
  induction fuel as [|fuel IH]; intros l batchIdx bs k Hrun Hl greedy Hbs.
  - simpl in Hrun. by injection Hrun as <-.
  - destruct (Z.lt_ge_cases l (llen records)) as [Hlt|Hge].
    2:{ simpl in Hrun. destruct (Z.ltb_spec l (llen records)); [lia|].
        by injection Hrun as <-. }
    destruct (expand_live b Hb ctx Hlive records pref budget Hpref Hfits Hn
                (Z.to_nat (llen records - l) + 2) l l l (S k))
      as (bestR & k' & He); [lia..|].
    pose proof (expand_bounds _ _ _ _ _ _ _ _ _ _ _ _ _ _ He ltac:(lia)) as Hb'.
    destruct (Z.eq_dec bestR l) as [->|Hne].
    { simpl in Hrun. destruct (Z.ltb_spec l (llen records)); [|lia].
      unfold ctxErr in Hrun. rewrite Hlive in Hrun. destruct Hb as (HC & _).
      pose proof Hfits as (Hrad & _). unfold max_int in *.
      rewrite (sub_id l (ctxRadius b)) in Hrun by (unfold in_range, min_int, max_int; lia).
      rewrite (sub_id l 1) in Hrun by (unfold in_range, min_int, max_int; lia).
      replace (if l - ctxRadius b <? 0 then 0 else l - ctxRadius b)
        with (Z.max 0 (l - ctxRadius b)) in Hrun
        by (destruct (Z.ltb_spec (l - ctxRadius b) 0); lia).
      rewrite He in Hrun. cbn [mbind result_bind] in Hrun.
      rewrite Z.eqb_refl in Hrun. done. }
    destruct (batchLoop_step b Hb ctx Hlive records pref budget Hfits Hn
                fid fuel l batchIdx bs k bestR k')
      as (r1 & r2 & Hr1 & Hr2 & Hstep); [lia|done|lia|].
    rewrite Hstep in Hrun. apply IH in Hrun; [done|lia|].
    apply Forall_app. split; [done|]. apply Forall_singleton.
    unfold greedy. simpl.
    apply Hnum in Hr1 as [Hi1 _], Hr2 as [Hi2 _].
    rewrite Z2Nat.id in Hi1, Hi2 by lia. rewrite Hi1, Hi2. intros Hnotlast.
    apply expand_stops in He; try lia.
    destruct He as [->|Hover]; [lia|].
    unfold need in Hover. by replace (bestR + 1 - 1) with (bestR - 1 + 1) in Hover by lia.
Qed.

End sliding_greedy.

Section sliding_more.
Import goint contract sliding spec batchspec.
Context {M : Type}.
Implicit Types (records rs : list (Rec.t M)) (bs batches : list (Batch.t M)).

(** The batches are greedy: under a context that is never cancelled, a
    batch whose target range stops before the last record could not take
    one more target, the window of the longer range (with its contexts)
    costs more than [MaxTokens]. *)
Theorem Make_batches_maximal opts ctx records limit batches :
  live ctx -> llen records < max_int -> fits (New opts) records ->
  Make (New opts) ctx records limit = Ok batches ->
  forall x, x ∈ batches ->
    Batch.TargetTo x < llen records - 1 ->
    BatchLimit.MaxTokens limit <
      window_cost (New opts)
        (window (ctxRadius (New opts)) records (Batch.TargetFrom x) (Batch.TargetTo x + 1)).
Proof.
  intros Hlive Hn Hfits Hrun.
  assert (Hle : llen records <= max_int) by lia.
  destruct (Make_Ok_inv _ _ _ _ _ Hle Hrun)
    as [_ [[-> ->]|(fid & p & k & k' & Hnum & Hp & Hloop)]].
  - intros x Hx. by apply elem_of_nil in Hx.
  - pose proof (prefixes_pref_ok _ (New_normal opts) _ _ _ _ _ Hp Hfits) as Hpref.
    apply (batchLoop_maximal (New opts) (New_normal opts) ctx Hlive records (0 :: p)
             (BatchLimit.MaxTokens limit) Hpref Hfits Hn fid) in Hloop;
      [|done|unfold llen; lia|done].
    intros x Hx. by apply (proj1 (Forall_forall _ _) Hloop).
Qed.

End sliding_more.

Section sliding_cancel.
Import goint contract sliding spec batchspec.
Context {M : Type}.
Implicit Types (records rs : list (Rec.t M)) (bs batches : list (Batch.t M)).
Variable b : Batcher.
Variable ctx : context.Context.

Local Abbreviation or_cancelled := (spec.or_cancelled ctx).

Lemma or_cancelled_refl {A} (x : result A) : or_cancelled x x.
Proof. by left. Qed.

Lemma or_cancelled_bind {A B} (m m' : result A) (f f' : A -> result B) :
  or_cancelled m m' -> (forall a, or_cancelled (f a) (f' a)) ->
  or_cancelled (m ≫= f) (m' ≫= f').
Proof.
  intros [->|(k & e & Hk & ->)] Hf.
  - destruct m'; simpl; [apply Hf|by left..].
  - right. exists k, e. done.
Qed.

Lemma or_cancelled_poll {A} k (x y : result A) :
  or_cancelled x y ->
  or_cancelled (match ctxErr ctx k with Some e => Err e | None => x end)
               (match ctxErr context.Background k with Some e => Err e | None => y end).
Proof.
  intros H. unfold ctxErr, context.Background. destruct (ctx k) as [e|] eqn:Hk; [|done].
  right. by exists k, e.
Qed.

Lemma validate_or_cancelled fid prev rs k :
  or_cancelled (validate ctx fid prev rs k) (validate context.Background fid prev rs k).
Proof.
  revert prev k. induction rs as [|r rs IH]; intros prev k; simpl; [by left|].
  apply or_cancelled_poll. repeat case_match; try apply or_cancelled_refl. apply IH.
Qed.

Lemma prefixes_or_cancelled rs last k :
  or_cancelled (prefixes b ctx rs last k) (prefixes b context.Background rs last k).
Proof.
  revert last k. induction rs as [|r rs IH]; intros last k; simpl; [by left|].
  apply or_cancelled_poll. apply or_cancelled_bind; [apply IH|].
  intros [p k']. apply or_cancelled_refl.
Qed.

Lemma expand_or_cancelled pref n budget todo l L1 L2 r bestR k :
  or_cancelled (expand b ctx pref n budget todo l L1 L2 r bestR k)
               (expand b context.Background pref n budget todo l L1 L2 r bestR k).
Proof.
  revert r bestR k. induction todo as [|todo IH]; intros r bestR k; simpl; [by left|].
  destruct (r <=? n); [|by left].
  apply or_cancelled_poll.
  apply or_cancelled_bind; [apply or_cancelled_refl|intros s1].
  apply or_cancelled_bind; [apply or_cancelled_refl|intros s2].
  apply or_cancelled_bind; [apply or_cancelled_refl|intros s3].
  destruct (_ <=? budget); [apply IH|by left].
Qed.

Lemma batchLoop_or_cancelled pref n budget records fid fuel l batchIdx bs k :
  or_cancelled (batchLoop b ctx pref n budget records fid fuel l batchIdx bs k)
               (batchLoop b context.Background pref n budget records fid fuel l batchIdx bs k).
Proof.
  revert l batchIdx bs k. induction fuel as [|fuel IH]; intros l batchIdx bs k; simpl;
    [by left|].
  destruct (l <? n); [|by left].
  apply or_cancelled_poll.
  apply or_cancelled_bind; [apply expand_or_cancelled|intros [bestR k']].
  destruct (bestR =? l); [by left|].
  apply or_cancelled_bind; [apply or_cancelled_refl|intros recSlice].
  apply or_cancelled_bind; [apply or_cancelled_refl|intros first].
  apply or_cancelled_bind; [apply or_cancelled_refl|intros last].
  apply IH.
Qed.

(** Cancellation is all or nothing: under any context [Make] returns what
    it returns under a context that is never cancelled, or else the error
    one of its polls received from the context; it never returns some of
    the batches. *)
Theorem Make_cancellation records limit :
  Make b ctx records limit = Make b context.Background records limit \/
  exists k e, ctx k = Some e /\ Make b ctx records limit = Err e.
Proof.
  change (or_cancelled (Make b ctx records limit) (Make b context.Background records limit)).
  unfold Make. destruct (_ <=? 0); [by left|].
  destruct records as [|r0 rest]; [by left|].
  destruct (negb _); [by left|].
  apply or_cancelled_bind; [apply validate_or_cancelled|intros k].
  apply or_cancelled_bind; [apply prefixes_or_cancelled|intros [p k']].
  apply batchLoop_or_cancelled.
Qed.

(** A context that is cancelled before the call makes [Make] return its
    error, provided the arguments pass the checks made before the first
    poll: a positive budget, and records that start at index 0. *)
Theorem Make_cancelled_at_start e (r0 : Rec.t M) rest limit :
  ctx 0%nat = Some e ->
  0 < BatchLimit.MaxTokens limit -> Rec.Index r0 = 0 ->
  Make b ctx (r0 :: rest) limit = Err e.
Proof.
  intros Hc Hmax H0. unfold Make.
  destruct (Z.leb_spec (BatchLimit.MaxTokens limit) 0); [lia|].
  rewrite H0. simpl negb. cbv iota.
  destruct rest as [|r1 rest]; simpl; unfold ctxErr; by rewrite Hc.
Qed.

End sliding_cancel.

Section sliding_single.
Import goint contract sliding spec batchspec.
Context {M : Type}.
Implicit Types (records rs : list (Rec.t M)) (bs batches : list (Batch.t M)).

(** A file that fits the budget as a whole is one batch: its targets are
    all the records, and its window is the file. *)
Theorem Make_single_batch opts ctx (r0 : Rec.t M) rest limit :
  let b := New opts in
  let records := r0 :: rest in
  live ctx -> llen records < max_int -> fits b records ->
  well_numbered (Rec.FileID r0) records ->
  0 < BatchLimit.MaxTokens limit ->
  window_cost b records <= BatchLimit.MaxTokens limit ->
  Make b ctx records limit =
    Ok [Batch.mk (Rec.FileID r0) 0 records 0 (llen records - 1)].
Proof.
  intros b records Hlive Hn Hfits Hnum Hmax Hcost.
  pose proof (New_normal opts) as Hb. fold b in Hb.
  assert (Hall : forall l r, need b records l r <= BatchLimit.MaxTokens limit).
  { intros l r. unfold need, window. etransitivity; [|exact Hcost].
    by apply window_cost_segment_le. }
  destruct (proj2 (proj2 (Make_live opts ctx r0 rest limit Hmax Hlive Hn Hfits)) Hnum)
    as [batches Hrun].
  { intros i Hi. unfold fits_alone. specialize (Hall i (i + 1)). unfold need in Hall.
    by replace (i + 1 - 1) with i in Hall by lia. }
  fold b records in Hrun. rewrite Hrun. f_equal.
  destruct (Make_Ok_inv _ _ _ _ _ (Z.lt_le_incl _ _ Hn) Hrun)
    as [_ [[? _]|(fid & p & k & k' & Hnum' & Hp & Hloop)]]; [done|].
  pose proof (prefixes_pref_ok _ Hb _ _ _ _ _ Hp Hfits) as Hpref.
  assert (Hlen : 0 < llen records) by (unfold llen, records; simpl; lia).
  destruct (expand_live b Hb ctx Hlive records (0 :: p) (BatchLimit.MaxTokens limit)
              Hpref Hfits Hn (Z.to_nat (llen records - 0) + 2) 0 0 0 (S k'))
    as (bestR & k2 & He); [lia..|].
  pose proof He as Hstop.
  apply (expand_stops b Hb ctx Hlive records (0 :: p) (BatchLimit.MaxTokens limit)
           Hpref Hfits Hn) in Hstop; try lia.
  destruct Hstop as [->|Hover]; [|specialize (Hall 0 (bestR + 1)); lia].
  destruct (batchLoop_step b Hb ctx Hlive records (0 :: p) (BatchLimit.MaxTokens limit)
              Hfits Hn fid (length rest) 0 0 [] k' (llen records) k2)
    as (r1 & r2 & Hr1 & Hr2 & Hstep); [lia|done|lia|].
  change (length records) with (S (length rest)) in Hloop.
  rewrite Hstep in Hloop.
  assert (Hend : forall fuel bIdx bs kk,
    batchLoop b ctx (0 :: p) (llen records) (BatchLimit.MaxTokens limit) records fid fuel
      (llen records) bIdx bs kk = Ok bs).
  { intros [|fuel] ? ? ?; simpl; [done|]. by rewrite Z.ltb_irrefl. }
  rewrite Hend in Hloop. injection Hloop as <-. simpl.
  pose proof (Hnum' _ _ Hr1) as [Hi1 _]. pose proof (Hnum' _ _ Hr2) as [Hi2 _].
  pose proof (Hnum' 0%nat r0 eq_refl) as [_ Hfid].
  rewrite Z2Nat.id in Hi1, Hi2 by lia.
  rewrite Hi1, Hi2, Hfid. f_equal.
  destruct Hb as (HC & _).
  unfold window, segment.
  rewrite Z.max_l by lia. rewrite Z.min_l by lia.
  simpl drop. rewrite take_ge by (unfold llen, records; lia). done.
Qed.

End sliding_single.

Lemma Make_cancelled_at_start_witness :
  sliding.Make examples.batcher1 context.cancelled examples.five (contract.BatchLimit.mk 3) =
    Err (errors.Known errors.Canceled).
Proof.
  apply (Make_cancelled_at_start examples.batcher1 context.cancelled
           (errors.Known errors.Canceled) (examples.rec 0 "a") (tail examples.five)
           (contract.BatchLimit.mk 3)).
  - reflexivity.
  - vm_compute. reflexivity.
  - reflexivity.
Defined.

Lemma Make_batches_maximal_witness :
  exists batches,
    sliding.Make examples.batcher1 context.Background examples.five
      (contract.BatchLimit.mk 3) = Ok batches /\
    length batches = 3%nat /\
    forall x, x ∈ batches ->
      contract.Batch.TargetTo x < 4 ->
      3 < batchspec.window_cost examples.batcher1
            (batchspec.window 1 examples.five (contract.Batch.TargetFrom x)
               (contract.Batch.TargetTo x + 1)).
Proof.
  eexists. split; [vm_compute; reflexivity|]. split; [reflexivity|].
  apply (Make_batches_maximal (Some examples.opts1) context.Background examples.five
           (contract.BatchLimit.mk 3)).
  - intros k. reflexivity.
  - vm_compute. reflexivity.
  - split; [vm_compute; discriminate|]. split; [|vm_compute; discriminate].
    repeat constructor; vm_compute; discriminate.
  - vm_compute. reflexivity.
Defined.

Lemma Make_single_batch_witness :
  sliding.Make examples.batcher1 context.Background examples.five (contract.BatchLimit.mk 5) =
    Ok [contract.Batch.mk "f" 0 examples.five 0 4].
Proof.
  apply (Make_single_batch (Some examples.opts1) context.Background
           (examples.rec 0 "a") (tail examples.five) (contract.BatchLimit.mk 5)).
  - intros k. reflexivity.
  - vm_compute. reflexivity.
  - split; [vm_compute; discriminate|]. split; [|vm_compute; discriminate].
    repeat constructor; vm_compute; discriminate.
  - intros i r Hi. do 5 (destruct i as [|i]; [injection Hi as <-; split; reflexivity|]).
    discriminate.
  - vm_compute. reflexivity.
  - vm_compute. discriminate.
Defined.

(** ** The token estimators *)

Section estimators.
Import goint contract sliding batchspec.

Lemma len_nonneg s : 0 <= len s.
Proof. unfold len. lia. Qed.

(** The closed form of the three byte-count estimators. *)
Lemma MakeEstimator_ceil bpt s :
  let d := if bpt <=? 0 then 4 else bpt in
  len s + d <= max_int ->
  prompt.MakeEstimator bpt s = ceil_div (len s) d.
Proof.
  intros d Hfit. unfold prompt.MakeEstimator. fold d.
  assert (Hd : 0 < d) by (unfold d; destruct (Z.leb_spec bpt 0); lia).
  pose proof (len_nonneg s) as Hlen. unfold max_int in Hfit.
  destruct (Z.eqb_spec (len s) 0) as [->|Hne].
  - unfold ceil_div. simpl. rewrite Z.div_0_l; lia.
  - rewrite add_id by (unfold in_range, min_int, max_int; lia).
    rewrite sub_id by (unfold in_range, min_int, max_int; lia).
    rewrite ceil_div_spec by lia.
    unfold quot. rewrite Z.quot_div_nonneg by lia.
    apply wrap_id. unfold in_range, min_int, max_int. split.
    + pose proof (Z.div_pos (len s + d - 1) d). lia.
    + assert ((len s + d - 1) / d <= len s + d - 1); [|lia].
      apply Z.div_le_upper_bound; [lia|]. nia.
Qed.

(** The three estimators of the program are one function: the prompt
    package's [MakeEstimator], the dispatcher's [approxPromptTokens] on a
    text prompt and the sliding batcher's [estimateTokens] without extra
    bytes all return [ceil(len(s) / d)] for the same divisor [d], which is
    [bytesPerToken] or 4 when that is not positive. *)
Theorem estimators_agree bpt radius s :
  let d := if bpt <=? 0 then 4 else bpt in
  len s + d <= max_int ->
  prompt.MakeEstimator bpt s = ceil_div (len s) d /\
  pipeline.approxPromptTokens (pipeline.TextPrompt s) bpt = ceil_div (len s) d /\
  estimateTokens (New (Some {| ContextRadius := radius; BytesPerToken := bpt;
                               ExtraBytesPerRecord := 0 |})) s = ceil_div (len s) d.
Proof.
  intros d Hfit. pose proof (MakeEstimator_ceil bpt s Hfit) as Hm. fold d in Hm.
  split; [done|]. rewrite <- Hm. split.
  - unfold pipeline.approxPromptTokens, prompt.MakeEstimator.
    pose proof (len_nonneg s).
    destruct (Z.leb_spec (len s) 0), (Z.eqb_spec (len s) 0); try lia; done.
  - unfold estimateTokens, New, prompt.MakeEstimator. cbn.
    destruct (Z.eqb_spec (len s) 0); [done|].
    destruct (Z.gtb_spec bpt 0), (Z.leb_spec bpt 0); try lia; try done.
Qed.

End estimators.

Lemma estimators_agree_witness :
  prompt.MakeEstimator 4 "abcdefghi" = 3 /\
  pipeline.approxPromptTokens (pipeline.TextPrompt "abcdefghi") 4 = 3 /\
  sliding.estimateTokens
    (sliding.New (Some {| sliding.ContextRadius := 1; sliding.BytesPerToken := 4;
                          sliding.ExtraBytesPerRecord := 0 |})) "abcdefghi" = 3.
Proof.
  apply (estimators_agree 4 1 "abcdefghi"). vm_compute. discriminate.
Defined.
